(** * Task lifecycle of the chat panel and of the upload panel

    A shallow embedding of the two client-side controllers of the frontend:
    - [Chat]: [handleSendMessage] of the chat panel, with its three
      [setTimeout] ticks, the awaited [processQuery] call and the final
      tick scheduled once the call has resolved;
    - [Upload]: [onDrop] of the file upload panel, with its [setInterval]
      progress ticker and the awaited [onFileUpload] call.

    JavaScript runs both on one thread: a handler, a timer callback or the
    continuation of an awaited promise runs to completion before the next
    one starts.  Each module is a labelled transition system whose labels
    are exactly those units of execution.  A handler runs against the
    state of the latest render, timers fire in the order of their due
    times, and the settlement of a call may come before or after a timer
    due at the same time. *)

From Stdlib Require Import ZArith List Lia Bool Ascii String.
From stdpp Require Import base tactics option list strings.

(** ** The chat panel *)
Module Chat.

(** *** Strings

    A JavaScript string is a sequence of UTF-16 code units; [trim] is the
    only operation of the panel that looks inside one. *)
Definition jsstring := list N.

Definition lit (s : string) : jsstring :=
  map N_of_ascii (list_ascii_of_string s).

(** WhiteSpace and LineTerminator code units, the ones [trim] strips. *)
Definition isWhiteSpace (c : N) : bool :=
  ((9 <=? c) && (c <=? 13) || (c =? 32) || (c =? 160) || (c =? 5760)
   || (8192 <=? c) && (c <=? 8202) || (c =? 8232) || (c =? 8233)
   || (c =? 8239) || (c =? 8287) || (c =? 12288) || (c =? 65279))%N.

Fixpoint trimStart (s : jsstring) : jsstring :=
  match s with
  | [] => []
  | c :: s' => if isWhiteSpace c then trimStart s' else s
  end.

Definition trim (s : jsstring) : jsstring :=
  rev (trimStart (rev (trimStart s))).

(** Truthiness of a string: the empty string is the only falsy one. *)
Definition truthy (s : jsstring) : bool :=
  match s with [] => false | _ :: _ => true end.

(** *** Data (types/index.ts) *)
Inductive PersonaType := financial | legal | general.

Record Persona := {
  persona_id : jsstring;
  persona_name : jsstring;
  persona_description : jsstring;
  persona_type : PersonaType;
  persona_icon : jsstring;
  persona_color : jsstring
}.

Record QueryRequest := {
  req_query : jsstring;
  req_persona_type : PersonaType
}.

(** The fields of the response the panel reads; [documents], [math_results]
    and [sql_results] are carried along untouched and left out. *)
Record QueryResponse := {
  success : bool;
  response : jsstring;
  suggested_queries : option (list jsstring);
  error : option jsstring;
  processing_time : option jsstring
}.

(** [status] of a step: 'pending' | 'processing' | 'completed' | 'error'
    ([failed] here, [error] being a field of the response). *)
Inductive StepStatus := pending | processing | completed | failed.

Record ProcessingStep := {
  step_id : jsstring;
  step_name : jsstring;
  status : StepStatus;
  duration : option Z
}.

Record ProcessingTrace := {
  query : jsstring;
  steps : list ProcessingStep;
  totalDuration : Z;
  finalResult : option QueryResponse
}.

Inductive MessageType := user | assistant | system.

Record Metadata := {
  meta_persona : jsstring;
  meta_suggestedQueries : option (list jsstring);
  meta_processingTime : option jsstring
}.

(** [id] is [Date.now()] (or [Date.now() + 1]) before [toString], and
    [timestamp] the clock reading of [new Date()], both in milliseconds. *)
Record ChatMessage := {
  msg_id : Z;
  msg_type : MessageType;
  content : jsstring;
  timestamp : Z;
  metadata : option Metadata
}.

(** *** The store

    [trace] is one object per call of the handler, captured by the closures
    of its timers; a reference is its index in [heap].  What the parent
    holds in [processingTrace] is either that object itself (the first
    [onProcessingTrace(trace)]) or a spread copy [{ ...trace }], which
    copies the scalar fields and shares the [steps] array. *)
Inductive Published :=
| Obj (trace : nat)
| Spread (q : jsstring) (steps_of : nat) (total : Z)
         (result : option QueryResponse).

Inductive Callback :=
| Tick500 (trace : nat)
| Tick1300 (trace : nat)
| Tick2500 (trace : nat)
| Finish (trace : nat) (resp : QueryResponse) (persona : Persona).

Record Timer := { due : Z; callback : Callback }.

(** An outstanding [processQuery] promise with what its continuation
    captured. *)
Record PendingCall := {
  call_trace : nat;
  call_request : QueryRequest;
  call_persona : Persona
}.

Record World := {
  now : Z;
  (* state of Home *)
  selectedPersona : option Persona;
  messages : list ChatMessage;
  processingTrace : option Published;
  isProcessing : bool;
  (* state of ChatPanel *)
  inputValue : jsstring;
  suggestedQueries : list jsstring;
  (* runtime *)
  heap : list ProcessingTrace;
  timers : list Timer;
  calls : list PendingCall
}.

Definition init : World :=
  {| now := 0; selectedPersona := None; messages := [];
     processingTrace := None; isProcessing := false;
     inputValue := []; suggestedQueries := [];
     heap := []; timers := []; calls := [] |}.

(** State setters, one per [useState] setter or runtime service. *)
Definition setNow (t : Z) (w : World) : World :=
  {| now := t; selectedPersona := selectedPersona w; messages := messages w;
     processingTrace := processingTrace w; isProcessing := isProcessing w;
     inputValue := inputValue w; suggestedQueries := suggestedQueries w;
     heap := heap w; timers := timers w; calls := calls w |}.

Definition setSelectedPersona (p : option Persona) (w : World) : World :=
  {| now := now w; selectedPersona := p; messages := messages w;
     processingTrace := processingTrace w; isProcessing := isProcessing w;
     inputValue := inputValue w; suggestedQueries := suggestedQueries w;
     heap := heap w; timers := timers w; calls := calls w |}.

Definition onMessagesChange (f : list ChatMessage → list ChatMessage)
    (w : World) : World :=
  {| now := now w; selectedPersona := selectedPersona w;
     messages := f (messages w);
     processingTrace := processingTrace w; isProcessing := isProcessing w;
     inputValue := inputValue w; suggestedQueries := suggestedQueries w;
     heap := heap w; timers := timers w; calls := calls w |}.

Definition onProcessingTrace (p : option Published) (w : World) : World :=
  {| now := now w; selectedPersona := selectedPersona w; messages := messages w;
     processingTrace := p; isProcessing := isProcessing w;
     inputValue := inputValue w; suggestedQueries := suggestedQueries w;
     heap := heap w; timers := timers w; calls := calls w |}.

Definition setIsProcessing (b : bool) (w : World) : World :=
  {| now := now w; selectedPersona := selectedPersona w; messages := messages w;
     processingTrace := processingTrace w; isProcessing := b;
     inputValue := inputValue w; suggestedQueries := suggestedQueries w;
     heap := heap w; timers := timers w; calls := calls w |}.

Definition setInputValue (s : jsstring) (w : World) : World :=
  {| now := now w; selectedPersona := selectedPersona w; messages := messages w;
     processingTrace := processingTrace w; isProcessing := isProcessing w;
     inputValue := s; suggestedQueries := suggestedQueries w;
     heap := heap w; timers := timers w; calls := calls w |}.

Definition setSuggestedQueries (l : list jsstring) (w : World) : World :=
  {| now := now w; selectedPersona := selectedPersona w; messages := messages w;
     processingTrace := processingTrace w; isProcessing := isProcessing w;
     inputValue := inputValue w; suggestedQueries := l;
     heap := heap w; timers := timers w; calls := calls w |}.

Definition setHeap (h : list ProcessingTrace) (w : World) : World :=
  {| now := now w; selectedPersona := selectedPersona w; messages := messages w;
     processingTrace := processingTrace w; isProcessing := isProcessing w;
     inputValue := inputValue w; suggestedQueries := suggestedQueries w;
     heap := h; timers := timers w; calls := calls w |}.

Definition setTimers (l : list Timer) (w : World) : World :=
  {| now := now w; selectedPersona := selectedPersona w; messages := messages w;
     processingTrace := processingTrace w; isProcessing := isProcessing w;
     inputValue := inputValue w; suggestedQueries := suggestedQueries w;
     heap := heap w; timers := l; calls := calls w |}.

Definition setCalls (l : list PendingCall) (w : World) : World :=
  {| now := now w; selectedPersona := selectedPersona w; messages := messages w;
     processingTrace := processingTrace w; isProcessing := isProcessing w;
     inputValue := inputValue w; suggestedQueries := suggestedQueries w;
     heap := heap w; timers := timers w; calls := l |}.

(** [setTimeout(cb, delay)]: registered after the timers already pending. *)
Definition setTimeout (cb : Callback) (delay : Z) (w : World) : World :=
  setTimers (timers w ++ [{| due := now w + delay; callback := cb |}]) w.

(** *** Mutation of a trace object *)
Definition setStatus (s : StepStatus) (st : ProcessingStep) : ProcessingStep :=
  {| step_id := step_id st; step_name := step_name st; status := s;
     duration := duration st |}.

Definition setDuration (d : Z) (st : ProcessingStep) : ProcessingStep :=
  {| step_id := step_id st; step_name := step_name st; status := status st;
     duration := Some d |}.

Definition setSteps (f : list ProcessingStep → list ProcessingStep)
    (tr : ProcessingTrace) : ProcessingTrace :=
  {| query := query tr; steps := f (steps tr);
     totalDuration := totalDuration tr; finalResult := finalResult tr |}.

Definition setTotalDuration (d : Z) (tr : ProcessingTrace) : ProcessingTrace :=
  {| query := query tr; steps := steps tr;
     totalDuration := d; finalResult := finalResult tr |}.

Definition setFinalResult (r : QueryResponse) (tr : ProcessingTrace)
    : ProcessingTrace :=
  {| query := query tr; steps := steps tr;
     totalDuration := totalDuration tr; finalResult := Some r |}.

(** [trace.steps[i].status = 'completed'; trace.steps[i].duration = d;
    trace.steps[i+1].status = 'processing'] *)
Definition advance (i : nat) (d : Z) (tr : ProcessingTrace) : ProcessingTrace :=
  setSteps (λ l, alter (setStatus processing) (S i)
                   (alter (setDuration d) i
                      (alter (setStatus completed) i l))) tr.

(** [trace.steps[3].status = 'completed'; trace.steps[3].duration = 1000;
    trace.totalDuration = 3500; trace.finalResult = response] *)
Definition finish (r : QueryResponse) (tr : ProcessingTrace) : ProcessingTrace :=
  setFinalResult r
    (setTotalDuration 3500
       (setSteps (λ l, alter (setDuration 1000) 3
                         (alter (setStatus completed) 3 l)) tr)).

(** [onProcessingTrace({ ...trace })] *)
Definition publishCopy (r : nat) (w : World) : option World :=
  tr ← heap w !! r;
  Some (onProcessingTrace
          (Some (Spread (query tr) r (totalDuration tr) (finalResult tr))) w).

(** What the right panel renders for a published value. *)
Definition view (w : World) : option ProcessingTrace :=
  match processingTrace w with
  | None => None
  | Some (Obj r) => heap w !! r
  | Some (Spread q r total res) =>
      tr ← heap w !! r;
      Some {| query := q; steps := steps tr; totalDuration := total;
              finalResult := res |}
  end.

(** *** The handler *)
Definition initialSteps : list ProcessingStep :=
  [ {| step_id := lit "1"; step_name := lit "Query Analysis";
       status := processing; duration := None |};
    {| step_id := lit "2"; step_name := lit "Document Retrieval";
       status := pending; duration := None |};
    {| step_id := lit "3"; step_name := lit "Agent Processing";
       status := pending; duration := None |};
    {| step_id := lit "4"; step_name := lit "Response Generation";
       status := pending; duration := None |} ].

Definition fallbackText : jsstring :=
  lit "Sorry, I encountered an error processing your query. Please try again.".

(** [!inputValue.trim() || !selectedPersona || isProcessing] *)
Definition blocked (w : World) : bool :=
  negb (truthy (trim (inputValue w)))
  || match selectedPersona w with None => true | Some _ => false end
  || isProcessing w.

(** The synchronous part of [handleSendMessage], up to the [await]. *)
Definition handleSendMessage (w : World) : World :=
  if negb (truthy (trim (inputValue w))) then w else
  match selectedPersona w with
  | None => w
  | Some persona =>
    if isProcessing w then w else
    let userMessage :=
      {| msg_id := now w; msg_type := user; content := inputValue w;
         timestamp := now w; metadata := None |} in
    let w1 := onMessagesChange (λ prev, prev ++ [userMessage]) w in
    let w2 := setInputValue [] w1 in
    let w3 := setIsProcessing true w2 in
    let r := length (heap w3) in
    let trace :=
      {| query := inputValue w; steps := initialSteps;
         totalDuration := 0; finalResult := None |} in
    let w4 := setHeap (heap w3 ++ [trace]) w3 in
    let w5 := onProcessingTrace (Some (Obj r)) w4 in
    let w6 := setTimeout (Tick500 r) 500 w5 in
    let w7 := setTimeout (Tick1300 r) 1300 w6 in
    let w8 := setTimeout (Tick2500 r) 2500 w7 in
    setCalls (calls w8 ++
      [{| call_trace := r;
          call_request := {| req_query := inputValue w;
                             req_persona_type := persona_type persona |};
          call_persona := persona |}]) w8
  end.

(** The continuation of the [await] when the promise resolves: the final
    tick is scheduled from there. *)
Definition resolved (c : PendingCall) (resp : QueryResponse) (w : World)
    : World :=
  setTimeout (Finish (call_trace c) resp (call_persona c)) 3500 w.

(** The [catch] block. *)
Definition rejected (w : World) : World :=
  let errorMessage :=
    {| msg_id := now w + 1; msg_type := assistant; content := fallbackText;
       timestamp := now w; metadata := None |} in
  let w1 := onMessagesChange (λ prev, prev ++ [errorMessage]) w in
  let w2 := setIsProcessing false w1 in
  onProcessingTrace None w2.

(** The timer callbacks. *)
Definition runCallback (cb : Callback) (w : World) : option World :=
  match cb with
  | Tick500 r => publishCopy r (setHeap (alter (advance 0 500) r (heap w)) w)
  | Tick1300 r => publishCopy r (setHeap (alter (advance 1 800) r (heap w)) w)
  | Tick2500 r => publishCopy r (setHeap (alter (advance 2 1200) r (heap w)) w)
  | Finish r resp persona =>
      w1 ← publishCopy r (setHeap (alter (finish resp) r (heap w)) w);
      let assistantMessage :=
        {| msg_id := now w + 1; msg_type := assistant;
           content := response resp; timestamp := now w;
           metadata := Some {| meta_persona := persona_name persona;
                               meta_suggestedQueries := suggested_queries resp;
                               meta_processingTime := processing_time resp |} |} in
      let w2 := onMessagesChange (λ prev, prev ++ [assistantMessage]) w1 in
      let w3 := setSuggestedQueries (default [] (suggested_queries resp)) w2 in
      Some (setIsProcessing false w3)
  end.

(** *** The event loop *)

(** The timer that fires next: the earliest due, the first registered
    among equals. *)
Fixpoint nextTimer (l : list Timer) : option (Timer * list Timer) :=
  match l with
  | [] => None
  | x :: l' =>
      match nextTimer l' with
      | None => Some (x, [])
      | Some (m, rest) =>
          if (due x <=? due m)%Z then Some (x, l') else Some (m, x :: rest)
      end
  end.

Fixpoint takeCall (r : nat) (l : list PendingCall)
    : option (PendingCall * list PendingCall) :=
  match l with
  | [] => None
  | c :: l' =>
      if Nat.eqb (call_trace c) r then Some (c, l')
      else '(c', rest) ← takeCall r l'; Some (c', c :: rest)
  end.

Inductive Action :=
| Typing (s : jsstring)
| Select (p : Persona)
| Send
| Resolve (r : nat) (resp : QueryResponse)
| Reject (r : nat).

Inductive Event :=
| At (t : Z) (a : Action)
| Fire.

Definition act (a : Action) (w : World) : option World :=
  match a with
  | Typing s => Some (setInputValue s w)
  | Select p => Some (setSelectedPersona (Some p) w)
  | Send => Some (handleSendMessage w)
  | Resolve r resp =>
      '(c, rest) ← takeCall r (calls w);
      Some (resolved c resp (setCalls rest w))
  | Reject r =>
      '(c, rest) ← takeCall r (calls w);
      Some (rejected (setCalls rest w))
  end.

(** An outside event happens at a time [t] the clock has not passed and
    before which no pending timer is due; a timer fires at its due time. *)
Definition step (w : World) (e : Event) : option World :=
  match e with
  | At t a =>
      if (now w <=? t)%Z && forallb (λ x, (t <=? due x)%Z) (timers w)
      then act a (setNow t w) else None
  | Fire =>
      '(x, rest) ← nextTimer (timers w);
      runCallback (callback x) (setTimers rest (setNow (Z.max (now w) (due x)) w))
  end.

Fixpoint run (w : World) (evs : list Event) : option World :=
  match evs with
  | [] => Some w
  | e :: evs' => w' ← step w e; run w' evs'
  end.

(** *** Observations on a run *)

(** How the real call of a task settled. *)
Inductive Outcome :=
| Resolved (resp : QueryResponse)
| Rejected.

Definition owner (cb : Callback) : nat :=
  match cb with
  | Tick500 r | Tick1300 r | Tick2500 r | Finish r _ _ => r
  end.

Definition finishOf (x : Timer) : option (nat * Outcome) :=
  match callback x with
  | Finish r resp _ => Some (r, Resolved resp)
  | _ => None
  end.

(** The tasks whose call has resolved and whose final tick is pending. *)
Definition awaiting (w : World) : list (nat * Outcome) :=
  omap finishOf (timers w).

(** A task is in flight from its creation until one of its two completion
    paths has run. *)
Definition inFlight (w : World) : nat :=
  length (calls w) + length (awaiting w).

(** The settlement of a real call an event stands for, if any. *)
Definition settleOf (w : World) (e : Event) : list (nat * Outcome) :=
  match e with
  | At _ (Resolve r resp) =>
      match takeCall r (calls w) with
      | Some _ => [(r, Resolved resp)]
      | None => []
      end
  | At _ (Reject r) =>
      match takeCall r (calls w) with
      | Some _ => [(r, Rejected)]
      | None => []
      end
  | _ => []
  end.

(** The terminal transition an event performs, if any: the [catch] block
    runs in the step that rejects the call, the success path in the step
    that fires the final tick. *)
Definition terminalOf (w : World) (e : Event) : list (nat * Outcome) :=
  match e with
  | At _ (Reject r) =>
      match takeCall r (calls w) with
      | Some _ => [(r, Rejected)]
      | None => []
      end
  | Fire =>
      match nextTimer (timers w) with
      | Some (x, _) =>
          match finishOf x with Some o => [o] | None => [] end
      | None => []
      end
  | _ => []
  end.

Fixpoint settles (w : World) (evs : list Event) : list (nat * Outcome) :=
  match evs with
  | [] => []
  | e :: evs' =>
      settleOf w e ++
      match step w e with Some w' => settles w' evs' | None => [] end
  end.

Fixpoint terminals (w : World) (evs : list Event) : list (nat * Outcome) :=
  match evs with
  | [] => []
  | e :: evs' =>
      terminalOf w e ++
      match step w e with Some w' => terminals w' evs' | None => [] end
  end.

(** The worlds a run goes through, the first one included. *)
Fixpoint history (w : World) (evs : list Event) : list World :=
  w :: match evs with
       | [] => []
       | e :: evs' =>
           match step w e with Some w' => history w' evs' | None => [] end
       end.

(** A step has started when it is processing or completed. *)
Definition started (s : StepStatus) : bool :=
  match s with processing | completed => true | _ => false end.

(** *** The invariant of the event loop *)

(** Where a task stands: [n] ticks of its timeline have fired and its call
    is outstanding or has rejected; or its call has resolved and its final
    tick is due at [d]; or the final tick has fired. *)
Inductive TaskState :=
| Running (n : nat)
| Awaiting (n : nat) (d : Z) (resp : QueryResponse) (persona : Persona)
| Completed (resp : QueryResponse).

Definition freshTrace (q : jsstring) : ProcessingTrace :=
  {| query := q; steps := initialSteps; totalDuration := 0;
     finalResult := None |}.

Definition ticked (n : nat) (tr : ProcessingTrace) : ProcessingTrace :=
  match n with
  | 0 => tr
  | 1 => advance 0 500 tr
  | 2 => advance 1 800 (advance 0 500 tr)
  | _ => advance 2 1200 (advance 1 800 (advance 0 500 tr))
  end.

Definition traceOf (q : jsstring) (st : TaskState) : ProcessingTrace :=
  match st with
  | Running n | Awaiting n _ _ _ => ticked n (freshTrace q)
  | Completed resp => finish resp (ticked 3 (freshTrace q))
  end.

Definition timeline (s : Z) (r : nat) : list Timer :=
  [ {| due := s + 500; callback := Tick500 r |};
    {| due := s + 1300; callback := Tick1300 r |};
    {| due := s + 2500; callback := Tick2500 r |} ].

(** The timers of task [r], started at [s], that are still pending. *)
Definition expected (s : Z) (r : nat) (st : TaskState) : list Timer :=
  match st with
  | Running n => drop n (timeline s r)
  | Awaiting n d resp persona =>
      drop n (timeline s r) ++ [{| due := d; callback := Finish r resp persona |}]
  | Completed _ => []
  end.

Definition wfState (s : Z) (st : TaskState) : Prop :=
  match st with
  | Running n => n ≤ 3
  | Awaiting n d _ _ => n ≤ 3 ∧ (s + 3500 ≤ d)%Z
  | Completed _ => True
  end.

Definition isRunning (st : TaskState) : Prop :=
  match st with Running _ => True | _ => False end.

(** What a callback does to the trace object it captured. *)
Definition mutation (cb : Callback) : ProcessingTrace → ProcessingTrace :=
  match cb with
  | Tick500 _ => advance 0 500
  | Tick1300 _ => advance 1 800
  | Tick2500 _ => advance 2 1200
  | Finish _ resp _ => finish resp
  end.

(** The state of a task once a callback of its own has run. *)
Definition afterCallback (cb : Callback) (st : TaskState) : TaskState :=
  match cb, st with
  | Finish _ resp _, _ => Completed resp
  | _, Running n => Running (S n)
  | _, Awaiting n d resp persona => Awaiting (S n) d resp persona
  | _, Completed resp => Completed resp
  end.

Definition owns (r : nat) (x : Timer) : Prop := owner (callback x) = r.

Definition owns_dec (r : nat) (x : Timer) : Decision (owns r x) :=
  decide (owner (callback x) = r).
#[export] Existing Instance owns_dec.

Record TaskInv (w : World) (r : nat) (tr : ProcessingTrace)
    (s : Z) (st : TaskState) : Prop := {
  ti_trace : tr = traceOf (query tr) st;
  ti_start : (s ≤ now w)%Z;
  ti_state : wfState s st;
  ti_timers : filter (owns r) (timers w) = expected s r st;
  ti_call : ∀ c, c ∈ calls w → call_trace c = r → isRunning st
}.

Definition publishedOk (w : World) : Prop :=
  match processingTrace w with
  | None => True
  | Some (Obj r) => r < length (heap w)
  | Some (Spread q r total res) =>
      ∃ tr, heap w !! r = Some tr ∧ q = query tr
            ∧ total = totalDuration tr ∧ res = finalResult tr
  end.

Record Inv (w : World) : Prop := {
  inv_timers : ∀ x, x ∈ timers w → owner (callback x) < length (heap w);
  inv_calls : ∀ c, c ∈ calls w → call_trace c < length (heap w);
  inv_clock : ∀ x, x ∈ timers w → (now w ≤ due x)%Z;
  inv_flight : inFlight w = Nat.b2n (isProcessing w);
  inv_tasks : ∀ r tr, heap w !! r = Some tr → ∃ s st, TaskInv w r tr s st;
  inv_published : publishedOk w
}.

(** What a terminal transition from [w] to [w'] reports to the user for
    an outcome of the real call: the success path appends the assistant
    message built from the response and shows the trace with the result
    attached; the error path appends the fallback message. *)
Definition reported (w w' : World) (o : Outcome) : Prop :=
  match o with
  | Resolved resp =>
      (∃ m, messages w' = messages w ++ [m] ∧ msg_type m = assistant
            ∧ content m = response resp
            ∧ (meta_suggestedQueries <$> metadata m)
              = Some (suggested_queries resp))
      ∧ (∃ tr, view w' = Some tr ∧ finalResult tr = Some resp)
  | Rejected =>
      (∃ m, messages w' = messages w ++ [m] ∧ msg_type m = assistant
            ∧ content m = fallbackText ∧ metadata m = None)
      ∧ processingTrace w' = None
  end.

(** What a run shows at each of its worlds: the clock, the processing flag
    and the statuses of the steps on display. *)
Definition shown (w : World) : Z * bool * option (list StepStatus) :=
  (now w, isProcessing w, (λ tr, map status (steps tr)) <$> view w).

(** *** Two runs

    The financial persona asks for the revenue trend at time 0.  In the
    first run the call resolves after 3000 ms, in the second it rejects
    after 1000 ms; every timer fires when due. *)
Definition analyst : Persona :=
  {| persona_id := lit "financial"; persona_name := lit "Financial Analyst";
     persona_description :=
       lit "Specialized in stock analysis, market trends, and financial calculations";
     persona_type := financial; persona_icon := [55357%N; 56496%N];
     persona_color := lit "from-green-500 to-emerald-600" |}.

Definition revenue : QueryResponse :=
  {| success := true; response := lit "Revenue grew 12%.";
     suggested_queries := Some [lit "Why did it grow?"];
     error := None; processing_time := None |}.

Definition submit : list Event :=
  [ At 0 (Select analyst);
    At 0 (Typing (lit "What is the revenue trend?"));
    At 0 Send ].

Definition resolvesAt3000 : list Event :=
  submit ++ [Fire; Fire; Fire; At 3000 (Resolve 0 revenue); Fire].

Definition rejectsAt1000 : list Event :=
  submit ++ [Fire; At 1000 (Reject 0)].

End Chat.

(** ** The upload panel *)
Module Upload.

Record File := {
  file_name : string;
  file_size : Z;
  file_type : string
}.

(** [status] of a [FileUpload]: 'uploading' | 'processing' | 'completed' |
    'error' ([failed] here, [error] being the name of the message field). *)
Inductive UploadStatus := uploading | processing | completed | failed.

Record FileUpload := {
  id : string;
  name : string;
  size : Z;
  type : string;
  status : UploadStatus;
  progress : Z;
  error : option string
}.

Record Props := {
  acceptedTypes : list string;
  maxSize : Z
}.

Definition defaultProps : Props :=
  {| acceptedTypes := ["application/pdf"; "text/csv"]%string;
     maxSize := 10 * 1024 * 1024 |}.

(** Modelled from the spec: the filter of the dropzone library, which is
    configured by the component ([accept], [maxSize]) and whose code is not
    part of the sources.  A file reaches [onDrop] when its media type is in
    the accepted set and its size does not exceed the maximum. *)
Definition accepts (p : Props) (f : File) : bool :=
  existsb (String.eqb (file_type f)) (acceptedTypes p)
  && (file_size f <=? maxSize p)%Z.

(** A running [setInterval]: its handle, the [upload.id] its closure
    captured and the time of its next tick. *)
Record Interval := {
  handle : nat;
  target : string;
  next_due : Z
}.

(** An outstanding [onFileUpload] promise with what its continuation
    captured: [upload.id], [interval] and the files the loop has not
    reached yet.  Each file comes with the value [Math.random] yields for
    its task. *)
Record PendingCall := {
  call_id : nat;
  call_upload : string;
  call_interval : nat;
  call_rest : list (string * File)
}.

Record World := {
  now : Z;
  uploads : list FileUpload;
  intervals : list Interval;
  calls : list PendingCall;
  nextHandle : nat;
  nextCall : nat
}.

Definition init : World :=
  {| now := 0; uploads := []; intervals := []; calls := [];
     nextHandle := 0; nextCall := 0 |}.

Definition setNow (t : Z) (w : World) : World :=
  {| now := t; uploads := uploads w; intervals := intervals w;
     calls := calls w; nextHandle := nextHandle w; nextCall := nextCall w |}.

Definition setUploads (f : list FileUpload → list FileUpload) (w : World)
    : World :=
  {| now := now w; uploads := f (uploads w); intervals := intervals w;
     calls := calls w; nextHandle := nextHandle w; nextCall := nextCall w |}.

Definition setIntervals (l : list Interval) (w : World) : World :=
  {| now := now w; uploads := uploads w; intervals := l;
     calls := calls w; nextHandle := nextHandle w; nextCall := nextCall w |}.

Definition setCalls (l : list PendingCall) (w : World) : World :=
  {| now := now w; uploads := uploads w; intervals := intervals w;
     calls := l; nextHandle := nextHandle w; nextCall := nextCall w |}.

(** [setInterval(cb, 100)] for the task [i]; the handle is returned in
    [nextHandle] of the argument. *)
Definition setInterval (i : string) (w : World) : World :=
  {| now := now w; uploads := uploads w;
     intervals := intervals w ++
       [{| handle := nextHandle w; target := i; next_due := now w + 100 |}];
     calls := calls w; nextHandle := S (nextHandle w);
     nextCall := nextCall w |}.

Definition clearInterval (h : nat) (w : World) : World :=
  setIntervals (filter (λ iv, handle iv ≠ h) (intervals w)) w.

(** [onFileUpload(file)] is called and awaited. *)
Definition await (i : string) (h : nat) (rest : list (string * File))
    (w : World) : World :=
  {| now := now w; uploads := uploads w; intervals := intervals w;
     calls := calls w ++
       [{| call_id := nextCall w; call_upload := i; call_interval := h;
           call_rest := rest |}];
     nextHandle := nextHandle w; nextCall := S (nextCall w) |}.

(** The three updaters passed to [setUploads]. *)
Definition tick (i : string) (u : FileUpload) : FileUpload :=
  if String.eqb (id u) i then
    {| id := id u; name := name u; size := size u; type := type u;
       status := status u; progress := Z.min (progress u + 10) 90;
       error := error u |}
  else u.

Definition complete (i : string) (u : FileUpload) : FileUpload :=
  if String.eqb (id u) i then
    {| id := id u; name := name u; size := size u; type := type u;
       status := completed; progress := 100; error := error u |}
  else u.

Definition fail (i : string) (msg : string) (u : FileUpload) : FileUpload :=
  if String.eqb (id u) i then
    {| id := id u; name := name u; size := size u; type := type u;
       status := failed; progress := progress u; error := Some msg |}
  else u.

Definition newUpload (i : string) (file : File) : FileUpload :=
  {| id := i; name := file_name file; size := file_size file;
     type := file_type file; status := uploading; progress := 0;
     error := None |}.

(** The body of the [for] loop of [onDrop] from the top of an iteration to
    its [await]; an empty list ends the loop. *)
Definition onDrop (acceptedFiles : list (string * File)) (w : World) : World :=
  match acceptedFiles with
  | [] => w
  | (i, file) :: rest =>
      let w1 := setUploads (λ prev, prev ++ [newUpload i file]) w in
      let h := nextHandle w1 in
      let w2 := setInterval i w1 in
      await i h rest w2
  end.

(** The iteration after its [await], when the promise resolves; the loop
    then goes on with the next file. *)
Definition resolved (c : PendingCall) (w : World) : World :=
  let w1 := clearInterval (call_interval c) w in
  let w2 := setUploads (map (complete (call_upload c))) w1 in
  onDrop (call_rest c) w2.

(** The [catch] block: [err] is the message of a thrown [Error], or [None]
    for any other thrown value. *)
Definition rejected (c : PendingCall) (err : option string) (w : World)
    : World :=
  let msg := match err with Some m => m | None => "Upload failed"%string end in
  let w1 := setUploads (map (fail (call_upload c) msg)) w in
  onDrop (call_rest c) w1.

Definition removeUpload (i : string) (w : World) : World :=
  setUploads (filter (λ u, id u ≠ i)) w.

Fixpoint nextInterval (l : list Interval) : option Interval :=
  match l with
  | [] => None
  | x :: l' =>
      match nextInterval l' with
      | None => Some x
      | Some m => if (next_due x <=? next_due m)%Z then Some x else Some m
      end
  end.

Definition reschedule (h : nat) (iv : Interval) : Interval :=
  if Nat.eqb (handle iv) h then
    {| handle := handle iv; target := target iv;
       next_due := next_due iv + 100 |}
  else iv.

Fixpoint takeCall (k : nat) (l : list PendingCall)
    : option (PendingCall * list PendingCall) :=
  match l with
  | [] => None
  | c :: l' =>
      if Nat.eqb (call_id c) k then Some (c, l')
      else '(c', rest) ← takeCall k l'; Some (c', c :: rest)
  end.

Inductive Action :=
| DropFiles (files : list (string * File))
| Uploaded (k : nat)
| UploadFailed (k : nat) (err : option string)
| Dismiss (i : string).

Inductive Event :=
| At (t : Z) (a : Action)
| Tick.

Section WithProps.
Variable props : Props.

Definition act (a : Action) (w : World) : option World :=
  match a with
  | DropFiles files => Some (onDrop (filter (λ f, accepts props f.2) files) w)
  | Uploaded k =>
      '(c, rest) ← takeCall k (calls w);
      Some (resolved c (setCalls rest w))
  | UploadFailed k err =>
      '(c, rest) ← takeCall k (calls w);
      Some (rejected c err (setCalls rest w))
  | Dismiss i => Some (removeUpload i w)
  end.

Definition step (w : World) (e : Event) : option World :=
  match e with
  | At t a =>
      if (now w <=? t)%Z && forallb (λ iv, (t <=? next_due iv)%Z) (intervals w)
      then act a (setNow t w) else None
  | Tick =>
      iv ← nextInterval (intervals w);
      let w1 := setNow (Z.max (now w) (next_due iv)) w in
      let w2 := setUploads (map (tick (target iv))) w1 in
      Some (setIntervals (map (reschedule (handle iv)) (intervals w2)) w2)
  end.

Fixpoint run (w : World) (evs : list Event) : option World :=
  match evs with
  | [] => Some w
  | e :: evs' => w' ← step w e; run w' evs'
  end.

End WithProps.

(** *** Observations on a run *)
Fixpoint history (props : Props) (w : World) (evs : list Event) : list World :=
  w :: match evs with
       | [] => []
       | e :: evs' =>
           match step props w e with
           | Some w' => history props w' evs'
           | None => []
           end
       end.

(** What a run shows of a world: the clock, status and progress of every
    upload row, and the number of running tickers. *)
Definition shown (w : World) : Z * list (UploadStatus * Z) * nat :=
  (now w, map (λ u, (status u, progress u)) (uploads w), length (intervals w)).



(** The files of earlier drops the loops have not reached yet. *)
Definition queued (w : World) : list (string * File) :=
  concat (map call_rest (calls w)).


Definition droppedBy (props : Props) (e : Event) : list (string * File) :=
  match e with
  | At _ (DropFiles files) => filter (λ f, accepts props f.2) files
  | _ => []
  end.

(** The accepted files of all the drops of a run. *)
Definition dropped (props : Props) (evs : list Event) : list (string * File) :=
  concat (map (droppedBy props) evs).

Definition isDismissal (e : Event) : bool :=
  match e with At _ (Dismiss _) => true | _ => false end.

(** What one iteration of the loop adds to the rows and to the calls. *)
Definition newRows (fs : list (string * File)) : list FileUpload :=
  match fs with [] => [] | (i, file) :: _ => [newUpload i file] end.

Definition newCalls (fs : list (string * File)) (w : World)
    : list PendingCall :=
  match fs with
  | [] => []
  | (i, _) :: rest =>
      [{| call_id := nextCall w; call_upload := i;
          call_interval := nextHandle w; call_rest := rest |}]
  end.

(** The updaters a step maps over the rows. *)
Inductive Updater :=
| Keep
| Ticked (i : string)
| Done (i : string)
| Failed (i : string) (msg : string).

Definition update (f : Updater) (u : FileUpload) : FileUpload :=
  match f with
  | Keep => u
  | Ticked i => tick i u
  | Done i => complete i u
  | Failed i msg => fail i msg u
  end.

Definition progressOk (u : FileUpload) : Prop :=
  (0 ≤ progress u ≤ 100)%Z ∧ (status u = uploading → (progress u ≤ 90)%Z).

(** The claim that a drop starts the call of every accepted file at once. *)
Definition startsEveryFile (props : Props) (w : World)
    (files : list (string * File)) : Prop :=
  ∀ t w', step props w (At t (DropFiles files)) = Some w' →
  ∀ f, f ∈ filter (λ f, accepts props f.2) files →
  ∃ c, c ∈ calls w' ∧ call_upload c = f.1.

(** *** Files and runs *)
Definition csv2MB : File :=
  {| file_name := "a.csv"; file_size := 2 * 1024 * 1024;
     file_type := "text/csv" |}.

Definition csv3MB : File :=
  {| file_name := "b.csv"; file_size := 3 * 1024 * 1024;
     file_type := "text/csv" |}.

Definition pdf15MB : File :=
  {| file_name := "big.pdf"; file_size := 15 * 1024 * 1024;
     file_type := "application/pdf" |}.

Definition twoCsv : list (string * File) :=
  [("k3x9q0a1z"%string, csv2MB); ("p07c2m5dd"%string, csv3MB)].

(** One file is dropped and its upload fails after 50 ms, before the first
    tick of its progress bar. *)
Definition failsAt50 : list Event :=
  [ At 0 (DropFiles [("k3x9q0a1z"%string, csv2MB)]);
    At 50 (UploadFailed 0 (Some "Network Error"%string)) ].

(** Two files are dropped together with one that is too large; the first
    upload succeeds after 250 ms, the second after 520 ms. *)
Definition bothSucceed : list Event :=
  [ At 0 (DropFiles (("zz0000000"%string, pdf15MB) :: twoCsv));
    Tick; Tick; At 250 (Uploaded 0);
    Tick; Tick; At 520 (Uploaded 1) ].

End Upload.

(** ** The page around the chat panel

    The mount effect of the page, the other handlers of the chat panel, and
    what the chat panel and the right panel render from the state. *)
Module ChatView.
Import Chat.

(** The mount effect of [Home]: [setMessages([welcome])]. *)
Definition welcomeText : jsstring :=
  lit "Welcome to the Dynamic Agentic System! I can help you with financial analysis, legal documents, general queries, and more. What would you like to explore today?".

Definition mount (w : World) : World :=
  onMessagesChange
    (λ _, [{| msg_id := 1; msg_type := assistant; content := welcomeText;
              timestamp := now w; metadata := None |}]) w.

Definition mounted : World := mount init.

(** [handleKeyPress]: Enter without Shift submits. *)
Record KeyboardEvent := { key : jsstring; shiftKey : bool }.

Definition handleKeyPress (e : KeyboardEvent) (w : World) : World :=
  if bool_decide (key e = lit "Enter") && negb (shiftKey e)
  then handleSendMessage w else w.

(** [handleSuggestedQuery] *)
Definition handleSuggestedQuery (q : jsstring) (w : World) : World :=
  setInputValue q w.

(** The [disabled] attributes of the input and of the send button. *)
Definition inputDisabled (w : World) : bool :=
  match selectedPersona w with None => true | Some _ => false end
  || isProcessing w.

Definition sendDisabled (w : World) : bool :=
  negb (truthy (trim (inputValue w)))
  || match selectedPersona w with None => true | Some _ => false end
  || isProcessing w.

(** The chips under the input:
    [suggestedQueries.length > 0 && !isProcessing], then [slice(0, 3)]. *)
Definition suggestionChips (w : World) : list jsstring :=
  if (0 <? length (suggestedQueries w)) && negb (isProcessing w)
  then take 3 (suggestedQueries w) else [].

(** The follow-ups under a message: present when
    [message.metadata?.suggestedQueries] is an array, then [slice(0, 3)]. *)
Definition followUps (m : ChatMessage) : option (list jsstring) :=
  md ← metadata m; l ← meta_suggestedQueries md; Some (take 3 l).

(** The suggestions the panel holds after a sequence of terminal
    transitions: those of the last response, none if it carried none. *)
Definition lastSuggestions (start : list jsstring)
    (ts : list (nat * Outcome)) : list jsstring :=
  foldl (λ acc t, match t.2 with
                  | Resolved resp => default [] (suggested_queries resp)
                  | Rejected => acc
                  end) start ts.

(** *** The right panel *)
Inductive Icon := CheckCircle | Loader2 | AlertCircle | EmptyCircle.

#[export] Instance StepStatus_eq_dec : EqDecision StepStatus.
Proof. solve_decision. Defined.

#[export] Instance Icon_eq_dec : EqDecision Icon.
Proof. solve_decision. Defined.

Definition getStepIcon (s : StepStatus) : Icon :=
  match s with
  | completed => CheckCircle
  | processing => Loader2
  | failed => AlertCircle
  | pending => EmptyCircle
  end.

Definition getStepColor (s : StepStatus) : string :=
  match s with
  | completed => "border-green-400 bg-green-400/10"
  | processing => "border-blue-400 bg-blue-400/10"
  | failed => "border-red-400 bg-red-400/10"
  | pending => "border-gray-400 bg-gray-400/10"
  end.

(** [{step.duration && <p>{step.duration}ms</p>}]: nothing for a missing
    duration, the bare number for 0, the label otherwise. *)
Inductive DurationSlot := NoDuration | BareZero | Label (d : Z).

Definition durationSlot (d : option Z) : DurationSlot :=
  match d with
  | None => NoDuration
  | Some d => if (d =? 0)%Z then BareZero else Label d
  end.

Record StepRow := {
  row_name : jsstring;
  row_icon : Icon;
  row_color : string;
  row_duration : DurationSlot
}.

Record TraceCard := {
  card_query : jsstring;
  card_rows : list StepRow;
  card_total : option Z
}.

Definition renderStep (st : ProcessingStep) : StepRow :=
  {| row_name := step_name st; row_icon := getStepIcon (status st);
     row_color := getStepColor (status st);
     row_duration := durationSlot (duration st) |}.

(** [processingTrace.totalDuration > 0 && ...] *)
Definition renderTrace (tr : ProcessingTrace) : TraceCard :=
  {| card_query := query tr; card_rows := map renderStep (steps tr);
     card_total := if (0 <? totalDuration tr)%Z
                   then Some (totalDuration tr) else None |}.

(** [processingTrace && ...] *)
Definition rightPanel (w : World) : option TraceCard :=
  renderTrace <$> view w.

(** *** Two more invariants of the event loop *)

(** While a task is in flight, every pending tick is due at most 2500 ms
    after its start and its final tick at least 3500 ms after it. *)
Definition Paced (w : World) : Prop :=
  isProcessing w = true →
  ∃ s, (s ≤ now w)%Z ∧
    ∀ x, x ∈ timers w →
      match callback x with
      | Finish _ _ _ => (s + 3500 ≤ due x)%Z
      | _ => (due x ≤ s + 2500)%Z
      end.

(** An outstanding call carries the query of its trace, which is the text
    of the last message, and the type of the persona it captured. *)
Definition Faithful (w : World) : Prop :=
  ∀ c, c ∈ calls w →
  ∃ tr m, heap w !! call_trace c = Some tr
    ∧ query tr = req_query (call_request c)
    ∧ req_persona_type (call_request c) = persona_type (call_persona c)
    ∧ last (messages w) = Some m ∧ msg_type m = user
    ∧ content m = req_query (call_request c).

End ChatView.

(** ** More on the upload panel *)
Module UploadView.
Import Upload.

(** The id whose rows a step rewrites: the target of the ticker that
    fires, or the upload of the call that settles. *)
Definition touches (w : World) (e : Event) : option string :=
  match e with
  | Tick => target <$> nextInterval (intervals w)
  | At _ (Uploaded k) | At _ (UploadFailed k _) =>
      (λ cr, call_upload cr.1) <$> takeCall k (calls w)
  | At _ _ => None
  end.

(** The ticker one iteration of the loop starts. *)
Definition newTickers (fs : list (string * File)) (w : World) : list Interval :=
  match fs with
  | [] => []
  | (i, _) :: _ =>
      [{| handle := nextHandle w; target := i; next_due := now w + 100 |}]
  end.

(** The ids with a call outstanding or a file still queued. *)
Definition liveIds (w : World) : list string :=
  map call_upload (calls w) ++ map fst (queued w).

(** Every id the panel holds. *)
Definition idsOf (w : World) : list string :=
  map id (uploads w) ++ map target (intervals w) ++ liveIds w.

(** With distinct ids: a ticker belongs to an outstanding call or to a
    failed upload, and a completed row has neither ticker nor call. *)
Record Tidy (w : World) : Prop := {
  tidy_live : NoDup (liveIds w);
  tidy_ticker : ∀ iv, iv ∈ intervals w →
    (∃ c, c ∈ calls w ∧ call_interval c = handle iv
          ∧ call_upload c = target iv)
    ∨ ((target iv ∉ liveIds w)
       ∧ ∀ u, u ∈ uploads w → id u = target iv → status u = failed);
  tidy_done : ∀ u, u ∈ uploads w → status u = completed →
    progress u = 100%Z ∧ (id u ∉ liveIds w)
    ∧ (id u ∉ map target (intervals w))
}.

(** An uploading row has its call outstanding and its ticker running. *)
Record Driven (w : World) : Prop := {
  driven_handles : ∀ c, c ∈ calls w → call_interval c < nextHandle w;
  driven_tickers : ∀ iv, iv ∈ intervals w → handle iv < nextHandle w;
  driven_distinct : NoDup (map call_interval (calls w));
  driven_rows : ∀ u, u ∈ uploads w →
    status u ≠ processing
    ∧ (status u = uploading →
       ∃ c iv, c ∈ calls w ∧ call_upload c = id u ∧ iv ∈ intervals w
         ∧ handle iv = call_interval c ∧ target iv = id u)
}.

(** The panel with one file uploading, [n] ticks after the drop at 0. *)
Definition afterTicks (i : string) (file : File) (n : nat) : World :=
  {| now := 100 * Z.of_nat n;
     uploads :=
       [{| id := i; name := file_name file; size := file_size file;
           type := file_type file; status := uploading;
           progress := Z.min (10 * Z.of_nat n) 90; error := None |}];
     intervals :=
       [{| handle := 0; target := i; next_due := 100 * Z.of_nat n + 100 |}];
     calls :=
       [{| call_id := 0; call_upload := i; call_interval := 0;
           call_rest := [] |}];
     nextHandle := 1; nextCall := 1 |}.

End UploadView.

(** * The left panel

    [LeftPanel] (components/LeftPanel.tsx, the version that loads the
    datasets) owns the flag [isLoadingDatasets] and the dataset modal, and
    hands [handleFileUpload] to the upload panel as [onFileUpload].  The
    dataset list is state of the page, changed through [onDatasetsChange].
    [getDatasets] and [uploadFile] are calls to the backend: what they
    return or throw is given by the events.  A run is the life of one
    mounted panel. *)
Module LeftPanel.

Inductive Tab := Tab_personas | Tab_upload | Tab_datasets | Tab_settings.

Record Dataset := {
  name : string;
  file_path : string;
  rows : Z;
  columns : list string
}.

#[export] Instance Dataset_eq_dec : EqDecision Dataset.
Proof. solve_decision. Defined.

(** How an awaited call settles: with the value it returns, or with what it
    throws; [err] is the message of a thrown [Error], [None] for any other
    thrown value. *)
Inductive Settled (A : Type) :=
| Returned (a : A)
| Threw (err : option string).
Arguments Returned {A} a.
Arguments Threw {A} err.

(** [response.success] and [response.datasets] of [getDatasets()]. *)
Record DatasetsResponse := {
  dr_success : bool;
  dr_datasets : list Dataset
}.

(** [response.success] and [response.error] of [uploadFile(file)]. *)
Record UploadResponse := {
  ur_success : bool;
  ur_error : option string
}.

(** [s || d] for an optional string [s]: [undefined] and the empty string
    are falsy. *)
Definition orElse (s : option string) (d : string) : string :=
  match s with
  | Some m => if String.eqb m "" then d else m
  | None => d
  end.

(** An invocation of [handleFileUpload] is awaiting [uploadFile(file)] or
    [loadDatasets()]. *)
Inductive Phase := Sending | Refreshing.

#[export] Instance Phase_eq_dec : EqDecision Phase.
Proof. solve_decision. Defined.

Record Job := {
  job_id : nat;
  phase : Phase
}.

(** How the promise returned by [handleFileUpload] settles. *)
Inductive Outcome := Resolved | Rejected (err : option string).

(** [loads] counts the outstanding [getDatasets()] calls of the
    invocations of [loadDatasets] that no upload awaits (the mount effect,
    the refresh button). *)
Record World := {
  activeTab : Tab;
  isLoadingDatasets : bool;
  viewDataset : option Dataset;
  showModal : bool;
  datasets : list Dataset;
  loads : nat;
  jobs : list Job;
  nextJob : nat
}.

Definition initial : World :=
  {| activeTab := Tab_personas; isLoadingDatasets := false;
     viewDataset := None; showModal := false; datasets := [];
     loads := 0; jobs := []; nextJob := 0 |}.

Definition setActiveTab (t : Tab) (w : World) : World :=
  {| activeTab := t; isLoadingDatasets := isLoadingDatasets w;
     viewDataset := viewDataset w; showModal := showModal w;
     datasets := datasets w; loads := loads w; jobs := jobs w;
     nextJob := nextJob w |}.

Definition setIsLoadingDatasets (b : bool) (w : World) : World :=
  {| activeTab := activeTab w; isLoadingDatasets := b;
     viewDataset := viewDataset w; showModal := showModal w;
     datasets := datasets w; loads := loads w; jobs := jobs w;
     nextJob := nextJob w |}.

Definition setViewDataset (d : option Dataset) (w : World) : World :=
  {| activeTab := activeTab w; isLoadingDatasets := isLoadingDatasets w;
     viewDataset := d; showModal := showModal w;
     datasets := datasets w; loads := loads w; jobs := jobs w;
     nextJob := nextJob w |}.

Definition setShowModal (b : bool) (w : World) : World :=
  {| activeTab := activeTab w; isLoadingDatasets := isLoadingDatasets w;
     viewDataset := viewDataset w; showModal := b;
     datasets := datasets w; loads := loads w; jobs := jobs w;
     nextJob := nextJob w |}.

Definition onDatasetsChange (l : list Dataset) (w : World) : World :=
  {| activeTab := activeTab w; isLoadingDatasets := isLoadingDatasets w;
     viewDataset := viewDataset w; showModal := showModal w;
     datasets := l; loads := loads w; jobs := jobs w;
     nextJob := nextJob w |}.

Definition setLoads (n : nat) (w : World) : World :=
  {| activeTab := activeTab w; isLoadingDatasets := isLoadingDatasets w;
     viewDataset := viewDataset w; showModal := showModal w;
     datasets := datasets w; loads := n; jobs := jobs w;
     nextJob := nextJob w |}.

Definition setJobs (l : list Job) (w : World) : World :=
  {| activeTab := activeTab w; isLoadingDatasets := isLoadingDatasets w;
     viewDataset := viewDataset w; showModal := showModal w;
     datasets := datasets w; loads := loads w; jobs := l;
     nextJob := nextJob w |}.

(** [loadDatasets] up to its [await]: the flag is set and [getDatasets()]
    is called. *)
Definition loadDatasets (w : World) : World := setIsLoadingDatasets true w.

(** [loadDatasets] from its [await] on: the list is replaced when the
    response reports success, a thrown value is logged, and [finally]
    clears the flag.  The promise of [loadDatasets] always resolves. *)
Definition loaded (r : Settled DatasetsResponse) (w : World) : World :=
  let w1 := match r with
            | Returned response =>
                if dr_success response
                then onDatasetsChange (dr_datasets response) w
                else w
            | Threw _ => w
            end in
  setIsLoadingDatasets false w1.

(** The mount effect. *)
Definition init : World := setLoads 1 (loadDatasets initial).

(** [handleFileUpload(file)] up to its first [await]. *)
Definition handleFileUpload (w : World) : World :=
  {| activeTab := activeTab w; isLoadingDatasets := isLoadingDatasets w;
     viewDataset := viewDataset w; showModal := showModal w;
     datasets := datasets w; loads := loads w;
     jobs := jobs w ++ [{| job_id := nextJob w; phase := Sending |}];
     nextJob := S (nextJob w) |}.

(** [handleFileUpload] when [uploadFile] has settled: on success it goes on
    to await [loadDatasets()]; otherwise it throws, and what is thrown in
    the [try] block is thrown again by the [catch] block. *)
Definition uploaded (k : nat) (r : Settled UploadResponse) (w : World)
    : World * option (nat * Outcome) :=
  match r with
  | Returned response =>
      if ur_success response
      then (setJobs (jobs w ++ [{| job_id := k; phase := Refreshing |}])
              (loadDatasets w), None)
      else (w, Some (k, Rejected
                          (Some (orElse (ur_error response)
                                   "Upload failed"))))
  | Threw err => (w, Some (k, Rejected err))
  end.

Definition handleViewDataset (d : Dataset) (w : World) : World :=
  setShowModal true (setViewDataset (Some d) w).

Fixpoint takeJob (k : nat) (l : list Job) : option (Job * list Job) :=
  match l with
  | [] => None
  | j :: l' =>
      if Nat.eqb (job_id j) k then Some (j, l')
      else '(j', rest) ← takeJob k l'; Some (j', j :: rest)
  end.

Definition onDatasetsTab (w : World) : bool :=
  match activeTab w with Tab_datasets => true | _ => false end.

(** The events of the panel.  The refresh button, the dataset cards and the
    modal are rendered on the datasets tab; the button is disabled while
    [isLoadingDatasets], and the cards are hidden then.  [CallUpload] is the
    upload panel calling [onFileUpload(file)]. *)
Inductive Action :=
| SetTab (t : Tab)
| ClickRefresh
| View (d : Dataset)
| CloseModal
| CallUpload
| UploadSettles (k : nat) (r : Settled UploadResponse)
| DatasetsSettle (k : option nat) (r : Settled DatasetsResponse).

(** A step gives the next state and the promise of [handleFileUpload] it
    settles, if any. *)
Definition act (a : Action) (w : World)
    : option (World * option (nat * Outcome)) :=
  match a with
  | SetTab t => Some (setActiveTab t w, None)
  | ClickRefresh =>
      if onDatasetsTab w && negb (isLoadingDatasets w)
      then Some (setLoads (S (loads w)) (loadDatasets w), None)
      else None
  | View d =>
      if onDatasetsTab w && negb (isLoadingDatasets w)
         && bool_decide (d ∈ datasets w)
      then Some (handleViewDataset d w, None)
      else None
  | CloseModal =>
      if onDatasetsTab w && showModal w
      then Some (setShowModal false w, None)
      else None
  | CallUpload => Some (handleFileUpload w, None)
  | UploadSettles k r =>
      '(j, rest) ← takeJob k (jobs w);
      match phase j with
      | Sending => Some (uploaded k r (setJobs rest w))
      | Refreshing => None
      end
  | DatasetsSettle None r =>
      match loads w with
      | S n => Some (loaded r (setLoads n w), None)
      | O => None
      end
  | DatasetsSettle (Some k) r =>
      '(j, rest) ← takeJob k (jobs w);
      match phase j with
      | Refreshing => Some (loaded r (setJobs rest w), Some (k, Resolved))
      | Sending => None
      end
  end.

Definition step (w : World) (a : Action) : option World :=
  fst <$> act a w.

Definition outcomeOf (w : World) (a : Action) : option (nat * Outcome) :=
  act a w ≫= snd.

Fixpoint run (w : World) (evs : list Action) : option World :=
  match evs with
  | [] => Some w
  | e :: evs' => w' ← step w e; run w' evs'
  end.

(** The promises of [handleFileUpload] a run settles, in order. *)
Fixpoint outcomes (w : World) (evs : list Action) : list (nat * Outcome) :=
  match evs with
  | [] => []
  | e :: evs' =>
      match act e w with
      | Some (w', o) => option_list o ++ outcomes w' evs'
      | None => []
      end
  end.

(** *** Observations on a run *)

(** The lists of the [getDatasets] responses that report success. *)
Definition goodReply (a : Action) : list (list Dataset) :=
  match a with
  | DatasetsSettle _ (Returned response) =>
      if dr_success response then [dr_datasets response] else []
  | _ => []
  end.

Definition goodReplies (evs : list Action) : list (list Dataset) :=
  concat (map goodReply evs).

(** The calls for which [uploadFile] returned a response reporting
    success. *)
Definition accepted (a : Action) : list nat :=
  match a with
  | UploadSettles k (Returned response) =>
      if ur_success response then [k] else []
  | _ => []
  end.

(** What [handleFileUpload] throws for the way [uploadFile] settled, if it
    throws. *)
Definition refusal (a : Action) : list (nat * Outcome) :=
  match a with
  | UploadSettles k (Returned response) =>
      if ur_success response then []
      else [(k, Rejected (Some (orElse (ur_error response) "Upload failed")))]
  | UploadSettles k (Threw err) => [(k, Rejected err)]
  | _ => []
  end.

Definition isResolved (o : nat * Outcome) : bool :=
  match o.2 with Resolved => true | Rejected _ => false end.

(** The [getDatasets] calls outstanding: those no upload awaits, and those
    of the jobs that are refreshing. *)
Definition refreshingJobs (l : list Job) : list nat :=
  job_id <$> filter (λ j, phase j = Refreshing) l.

Definition refreshing (w : World) : list nat := refreshingJobs (jobs w).

Definition outstanding (w : World) : nat :=
  loads w + length (refreshing w).

(** *** Runs *)
Definition sales : Dataset :=
  {| name := "sales.csv"; file_path := "data/sales.csv"; rows := 120;
     columns := ["month"; "revenue"]%string |}.

(** The mount load fails; a file is uploaded and the refresh after it
    lists one dataset, which is then viewed. *)
Definition uploadThenView : list Action :=
  [ DatasetsSettle None (Threw (Some "Network Error"%string));
    SetTab Tab_upload; CallUpload;
    UploadSettles 0 (Returned {| ur_success := true; ur_error := None |});
    DatasetsSettle (Some 0)
      (Returned {| dr_success := true; dr_datasets := [sales] |});
    SetTab Tab_datasets; View sales ].

End LeftPanel.

(** * The upload tab: the left panel with its upload panel

    While the upload tab is open the upload panel is mounted with
    [handleFileUpload] as its [onFileUpload]: every call the panel awaits
    is an invocation of [handleFileUpload], and the panel's continuation
    runs when that invocation settles.  The buttons of the other tabs are
    not rendered, so the events are those of the upload panel and the
    replies of the backend. *)
Module UploadTab.
Import Upload.

Record World := {
  leftPanel : LeftPanel.World;
  fileUpload : Upload.World
}.

(** The tab when it is opened for the first time, the left panel being in
    the state [l]: the upload panel is mounted with no row. *)
Definition opened (l : LeftPanel.World) : World :=
  {| leftPanel := LeftPanel.setActiveTab LeftPanel.Tab_upload l;
     fileUpload := Upload.init |}.

(** The tab opened right after the panel is mounted. *)
Definition init : World := opened LeftPanel.init.

Inductive Event :=
| Panel (e : Upload.Event)
| Net (t : Z) (a : LeftPanel.Action).

(** What the user and the clock do to the upload panel; its calls are
    settled by the left panel only. *)
Definition userEvent (e : Upload.Event) : bool :=
  match e with
  | At _ (DropFiles _) | At _ (Dismiss _) | Tick => true
  | At _ (Uploaded _) | At _ (UploadFailed _ _) => false
  end.

Definition netAction (a : LeftPanel.Action) : bool :=
  match a with
  | LeftPanel.UploadSettles _ _ | LeftPanel.DatasetsSettle _ _ => true
  | _ => false
  end.

(** The continuation of the upload panel for a settled promise; when no
    promise settles only the clock moves. *)
Definition deliver (o : option (nat * LeftPanel.Outcome)) : Upload.Action :=
  match o with
  | Some (k, LeftPanel.Resolved) => Uploaded k
  | Some (k, LeftPanel.Rejected err) => UploadFailed k err
  | None => DropFiles []
  end.

(** [onFileUpload(file)] for every call the upload panel has just
    started. *)
Definition called (p p' : Upload.World) (l : LeftPanel.World)
    : LeftPanel.World :=
  Nat.iter (nextCall p' - nextCall p) LeftPanel.handleFileUpload l.

Section WithProps.
Variable props : Props.

Definition step (w : World) (e : Event) : option World :=
  match e with
  | Panel e' =>
      if userEvent e' then
        p' ← Upload.step props (fileUpload w) e';
        Some {| leftPanel := called (fileUpload w) p' (leftPanel w);
                fileUpload := p' |}
      else None
  | Net t a =>
      if netAction a then
        '(l', o) ← LeftPanel.act a (leftPanel w);
        p' ← Upload.step props (fileUpload w) (At t (deliver o));
        Some {| leftPanel := called (fileUpload w) p' l';
                fileUpload := p' |}
      else None
  end.

Fixpoint run (w : World) (evs : list Event) : option World :=
  match evs with
  | [] => Some w
  | e :: evs' => w' ← step w e; run w' evs'
  end.

End WithProps.

(** *** Observations on a run *)
Definition isRefresh (e : Event) : bool :=
  match e with
  | Net _ (LeftPanel.DatasetsSettle (Some _) _) => true
  | _ => false
  end.

(** The message the upload panel stores for a failed upload. *)
Definition failureText (e : Event) : list string :=
  match e with
  | Net _ a =>
      omap (λ o, match o.2 with
                 | LeftPanel.Rejected (Some m) => Some m
                 | LeftPanel.Rejected None => Some "Upload failed"%string
                 | LeftPanel.Resolved => None
                 end) (LeftPanel.refusal a)
  | Panel _ => []
  end.

Definition failureTexts (evs : list Event) : list string :=
  concat (map failureText evs).

(** The messages of the [Error]s thrown by [uploadFile]. *)
Definition thrownText (e : Event) : list string :=
  match e with
  | Net _ (LeftPanel.UploadSettles _ (LeftPanel.Threw (Some m))) => [m]
  | _ => []
  end.


(** *** Runs *)

(** Two files are dropped; the server refuses the first without a message,
    accepts the second, and the refresh after it fails. *)
Definition refusedThenAccepted : list Event :=
  [ Panel (At 0 (DropFiles twoCsv)); Panel Tick;
    Net 150 (LeftPanel.UploadSettles 0
      (LeftPanel.Returned
         {| LeftPanel.ur_success := false; LeftPanel.ur_error := None |}));
    Panel Tick; Panel Tick;
    Net 260 (LeftPanel.UploadSettles 1
      (LeftPanel.Returned
         {| LeftPanel.ur_success := true; LeftPanel.ur_error := None |}));
    Panel Tick;
    Net 320 (LeftPanel.DatasetsSettle (Some 1)
      (LeftPanel.Threw (Some "Network Error"%string))) ].

End UploadTab.

(** * The earlier left panel

    The first version of [LeftPanel] (components/LeftPanel.tsx without the
    dataset loading) passes a [handleFileUpload] that logs and returns on
    every path. *)
Module LegacyPanel.
Import Upload.

(** The three paths of [handleFileUpload]: success is logged, a response
    without success is ignored, a thrown value is caught and logged. *)
Definition handleFileUpload (r : LeftPanel.Settled LeftPanel.UploadResponse)
    : LeftPanel.Outcome :=
  match r with
  | LeftPanel.Returned response =>
      if LeftPanel.ur_success response then LeftPanel.Resolved
      else LeftPanel.Resolved
  | LeftPanel.Threw _ => LeftPanel.Resolved
  end.

Inductive Event :=
| Panel (e : Upload.Event)
| Reply (t : Z) (k : nat) (r : LeftPanel.Settled LeftPanel.UploadResponse).

Definition step (props : Props) (w : Upload.World) (e : Event)
    : option Upload.World :=
  match e with
  | Panel e' =>
      if UploadTab.userEvent e' then Upload.step props w e' else None
  | Reply t k r =>
      Upload.step props w
        (At t (UploadTab.deliver (Some (k, handleFileUpload r))))
  end.

Fixpoint run (props : Props) (w : Upload.World) (evs : list Event)
    : option Upload.World :=
  match evs with
  | [] => Some w
  | e :: evs' => w' ← step props w e; run props w' evs'
  end.

(** A file is dropped and [uploadFile] throws. *)
Definition uploadThrows : list Event :=
  [ Panel (At 0 (DropFiles [("k3x9q0a1z"%string, csv2MB)])); Panel Tick;
    Reply 130 0 (LeftPanel.Threw (Some "Network Error"%string)) ].

End LegacyPanel.

(** * Facts about the chat panel *)
Module ChatFacts.
Import Chat.

Lemma nextTimer_split (l : list Timer) m rest :
  nextTimer l = Some (m, rest) →
  ∃ l1 l2, l = l1 ++ m :: l2 ∧ rest = l1 ++ l2
    ∧ Forall (λ y, (due m < due y)%Z) l1 ∧ Forall (λ y, (due m ≤ due y)%Z) l2.
Proof.
  revert m rest. induction l as [|x l IH]; intros m rest H; simpl in H; [done|].
  destruct (nextTimer l) as [[m' rest']|] eqn:E.
  - destruct (IH _ _ eq_refl) as (l1 & l2 & -> & -> & H1 & H2).
    destruct (Z.leb_spec (due x) (due m')); simplify_eq.
    + exists [], (l1 ++ m' :: l2). repeat split; auto.
      apply Forall_app. split.
      * eapply Forall_impl; [exact H1|]. simpl. intros; lia.
      * constructor; [lia|]. eapply Forall_impl; [exact H2|]. simpl. intros; lia.
    + exists (x :: l1), l2. repeat split; auto.
  - simplify_eq. destruct l; [|simpl in E; destruct (nextTimer l) as [[??]|]; try destruct (_ <=? _)%Z; done].
    exists [], []. repeat split; auto.
Qed.

Lemma nextTimer_is_Some (l : list Timer) : l ≠ [] → is_Some (nextTimer l).
Proof.
  destruct l as [|x l]; [done|]. intros _. simpl.
  destruct (nextTimer l) as [[??]|]; [destruct (_ <=? _)%Z|]; eauto.
Qed.

Lemma takeCall_split (l : list PendingCall) r c rest :
  takeCall r l = Some (c, rest) →
  ∃ l1 l2, l = l1 ++ c :: l2 ∧ rest = l1 ++ l2 ∧ call_trace c = r.
Proof.
  revert c rest. induction l as [|x l IH]; intros c rest H; simpl in H; [done|].
  destruct (Nat.eqb_spec (call_trace x) r).
  - simplify_eq. by exists [], rest.
  - destruct (takeCall r l) as [[c' rest']|]; simplify_eq/=.
    destruct (IH _ _ eq_refl) as (l1 & l2 & -> & -> & ?).
    by exists (x :: l1), l2.
Qed.

Lemma takeCall_is_Some (l : list PendingCall) c :
  c ∈ l → is_Some (takeCall (call_trace c) l).
Proof.
  induction 1 as [c l|c x l _ IH]; simpl.
  - rewrite Nat.eqb_refl. eauto.
  - destruct (Nat.eqb _ _); [eauto|]. destruct IH as [[??] ->]. simpl. eauto.
Qed.


Ltac setters :=
  unfold resolved, rejected, publishCopy in *; simpl in *.

Lemma TaskInv_ext w w' r tr s st :
  TaskInv w r tr s st →
  (now w ≤ now w')%Z → timers w' = timers w → calls w' ⊆ calls w →
  TaskInv w' r tr s st.
Proof.
  intros [H1 H2 H3 H4 H5] Hn Ht Hc. constructor; auto.
  - lia.
  - by rewrite Ht.
  - intros c Hin. apply H5. by apply Hc.
Qed.

Lemma Inv_ext w w' :
  Inv w →
  heap w' = heap w → timers w' = timers w → calls w' = calls w →
  isProcessing w' = isProcessing w → processingTrace w' = processingTrace w →
  (now w ≤ now w')%Z → (∀ x, x ∈ timers w → (now w' ≤ due x)%Z) →
  Inv w'.
Proof.
  intros [H1 H2 H3 H4 H5 H6] Hh Ht Hc Hp Hpub Hn Hclock.
  constructor.
  - rewrite Hh, Ht. auto.
  - rewrite Hh, Hc. auto.
  - rewrite Ht. auto.
  - unfold inFlight, awaiting in *. by rewrite Hc, Ht, Hp.
  - rewrite Hh. intros r tr Hr. destruct (H5 r tr Hr) as (s & st & Hti).
    exists s, st. eapply TaskInv_ext; eauto. by rewrite Hc.
  - unfold publishedOk in *. by rewrite Hpub, Hh.
Qed.

Lemma filter_owns_fresh (l : list Timer) n r :
  (∀ x, x ∈ l → owner (callback x) < n) → n ≤ r → filter (owns r) l = [].
Proof.
  intros H Hr. induction l as [|x l IH]; [done|].
  rewrite filter_cons_False.
  - apply IH. intros y Hy. apply H. by right.
  - unfold owns. specialize (H x (list_elem_of_here _ _)). lia.
Qed.

Lemma inv_send w : Inv w → Inv (handleSendMessage w).
Proof.
  intros HI. unfold handleSendMessage.
  destruct (negb _); [done|].
  destruct (selectedPersona w) as [persona|]; [|done].
  destruct (isProcessing w) eqn:Hproc; [done|].
  destruct HI as [H1 H2 H3 H4 H5 H6]. setters.
  constructor; simpl.
  - intros x. rewrite length_app. simpl.
    rewrite <- !(assoc_L (++)). simpl.
    rewrite elem_of_app, !elem_of_cons, elem_of_nil.
    intros [Hx|[->|[->|[->|[]]]]]; simpl; try lia.
    specialize (H1 x Hx). lia.
  - intros c. rewrite length_app, elem_of_app, list_elem_of_singleton. simpl.
    intros [Hc| ->]; simpl; [specialize (H2 c Hc)|]; lia.
  - intros x. rewrite <- !(assoc_L (++)). simpl.
    rewrite elem_of_app, !elem_of_cons, elem_of_nil.
    intros [Hx|[->|[->|[->|[]]]]]; simpl; try lia. auto.
  - unfold inFlight, awaiting in *. simpl.
    rewrite <- !(assoc_L (++)), omap_app, !length_app. simpl.
    rewrite Hproc in H4. simpl in H4. lia.
  - intros r tr Hr.
    apply lookup_app_Some in Hr as [Hr|[Hlen Hr]].
    + destruct (H5 r tr Hr) as (s & st & [T1 T2 T3 T4 T5]).
      apply lookup_lt_Some in Hr.
      exists s, st. constructor; simpl; auto.
      * rewrite <- !(assoc_L (++)), filter_app. simpl.
        rewrite T4.
        rewrite !filter_cons_False by (unfold owns; simpl; lia).
        by rewrite filter_nil, app_nil_r.
      * intros c. rewrite elem_of_app, list_elem_of_singleton.
        intros [Hc| ->]; simpl; [eauto|lia].
    + destruct (r - length (heap w)) as [|k] eqn:Hk; simplify_eq/=.
      assert (r = length (heap w)) as -> by lia.
      exists (now w), (Running 0). constructor; simpl; auto; try lia.
      rewrite <- !(assoc_L (++)), filter_app. simpl.
      rewrite (filter_owns_fresh _ (length (heap w))) by auto.
      by rewrite !filter_cons_True, filter_nil by done.
  - unfold publishedOk. simpl. rewrite length_app. simpl. lia.
Qed.


(** With a call outstanding, it is the only task in flight. *)
Lemma sole_call w r c rest :
  Inv w → takeCall r (calls w) = Some (c, rest) →
  calls w = [c] ∧ rest = [] ∧ call_trace c = r ∧ awaiting w = []
  ∧ isProcessing w = true.
Proof.
  intros HI Ht. apply takeCall_split in Ht as (l1 & l2 & Hc & -> & Hr).
  pose proof (inv_flight _ HI) as Hf. unfold inFlight in Hf.
  rewrite Hc, length_app in Hf. simpl in Hf.
  destruct (isProcessing w); simpl in Hf; [|lia].
  destruct l1; [|simpl in Hf; lia]. destruct l2; [|simpl in Hf; lia].
  destruct (awaiting w); [|simpl in Hf; lia]. by rewrite Hc.
Qed.

Lemma inv_resolve w r resp c rest :
  Inv w → takeCall r (calls w) = Some (c, rest) →
  Inv (resolved c resp (setCalls rest w)).
Proof.
  intros HI Ht. destruct (sole_call _ _ _ _ HI Ht) as (Hc & -> & Hr & Ha & Hp).
  destruct HI as [H1 H2 H3 H4 H5 H6]. setters.
  assert (c ∈ calls w) as Hin by (rewrite Hc; left).
  constructor; simpl.
  - intros x. rewrite elem_of_app, list_elem_of_singleton.
    intros [Hx| ->]; simpl; auto.
  - intros ? []%elem_of_nil.
  - intros x. rewrite elem_of_app, list_elem_of_singleton.
    intros [Hx| ->]; simpl; [auto|lia].
  - unfold inFlight, awaiting in *. simpl. rewrite omap_app, length_app.
    rewrite Ha, Hp. reflexivity.
  - intros r' tr Hr'. destruct (H5 r' tr Hr') as (s & st & [T1 T2 T3 T4 T5]).
    destruct (decide (r' = call_trace c)) as [->|Hne].
    + specialize (T5 c Hin eq_refl). destruct st as [n| |]; try done.
      exists s, (Awaiting n (now w + 3500) resp (call_persona c)).
      constructor; simpl in *; auto.
      * split; [done|lia].
      * rewrite filter_app, T4.
        by rewrite filter_cons_True, filter_nil by done.
      * intros ? []%elem_of_nil.
    + exists s, st. constructor; simpl; auto.
      * rewrite filter_app, T4.
        rewrite filter_cons_False by (unfold owns; simpl; congruence).
        by rewrite filter_nil, app_nil_r.
      * intros ? []%elem_of_nil.
  - done.
Qed.

Lemma inv_reject w r c rest :
  Inv w → takeCall r (calls w) = Some (c, rest) →
  Inv (rejected (setCalls rest w)).
Proof.
  intros HI Ht. destruct (sole_call _ _ _ _ HI Ht) as (Hc & -> & Hr & Ha & Hp).
  destruct HI as [H1 H2 H3 H4 H5 H6]. setters.
  constructor; simpl; auto.
  - intros ? []%elem_of_nil.
  - unfold inFlight, awaiting in *. simpl. by rewrite Ha.
  - intros r' tr Hr'. destruct (H5 r' tr Hr') as (s & st & HT).
    exists s, st. eapply TaskInv_ext; eauto; simpl; [lia|].
    intros ? []%elem_of_nil.
  - done.
Qed.


Lemma omap_cons' {A B} (f : A → option B) x l :
  omap f (x :: l)
  = match f x with Some y => y :: omap f l | None => omap f l end.
Proof. reflexivity. Qed.

Lemma runCallback_spec cb w w' :
  runCallback cb w = Some w' →
  ∃ tr, heap w !! owner cb = Some tr
    ∧ heap w' = alter (mutation cb) (owner cb) (heap w)
    ∧ timers w' = timers w ∧ calls w' = calls w ∧ now w' = now w
    ∧ processingTrace w' =
        Some (Spread (query (mutation cb tr)) (owner cb)
                (totalDuration (mutation cb tr)) (finalResult (mutation cb tr)))
    ∧ isProcessing w' =
        match cb with Finish _ _ _ => false | _ => isProcessing w end
    ∧ messages w' =
        match cb with
        | Finish _ resp persona =>
            messages w ++
            [{| msg_id := now w + 1; msg_type := assistant;
                content := response resp; timestamp := now w;
                metadata :=
                  Some {| meta_persona := persona_name persona;
                          meta_suggestedQueries := suggested_queries resp;
                          meta_processingTime := processing_time resp |} |}]
        | _ => messages w
        end.
Proof.
  intros H. destruct cb as [r|r|r|r resp persona];
    unfold runCallback, publishCopy in H; cbn [heap setHeap] in H;
    rewrite list_lookup_alter_eq in H;
    destruct (heap w !! r) as [tr|] eqn:E; simplify_eq/=;
    exists tr; repeat split; done.
Qed.

Lemma runCallback_is_Some cb w :
  owner cb < length (heap w) → is_Some (runCallback cb w).
Proof.
  intros [tr Htr]%lookup_lt_is_Some.
  destruct cb; unfold runCallback, publishCopy; cbn [heap setHeap owner] in *;
    rewrite list_lookup_alter_eq, Htr; simpl; eauto.
Qed.

(** The earliest pending timer of a task is the head of its timeline. *)
Lemma expected_head s r st (f1 f2 : list Timer) m :
  wfState s st → f1 ++ m :: f2 = expected s r st →
  Forall (λ y, (due m < due y)%Z) f1 → f1 = [].
Proof.
  intros Hwf He Hf. destruct f1 as [|a f1]; [done|]. exfalso.
  apply Forall_cons in Hf as [Ha Hf].
  destruct st as [n|n d resp persona|]; simpl in *; [| |done].
  - do 4 (try destruct n as [|n]); simpl in *; try lia; simplify_eq;
      do 3 (try destruct f1 as [|? f1]); simplify_eq/=; lia.
  - destruct Hwf as [Hn Hd].
    do 4 (try destruct n as [|n]); simpl in *; try lia; simplify_eq;
      do 4 (try destruct f1 as [|? f1]); simplify_eq/=; lia.
Qed.

Lemma expected_after s r st m f2 :
  wfState s st → m :: f2 = expected s r st →
  owner (callback m) = r
  ∧ wfState s (afterCallback (callback m) st)
  ∧ f2 = expected s r (afterCallback (callback m) st)
  ∧ (∀ q, mutation (callback m) (traceOf q st)
          = traceOf q (afterCallback (callback m) st))
  ∧ (s < due m)%Z.
Proof.
  intros Hwf He. destruct st as [n|n d resp persona|]; simpl in *; [| |done].
  - do 4 (try destruct n as [|n]); simpl in *; try lia; simplify_eq/=;
      repeat split; try done; lia.
  - destruct Hwf as [Hn Hd].
    do 4 (try destruct n as [|n]); simpl in *; try lia; simplify_eq/=;
      repeat split; try done; lia.
Qed.

Lemma query_mutation cb tr : query (mutation cb tr) = query tr.
Proof. by destruct cb. Qed.

Lemma inv_fire w w' : Inv w → step w Fire = Some w' → Inv w'.
Proof.
  intros HI Hs. simpl in Hs.
  destruct (nextTimer (timers w)) as [[m rest]|] eqn:En; simplify_eq/=.
  apply nextTimer_split in En as (l1 & l2 & Hl & -> & Hlt & Hle).
  apply runCallback_spec in Hs as (tr0 & Htr0 & Hh & Ht & Hc & Hn & Hpub & Hp & _).
  setters.
  destruct HI as [H1 H2 H3 H4 H5 H6].
  assert (m ∈ timers w) as Hm by (rewrite Hl, elem_of_app; right; left).
  assert (Z.max (now w) (due m) = due m) as Hmax
    by (specialize (H3 m Hm); lia).
  rewrite Hmax in Hn.
  assert (∀ x, x ∈ l1 ++ l2 → x ∈ timers w) as Hsub.
  { intros x. rewrite Hl, !elem_of_app, elem_of_cons. tauto. }
  destruct (H5 _ _ Htr0) as (s0 & st0 & [T1 T2 T3 T4 T5]).
  rewrite Hl, filter_app, filter_cons_True in T4 by done.
  assert (filter (owns (owner (callback m))) l1 = []) as Hl1.
  { eapply expected_head; [exact T3|exact T4|].
    apply Forall_forall. intros y Hy%list_elem_of_filter.
    rewrite Forall_forall in Hlt. apply Hlt, Hy. }
  rewrite Hl1 in T4. simpl in T4.
  destruct (expected_after _ _ _ _ _ T3 T4) as (_ & Hwf' & Hexp' & Hmut & Hs0).
  constructor.
  - rewrite Ht, Hh, length_alter. auto.
  - rewrite Hc, Hh, length_alter. auto.
  - rewrite Ht, Hn. intros x. rewrite elem_of_app.
    rewrite !Forall_forall in Hlt, Hle.
    intros [Hx|Hx]; [specialize (Hlt x Hx); lia|auto].
  - unfold inFlight, awaiting in *. rewrite Hc, Ht, Hp.
    rewrite Hl, omap_app, omap_cons', length_app in H4.
    rewrite omap_app, length_app.
    unfold finishOf at 2 in H4.
    destruct (callback m); cbn [length] in H4; try done.
    destruct (isProcessing w); cbn [Nat.b2n] in *; lia.
  - rewrite Hh. intros r tr Hr.
    destruct (decide (r = owner (callback m))) as [->|Hne].
    + rewrite list_lookup_alter_eq, Htr0 in Hr. simplify_eq/=.
      exists s0, (afterCallback (callback m) st0). constructor; auto.
      * rewrite query_mutation. rewrite T1 at 1. apply Hmut.
      * lia.
      * rewrite Ht, filter_app, Hl1. simpl. done.
      * rewrite Hc. intros c Hc1 Hc2. specialize (T5 c Hc1 Hc2).
        destruct st0; try done.
        pose proof (takeCall_is_Some _ _ Hc1) as [[c' rest'] Htk].
        destruct (sole_call w _ _ _
          ltac:(constructor; eauto) Htk) as (_ & _ & _ & Ha & _).
        unfold awaiting in Ha. rewrite Hl, omap_app, omap_cons' in Ha.
        unfold finishOf at 2 in Ha.
        destruct (callback m); simpl in *; try done.
        by destruct (omap finishOf l1).
    + rewrite list_lookup_alter_ne in Hr by done.
      destruct (H5 r tr Hr) as (s & st & [U1 U2 U3 U4 U5]).
      exists s, st. constructor; auto.
      * specialize (H3 m Hm). lia.
      * rewrite Ht, <- U4, Hl, !filter_app.
        rewrite filter_cons_False; [done|]. unfold owns. congruence.
      * by rewrite Hc.
  - unfold publishedOk. rewrite Hpub, Hh.
    exists (mutation (callback m) tr0).
    by rewrite list_lookup_alter_eq, Htr0.
Qed.


Lemma inv_init : Inv init.
Proof.
  constructor; simpl; try done.
  - intros ? []%elem_of_nil.
  - intros ? []%elem_of_nil.
  - intros ? []%elem_of_nil.
Qed.

Lemma inv_setNow w t :
  Inv w → (now w ≤ t)%Z → (∀ x, x ∈ timers w → (t ≤ due x)%Z) →
  Inv (setNow t w).
Proof. intros HI Ht Hd. eapply Inv_ext; eauto. Qed.

Lemma step_At_inv w t a w' :
  step w (At t a) = Some w' →
  (now w ≤ t)%Z ∧ (∀ x, x ∈ timers w → (t ≤ due x)%Z)
  ∧ act a (setNow t w) = Some w'.
Proof.
  simpl. destruct (Z.leb_spec (now w) t) as [Hle|Hgt]; simpl; [|done].
  destruct (forallb _ _) eqn:E; [|done]. intros Ha. repeat split; auto.
  intros x Hx. rewrite forallb_forall in E.
  apply list_elem_of_In in Hx. specialize (E x Hx). lia.
Qed.

Lemma inv_act w a w' : Inv w → act a w = Some w' → Inv w'.
Proof.
  intros HI Ha. destruct a as [s|p| |r resp|r]; simpl in Ha.
  - simplify_eq. eapply Inv_ext; eauto; [done|apply HI].
  - simplify_eq. eapply Inv_ext; eauto; [done|apply HI].
  - simplify_eq. by apply inv_send.
  - destruct (takeCall r (calls w)) as [[c rest]|] eqn:E; simplify_eq/=.
    by eapply inv_resolve.
  - destruct (takeCall r (calls w)) as [[c rest]|] eqn:E; simplify_eq/=.
    by eapply inv_reject.
Qed.

Lemma inv_step w e w' : Inv w → step w e = Some w' → Inv w'.
Proof.
  intros HI Hs. destruct e as [t a|].
  - apply step_At_inv in Hs as (Ht & Hd & Ha).
    eapply inv_act; [|exact Ha]. by apply inv_setNow.
  - by eapply inv_fire.
Qed.

Lemma inv_run evs : ∀ w w', Inv w → run w evs = Some w' → Inv w'.
Proof.
  induction evs as [|e evs IH]; intros w w' HI Hr; simpl in Hr.
  - by simplify_eq.
  - destruct (step w e) as [w1|] eqn:E; simplify_eq/=.
    eapply IH; [|exact Hr]. by eapply inv_step.
Qed.

Lemma inv_reachable evs w : run init evs = Some w → Inv w.
Proof. apply inv_run, inv_init. Qed.

(** A due timer can always fire. *)
Lemma fire_enabled w : Inv w → timers w ≠ [] → is_Some (step w Fire).
Proof.
  intros HI Hne. simpl.
  destruct (nextTimer_is_Some _ Hne) as [[m rest] Hm]. rewrite Hm. simpl.
  apply runCallback_is_Some. simpl.
  apply nextTimer_split in Hm as (l1 & l2 & Hl & _).
  apply (inv_timers _ HI). rewrite Hl, elem_of_app. right. left.
Qed.


Lemma trace_shape w r tr :
  Inv w → heap w !! r = Some tr →
  ∃ q n, n ≤ 3 ∧
    (tr = ticked n (freshTrace q)
     ∨ n = 3 ∧ ∃ resp, tr = finish resp (ticked 3 (freshTrace q))).
Proof.
  intros HI Hr. destruct (inv_tasks _ HI r tr Hr) as (s & st & [T1 T2 T3 _ _]).
  exists (query tr). destruct st as [n|n d resp persona|resp]; simpl in *.
  - exists n. auto.
  - exists n. split; [lia|auto].
  - exists 3. split; [lia|]. right. eauto.
Qed.

Lemma view_in_heap w tr :
  Inv w → view w = Some tr → ∃ r, heap w !! r = Some tr.
Proof.
  intros HI Hv. pose proof (inv_published _ HI) as Hp.
  unfold view, publishedOk in *.
  destruct (processingTrace w) as [[r|q r total res]|]; [eauto| |done].
  destruct Hp as (tr' & Hr & -> & -> & ->). rewrite Hr in Hv.
  simplify_eq/=. exists r. by destruct tr'.
Qed.

Lemma shown_or_stored w tr :
  Inv w → (∃ r, heap w !! r = Some tr) ∨ view w = Some tr →
  ∃ q n, n ≤ 3 ∧
    (tr = ticked n (freshTrace q)
     ∨ n = 3 ∧ ∃ resp, tr = finish resp (ticked 3 (freshTrace q))).
Proof.
  intros HI [[r Hr]|Hv].
  - by eapply trace_shape.
  - destruct (view_in_heap _ _ HI Hv) as [r Hr]. by eapply trace_shape.
Qed.

(** C6: in every reachable state, and for every trace object as for the
    trace on display, a step is processing or completed only if the step
    before it is completed: the four steps complete in the order 1, 2, 3,
    4. *)
Theorem steps_complete_in_order evs w tr i a b :
  run init evs = Some w →
  (∃ r, heap w !! r = Some tr) ∨ view w = Some tr →
  steps tr !! i = Some a → steps tr !! S i = Some b →
  started (status b) = true → status a = completed.
Proof.
  intros Hrun Htr Ha Hb Hs.
  destruct (shown_or_stored _ _ (inv_reachable _ _ Hrun) Htr)
    as (q & n & Hn & [->|[-> [resp ->]]]).
  - do 4 (try destruct n as [|n]); try lia;
      do 4 (try destruct i as [|i]); simplify_eq/=; done.
  - do 4 (try destruct i as [|i]); simplify_eq/=; done.
Qed.

Lemma steps_complete_in_order_witness :
  ∃ w tr a b, run init rejectsAt1000 = Some w ∧ heap w !! 0 = Some tr
    ∧ steps tr !! 0 = Some a ∧ steps tr !! 1 = Some b
    ∧ started (status b) = true ∧ status a = completed.
Proof.
  do 4 eexists.
  split; [vm_compute; reflexivity|].
  split; [vm_compute; reflexivity|].
  split; [vm_compute; reflexivity|].
  split; [vm_compute; reflexivity|].
  split; [vm_compute; reflexivity|].
  eapply (steps_complete_in_order rejectsAt1000 _ _ 0).
  - vm_compute; reflexivity.
  - left. exists 0. vm_compute; reflexivity.
  - vm_compute; reflexivity.
  - vm_compute; reflexivity.
  - vm_compute; reflexivity.
Defined.

(** C10: in every reachable state, a trace to which the result has been
    attached, or whose step 4 is completed, records the durations 500, 800,
    1200 and 1000 for its four steps and the total duration 3500, whatever
    the times at which the events of the run happened. *)
Theorem durations_are_nominal evs w tr :
  run init evs = Some w →
  (∃ r, heap w !! r = Some tr) ∨ view w = Some tr →
  is_Some (finalResult tr)
  ∨ (∃ s4, steps tr !! 3 = Some s4 ∧ status s4 = completed) →
  map duration (steps tr) = [Some 500; Some 800; Some 1200; Some 1000]%Z
  ∧ totalDuration tr = 3500%Z
  ∧ map status (steps tr) = [completed; completed; completed; completed].
Proof.
  intros Hrun Htr Hdone.
  destruct (shown_or_stored _ _ (inv_reachable _ _ Hrun) Htr)
    as (q & n & Hn & [->|[-> [resp ->]]]).
  - exfalso. destruct Hdone as [[? Hf]|(s4 & H4 & Hs)];
      do 4 (try destruct n as [|n]); try lia; simplify_eq/=.
  - done.
Qed.

Lemma durations_are_nominal_witness :
  ∃ w tr, run init resolvesAt3000 = Some w ∧ view w = Some tr
    ∧ map duration (steps tr) = [Some 500; Some 800; Some 1200; Some 1000]%Z
    ∧ totalDuration tr = 3500%Z
    ∧ map status (steps tr) = [completed; completed; completed; completed].
Proof.
  do 2 eexists.
  split; [vm_compute; reflexivity|].
  split; [vm_compute; reflexivity|].
  eapply (durations_are_nominal resolvesAt3000).
  - vm_compute; reflexivity.
  - right. vm_compute; reflexivity.
  - left. vm_compute. eauto.
Defined.


Lemma awaiting_short w : Inv w → length (awaiting w) ≤ 1.
Proof.
  intros HI. pose proof (inv_flight _ HI) as Hf. unfold inFlight in Hf.
  destruct (isProcessing w); simpl in Hf; lia.
Qed.

Lemma step_settle_terminal w e w' :
  Inv w → step w e = Some w' →
  awaiting w ++ settleOf w e = terminalOf w e ++ awaiting w'.
Proof.
  intros HI Hs. destruct e as [t a|].
  - apply step_At_inv in Hs as (Ht & Hd & Ha).
    assert (Inv (setNow t w)) as HI' by by apply inv_setNow.
    destruct a as [s|p| |r resp|r]; simpl in *; simplify_eq/=.
    + by rewrite app_nil_r.
    + by rewrite app_nil_r.
    + rewrite app_nil_r. unfold handleSendMessage, awaiting.
      destruct (negb _); [done|].
      destruct (selectedPersona _); [|done].
      destruct (isProcessing _); [done|]. setters.
      rewrite <- !(assoc_L (++)), omap_app. simpl. by rewrite app_nil_r.
    + destruct (takeCall r (calls w)) as [[c rest]|] eqn:E; simplify_eq/=.
      destruct (sole_call _ _ _ _ HI E) as (_ & _ & Hr & Ha & _).
      unfold awaiting in *. setters. rewrite omap_app, Ha. simpl.
      by rewrite Hr.
    + destruct (takeCall r (calls w)) as [[c rest]|] eqn:E; simplify_eq/=.
      destruct (sole_call _ _ _ _ HI E) as (_ & _ & Hr & Ha & _).
      unfold awaiting in *. setters. by rewrite Ha.
  - pose proof (awaiting_short _ HI) as Hlen. simpl in *.
    destruct (nextTimer (timers w)) as [[m rest]|] eqn:En; simplify_eq/=.
    apply nextTimer_split in En as (l1 & l2 & Hl & -> & _).
    apply runCallback_spec in Hs as (_ & _ & _ & Ht & _). setters.
    unfold awaiting in *. rewrite Ht, omap_app, app_nil_r.
    rewrite Hl, omap_app, omap_cons' in *.
    destruct (finishOf m) as [o|]; [|done].
    rewrite length_app in Hlen. cbn [length] in Hlen.
    destruct (omap finishOf l1); [|cbn in Hlen; lia].
    destruct (omap finishOf l2); [|cbn in Hlen; lia]. done.
Qed.

Lemma run_settle_terminal evs : ∀ w w',
  Inv w → run w evs = Some w' →
  awaiting w ++ settles w evs = terminals w evs ++ awaiting w'.
Proof.
  induction evs as [|e evs IH]; intros w w' HI Hr; simpl in *.
  - simplify_eq. by rewrite app_nil_r.
  - destruct (step w e) as [w1|] eqn:E; simplify_eq/=.
    rewrite (assoc_L (++)), (step_settle_terminal _ _ _ HI E).
    rewrite <- !(assoc_L (++)). f_equal.
    apply IH; [|done]. by eapply inv_step.
Qed.

Lemma heap_grows w e w' :
  step w e = Some w' → length (heap w) ≤ length (heap w').
Proof.
  intros Hs. destruct e as [t a|].
  - apply step_At_inv in Hs as (_ & _ & Ha).
    destruct a as [s|p| |r resp|r]; simpl in *; simplify_eq/=; try done.
    + unfold handleSendMessage. destruct (negb _); [done|].
      destruct (selectedPersona _); [|done].
      destruct (isProcessing _); [done|]. setters. rewrite length_app. lia.
    + destruct (takeCall _ _) as [[??]|]; simplify_eq/=. done.
    + destruct (takeCall _ _) as [[??]|]; simplify_eq/=. done.
  - simpl in Hs. destruct (nextTimer _) as [[m rest]|]; simplify_eq/=.
    apply runCallback_spec in Hs as (_ & _ & Hh & _). rewrite Hh, length_alter.
    done.
Qed.

Lemma calls_fresh w e w' c :
  Inv w → step w e = Some w' → c ∈ calls w' →
  c ∈ calls w ∨ length (heap w) ≤ call_trace c.
Proof.
  intros HI Hs Hc. destruct e as [t a|].
  - apply step_At_inv in Hs as (_ & _ & Ha).
    destruct a as [s|p| |r resp|r]; simpl in *; simplify_eq/=; auto.
    + revert Hc. unfold handleSendMessage. destruct (negb _); [auto|].
      destruct (selectedPersona _); [|auto].
      destruct (isProcessing _); [auto|]. setters.
      rewrite elem_of_app, list_elem_of_singleton. intros [?| ->]; auto.
    + destruct (takeCall _ _) as [[c' rest]|] eqn:E; simplify_eq/=.
      destruct (sole_call _ _ _ _ HI E) as (_ & -> & _).
      by apply elem_of_nil in Hc.
    + destruct (takeCall _ _) as [[c' rest]|] eqn:E; simplify_eq/=.
      destruct (sole_call _ _ _ _ HI E) as (_ & -> & _).
      by apply elem_of_nil in Hc.
  - simpl in Hs. destruct (nextTimer _) as [[m rest]|]; simplify_eq/=.
    apply runCallback_spec in Hs as (_ & _ & _ & _ & Hcs & _).
    rewrite Hcs in Hc. auto.
Qed.

Lemma settleOf_spec w e r o :
  Inv w → (r, o) ∈ settleOf w e →
  settleOf w e = [(r, o)] ∧ r < length (heap w)
  ∧ ∀ w', step w e = Some w' → calls w' = [].
Proof.
  intros HI Hin. destruct e as [t [s|p| |r' resp|r']|]; simpl in *;
    try by apply elem_of_nil in Hin.
  - destruct (takeCall r' (calls w)) as [[c rest]|] eqn:E;
      [|by apply elem_of_nil in Hin].
    apply list_elem_of_singleton in Hin. simplify_eq.
    destruct (sole_call _ _ _ _ HI E) as (Hc & -> & Hr & _).
    repeat split.
    + rewrite <- Hr. apply (inv_calls _ HI). rewrite Hc. left.
    + intros w'. destruct (_ && _); [|done]. simpl.
      intros; simplify_eq. done.
  - destruct (takeCall r' (calls w)) as [[c rest]|] eqn:E;
      [|by apply elem_of_nil in Hin].
    apply list_elem_of_singleton in Hin. simplify_eq.
    destruct (sole_call _ _ _ _ HI E) as (Hc & -> & Hr & _).
    repeat split.
    + rewrite <- Hr. apply (inv_calls _ HI). rewrite Hc. left.
    + intros w'. destruct (_ && _); [|done]. simpl.
      intros; simplify_eq. done.
Qed.

Lemma settles_bound evs : ∀ w w' r o,
  Inv w → run w evs = Some w' → (r, o) ∈ settles w evs →
  r ∈ map call_trace (calls w) ∨ length (heap w) ≤ r.
Proof.
  induction evs as [|e evs IH]; intros w w' r o HI Hr Hin; simpl in *.
  - by apply elem_of_nil in Hin.
  - destruct (step w e) as [w1|] eqn:E; simplify_eq/=.
    apply elem_of_app in Hin as [Hin|Hin].
    + left. destruct e as [t [s|p| |r' resp|r']|]; simpl in *;
        try by apply elem_of_nil in Hin.
      * destruct (takeCall r' (calls w)) as [[c rest]|] eqn:Et;
          [|by apply elem_of_nil in Hin].
        apply list_elem_of_singleton in Hin. simplify_eq.
        destruct (sole_call _ _ _ _ HI Et) as (-> & _ & <- & _). simpl. left.
      * destruct (takeCall r' (calls w)) as [[c rest]|] eqn:Et;
          [|by apply elem_of_nil in Hin].
        apply list_elem_of_singleton in Hin. simplify_eq.
        destruct (sole_call _ _ _ _ HI Et) as (-> & _ & <- & _). simpl. left.
    + pose proof (heap_grows _ _ _ E) as Hg.
      destruct (IH _ _ _ _ (inv_step _ _ _ HI E) Hr Hin) as [Hc|Hc]; [|right; lia].
      apply list_elem_of_fmap in Hc as (c & -> & Hc).
      destruct (calls_fresh _ _ _ _ HI E Hc); [left|by right].
      apply list_elem_of_fmap. eauto.
Qed.

Lemma settles_NoDup evs : ∀ w w',
  Inv w → run w evs = Some w' → NoDup (map fst (settles w evs)).
Proof.
  induction evs as [|e evs IH]; intros w w' HI Hr; simpl in *.
  - constructor.
  - destruct (step w e) as [w1|] eqn:E; simplify_eq/=.
    pose proof (inv_step _ _ _ HI E) as HI1.
    specialize (IH _ _ HI1 Hr).
    destruct (settleOf w e) as [|[r o] l] eqn:Es; [done|].
    destruct (settleOf_spec w e r o HI) as (Hl & Hlt & Hc).
    { rewrite Es. left. }
    rewrite Es in Hl. simplify_eq/=. constructor; [|done].
    intros Hin. apply list_elem_of_fmap in Hin as ([r' o'] & -> & Hin).
    destruct (settles_bound _ _ _ _ _ HI1 Hr Hin) as [Hb|Hb].
    + rewrite (Hc _ E) in Hb. by apply elem_of_nil in Hb.
    + pose proof (heap_grows _ _ _ E). simpl in *.
      assert (length (heap w1) = length (heap w)) as Heq; [|lia].
      clear -E Es HI. destruct e as [t [s|p| |r2 resp|r2]|]; simpl in *; try done.
      * destruct (_ && _); [|done]. simpl in E.
        destruct (takeCall _ _) as [[??]|]; simplify_eq/=. done.
      * destruct (_ && _); [|done]. simpl in E.
        destruct (takeCall _ _) as [[??]|]; simplify_eq/=. done.
Qed.


Lemma terminal_effect w e w' r o :
  Inv w → step w e = Some w' → (r, o) ∈ terminalOf w e →
  isProcessing w = true ∧ isProcessing w' = false ∧ reported w w' o.
Proof.
  intros HI Hs Hin. destruct e as [t [s|p| |r' resp|r']|]; simpl in Hin;
    try by apply elem_of_nil in Hin.
  - apply step_At_inv in Hs as (_ & _ & Ha). simpl in Ha.
    destruct (takeCall r' (calls w)) as [[c rest]|] eqn:E;
      [|by apply elem_of_nil in Hin].
    apply list_elem_of_singleton in Hin. simplify_eq/=.
    destruct (sole_call _ _ _ _ HI E) as (_ & _ & _ & _ & Hp).
    repeat split; [done|]. eexists. repeat split; reflexivity.
  - simpl in Hs.
    destruct (nextTimer (timers w)) as [[m rest]|] eqn:En;
      [|by apply elem_of_nil in Hin].
    simpl in Hs. apply nextTimer_split in En as (l1 & l2 & Hl & -> & _).
    apply runCallback_spec in Hs
      as (tr0 & Htr0 & Hh & Ht & Hc & Hn & Hpub & Hp & Hmsg).
    simpl in *. unfold finishOf in Hin.
    destruct (callback m) as [| | |r' resp persona] eqn:Ecb;
      try by apply elem_of_nil in Hin.
    apply list_elem_of_singleton in Hin. simplify_eq/=.
    split; [|split; [done|]].
    + pose proof (inv_flight _ HI) as Hf. unfold inFlight, awaiting in Hf.
      rewrite Hl, omap_app, omap_cons' in Hf. unfold finishOf at 2 in Hf.
      rewrite Ecb, length_app in Hf. cbn [length] in Hf.
      destruct (isProcessing w); [done|]. cbn in Hf. lia.
    + split.
      * eexists. split; [exact Hmsg|]. repeat split.
      * unfold view. rewrite Hpub, Hh, list_lookup_alter_eq, Htr0. simpl.
        eexists. split; reflexivity.
Qed.

Lemma flag_stays w e w' :
  step w e = Some w' → terminalOf w e = [] →
  isProcessing w = true → isProcessing w' = true.
Proof.
  intros Hs Hte Hp. destruct e as [t a|].
  - apply step_At_inv in Hs as (_ & _ & Ha).
    destruct a as [s|p| |r resp|r]; simpl in *; simplify_eq/=; try done.
    + unfold handleSendMessage. destruct (negb _); [done|]. simpl.
      destruct (selectedPersona w); [|done]. by rewrite Hp.
    + destruct (takeCall _ _) as [[??]|]; simplify_eq/=. done.
    + destruct (takeCall _ _) as [[??]|]; simplify_eq/=.
  - simpl in *. destruct (nextTimer _) as [[m rest]|]; simplify_eq/=.
    apply runCallback_spec in Hs as (_ & _ & _ & _ & _ & _ & _ & Hf & _).
    rewrite Hf. unfold finishOf in Hte.
    by destruct (callback m).
Qed.

Lemma send_starts w t w' :
  step w (At t Send) = Some w' → blocked w = false → isProcessing w' = true.
Proof.
  intros (_ & _ & Ha)%step_At_inv Hb. simpl in Ha. simplify_eq.
  unfold blocked in Hb. apply orb_false_elim in Hb as [Hb Hp].
  apply orb_false_elim in Hb as [Hi Hs].
  unfold handleSendMessage. simpl. rewrite Hi.
  destruct (selectedPersona w); [|done]. by rewrite Hp.
Qed.

(** C1: along every run, the terminal transitions are the settlements of
    the real calls, task by task and outcome by outcome, but for the one
    resolved call whose final tick is still pending (and that tick can
    fire); no task settles or terminates twice; the processing flag is set
    exactly while a task is in flight: a submission that passes the guard
    sets it, a terminal transition finds it set, clears it and reports the
    outcome of the call (the assistant message with the response text and
    the trace with the result attached, or the fallback message), and no
    other event clears it. *)
Theorem outcome_matches_real_call evs w :
  run init evs = Some w →
  settles init evs = terminals init evs ++ awaiting w
  ∧ NoDup (map fst (settles init evs))
  ∧ NoDup (map fst (terminals init evs))
  ∧ inFlight w = Nat.b2n (isProcessing w)
  ∧ (timers w ≠ [] → is_Some (step w Fire))
  ∧ ∀ e w', step w e = Some w' →
      (∀ r o, (r, o) ∈ terminalOf w e →
         isProcessing w = true ∧ isProcessing w' = false ∧ reported w w' o)
      ∧ (terminalOf w e = [] → isProcessing w = true → isProcessing w' = true)
      ∧ (∀ t, e = At t Send → blocked w = false → isProcessing w' = true).
Proof.
  intros Hrun. pose proof (inv_reachable _ _ Hrun) as HI.
  pose proof (run_settle_terminal _ _ _ inv_init Hrun) as Heq. simpl in Heq.
  pose proof (settles_NoDup _ _ _ inv_init Hrun) as Hnd.
  split; [done|]. split; [done|]. split.
  { rewrite Heq, map_app in Hnd. by apply NoDup_app in Hnd as [? _]. }
  split; [apply HI|]. split; [by apply fire_enabled|].
  intros e w' Hs. split; [|split].
  - intros r o. by apply terminal_effect.
  - by apply flag_stays.
  - intros t -> Hb. by eapply send_starts.
Qed.

Lemma outcome_matches_real_call_witness :
  ∃ w, run init resolvesAt3000 = Some w
    ∧ settles init resolvesAt3000 = terminals init resolvesAt3000 ++ awaiting w.
Proof.
  eexists. split; [vm_compute; reflexivity|].
  eapply proj1, (outcome_matches_real_call resolvesAt3000).
  vm_compute; reflexivity.
Defined.

Lemma trimStart_nil s : trimStart s = [] ↔ forallb isWhiteSpace s = true.
Proof.
  induction s as [|c s IH]; simpl; [done|].
  destruct (isWhiteSpace c); simpl; [done|]. split; done.
Qed.

Lemma trimStart_head s c s' : trimStart s = c :: s' → isWhiteSpace c = false.
Proof.
  induction s as [|a s IH]; simpl; [done|].
  destruct (isWhiteSpace a) eqn:E; [done|]. by intros; simplify_eq.
Qed.

Lemma trim_blank s : truthy (trim s) = false ↔ forallb isWhiteSpace s = true.
Proof.
  unfold trim. rewrite <- trimStart_nil. split.
  - intros H. destruct (rev _) as [|c l] eqn:E; [|done].
    apply (f_equal (@rev _)) in E. rewrite rev_involutive in E. simpl in E.
    apply trimStart_nil in E.
    destruct (trimStart s) as [|a s'] eqn:Es; [done|].
    apply trimStart_head in Es.
    rewrite forallb_forall in E.
    rewrite (E a) in Es; [done|]. apply in_rev. rewrite rev_involutive. by left.
  - intros ->. done.
Qed.

(** C9: in every reachable state, a submission while the input is empty or
    whitespace only, while no persona is selected or while a query is
    processing returns the state unchanged, and so does the event that
    invokes it, the clock apart; at most one task is in flight. *)
Theorem blocked_send_is_noop evs w :
  run init evs = Some w →
  (forallb isWhiteSpace (inputValue w) = true ∨ selectedPersona w = None
   ∨ isProcessing w = true →
   handleSendMessage w = w
   ∧ ∀ t w', step w (At t Send) = Some w' → w' = setNow t w)
  ∧ inFlight w ≤ 1.
Proof.
  intros Hrun. split.
  - intros Hb.
    assert (∀ w0, inputValue w0 = inputValue w →
              selectedPersona w0 = selectedPersona w →
              isProcessing w0 = isProcessing w →
              handleSendMessage w0 = w0) as Hno.
    { intros w0 E1 E2 E3. unfold handleSendMessage. rewrite E1, E2, E3.
      destruct Hb as [Hb|[Hb|Hb]].
      - apply trim_blank in Hb. by rewrite Hb.
      - rewrite Hb. by destruct (negb _).
      - rewrite Hb. destruct (negb _); [done|].
        by destruct (selectedPersona w). }
    split; [by apply Hno|].
    intros t w' (_ & _ & Ha)%step_At_inv. simpl in Ha. simplify_eq.
    by apply Hno.
  - pose proof (inv_flight _ (inv_reachable _ _ Hrun)) as Hf.
    destruct (isProcessing w); simpl in Hf; lia.
Qed.

Lemma blocked_send_is_noop_witness :
  ∃ w, run init submit = Some w ∧ handleSendMessage w = w ∧ inFlight w ≤ 1.
Proof.
  eexists. split; [vm_compute; reflexivity|].
  destruct (blocked_send_is_noop submit _ ltac:(vm_compute; reflexivity))
    as [Hno Hone].
  split; [|exact Hone].
  refine (proj1 (Hno _)). right. right. vm_compute; reflexivity.
Defined.

(** C2: the continuation of a resolved call schedules the final tick 3500
    ms after the response, not after the submission; in the run of the
    specification, where the call resolves 3000 ms after the submission,
    steps 1 to 3 complete at 500, 1300 and 2500 ms and step 4 completes at
    6500 ms, the flag staying set until then. *)
Theorem final_tick_counts_from_response :
  (∀ c resp w,
     timers (resolved c resp w) =
     timers w ++ [{| due := now w + 3500;
                     callback := Finish (call_trace c) resp (call_persona c) |}])
  ∧ map shown (history init resolvesAt3000) =
  [ (0, false, None); (0, false, None); (0, false, None);
    (0, true, Some [processing; pending; pending; pending]);
    (500, true, Some [completed; processing; pending; pending]);
    (1300, true, Some [completed; completed; processing; pending]);
    (2500, true, Some [completed; completed; completed; processing]);
    (3000, true, Some [completed; completed; completed; processing]);
    (6500, false, Some [completed; completed; completed; completed]) ]%Z.
Proof. split; [done|]. vm_compute. reflexivity. Qed.

(** C5: the [catch] block clears the trace and the flag and leaves the
    pending timers in place; in the run of the specification, where the
    call rejects 1000 ms after the submission, the tick due at 1300 ms then
    puts a trace with two completed steps and one processing back on
    display. *)
Theorem stale_tick_restores_trace :
  (∀ w, timers (rejected w) = timers w ∧ processingTrace (rejected w) = None
        ∧ isProcessing (rejected w) = false)
  ∧ map shown (history init (rejectsAt1000 ++ [Fire])) =
    [ (0, false, None); (0, false, None); (0, false, None);
      (0, true, Some [processing; pending; pending; pending]);
      (500, true, Some [completed; processing; pending; pending]);
      (1000, false, None);
      (1300, false, Some [completed; completed; processing; pending]) ]%Z.
Proof. split; [done|]. vm_compute. reflexivity. Qed.

End ChatFacts.

(** * Facts about the upload panel *)
Module UploadFacts.
Import Upload.


Lemma takeUpload_split (l : list PendingCall) k c rest :
  takeCall k l = Some (c, rest) →
  ∃ l1 l2, l = l1 ++ c :: l2 ∧ rest = l1 ++ l2 ∧ call_id c = k.
Proof.
  revert c rest. induction l as [|x l IH]; intros c rest H; simpl in H; [done|].
  destruct (Nat.eqb_spec (call_id x) k).
  - simplify_eq. by exists [], rest.
  - destruct (takeCall k l) as [[c' rest']|]; simplify_eq/=.
    destruct (IH _ _ eq_refl) as (l1 & l2 & -> & -> & ?).
    by exists (x :: l1), l2.
Qed.

Lemma onDrop_uploads fs w : uploads (onDrop fs w) = uploads w ++ newRows fs.
Proof. destruct fs as [|[i f] rest]; simpl; [by rewrite app_nil_r|done]. Qed.

Lemma onDrop_calls fs w : calls (onDrop fs w) = calls w ++ newCalls fs w.
Proof. destruct fs as [|[i f] rest]; simpl; [by rewrite app_nil_r|done]. Qed.


Lemma upload_At_inv props w t a w' :
  step props w (At t a) = Some w' → act props a (setNow t w) = Some w'.
Proof. simpl. by destruct (_ && _). Qed.

(** Every step but a dismissal maps one updater over the rows and appends
    the row of the file the loop reaches, if any. *)
Lemma step_rows props w e w' :
  step props w e = Some w' → isDismissal e = false →
  ∃ f fs, uploads w' = map (update f) (uploads w) ++ newRows fs
    ∧ (∀ i, f = Ticked i → e = Tick)
    ∧ (e = Tick → fs = [])
    ∧ (fs = droppedBy props e
       ∨ ∃ c, c ∈ calls w ∧ fs = call_rest c).
Proof.
  intros Hs Hd. destruct e as [t a|].
  - apply upload_At_inv in Hs.
    destruct a as [files|k|k err|i]; simpl in *; simplify_eq/=.
    + exists Keep. eexists. rewrite onDrop_uploads. simpl. rewrite map_id.
      repeat split; [done|done|by left].
    + destruct (takeCall k (calls w)) as [[c rest]|] eqn:E; simplify_eq/=.
      apply takeUpload_split in E as (l1 & l2 & Hc & _).
      exists (Done (call_upload c)), (call_rest c).
      unfold resolved. rewrite onDrop_uploads. simpl.
      repeat split; [done|done|right].
      exists c. split; [|done]. rewrite Hc, elem_of_app. right. left.
    + destruct (takeCall k (calls w)) as [[c rest]|] eqn:E; simplify_eq/=.
      apply takeUpload_split in E as (l1 & l2 & Hc & _).
      eexists (Failed (call_upload c) _), (call_rest c).
      unfold rejected. rewrite onDrop_uploads. simpl.
      repeat split; [done|done|right].
      exists c. split; [|done]. rewrite Hc, elem_of_app. right. left.
  - simpl in Hs. destruct (nextInterval _) as [iv|]; simplify_eq/=.
    exists (Ticked (target iv)), []. rewrite app_nil_r.
    repeat split; auto.
Qed.

Lemma update_id f u : id (update f u) = id u.
Proof.
  destruct f; simpl; try done; unfold tick, complete, fail;
    by destruct (String.eqb _ _).
Qed.


Lemma update_progressOk f u : progressOk u → progressOk (update f u).
Proof.
  intros [Hr Hu]. destruct f; simpl; try done;
    unfold tick, complete, fail, progressOk in *;
    destruct (String.eqb _ _); simpl; try done; split; try done; try lia.
Qed.

Lemma update_monotone f u :
  progressOk u → status u = uploading →
  (progress u ≤ progress (update f u))%Z.
Proof.
  intros [Hr Hu] Hs. specialize (Hu Hs). destruct f; simpl; try done;
    unfold tick, complete, fail;
    destruct (String.eqb _ _); simpl; lia.
Qed.

Lemma tick_effect i u :
  status (tick i u) = status u
  ∧ (progress (tick i u) = progress u
     ∨ progress (tick i u) = Z.min (progress u + 10) 90).
Proof. unfold tick. destruct (String.eqb _ _); simpl; auto. Qed.

Lemma newRows_fresh fs :
  Forall (λ u, status u = uploading ∧ progress u = 0%Z ∧ error u = None)
    (newRows fs).
Proof. destruct fs as [|[i f] ?]; simpl; repeat constructor. Qed.

Lemma progressOk_step props w e w' :
  step props w e = Some w' →
  Forall progressOk (uploads w) → Forall progressOk (uploads w').
Proof.
  intros Hs Hok. destruct (isDismissal e) eqn:Hd.
  - destruct e as [t [| | |i]|]; try done.
    apply upload_At_inv in Hs. simpl in Hs. simplify_eq/=.
    apply Forall_forall. intros u Hu%list_elem_of_filter.
    rewrite Forall_forall in Hok. apply Hok, Hu.
  - destruct (step_rows _ _ _ _ Hs Hd) as (f & fs & -> & _).
    apply Forall_app. split.
    + apply Forall_fmap. eapply Forall_impl; [exact Hok|].
      intros u. apply update_progressOk.
    + eapply Forall_impl; [apply newRows_fresh|].
      intros u (Hst & Hp & _). unfold progressOk. rewrite Hp. split; lia.
Qed.

Lemma progressOk_run props evs : ∀ w w',
  run props w evs = Some w' →
  Forall progressOk (uploads w) → Forall progressOk (uploads w').
Proof.
  induction evs as [|e evs IH]; intros w w' Hr Hok; simpl in Hr.
  - by simplify_eq.
  - destruct (step props w e) as [w1|] eqn:E; simplify_eq/=.
    eapply IH; [exact Hr|]. by eapply progressOk_step.
Qed.

(** C7: in every reachable state the progress of every row is an integer
    between 0 and 100, and at most 90 while the row is uploading; a step
    that is not a dismissal keeps every row in place and does not decrease
    the progress of a row that is uploading; a tick leaves the status of a
    row alone and either leaves its progress alone or sets it to the least
    of progress + 10 and 90; a dismissal changes no row it keeps. *)
Theorem progress_never_decreases props evs w :
  run props init evs = Some w →
  Forall progressOk (uploads w)
  ∧ ∀ e w', step props w e = Some w' →
      (isDismissal e = false → ∀ k u, uploads w !! k = Some u →
         ∃ u', uploads w' !! k = Some u' ∧ id u' = id u
           ∧ (status u = uploading → (progress u ≤ progress u')%Z)
           ∧ (e = Tick → status u' = status u
                ∧ (progress u' = progress u
                   ∨ progress u' = Z.min (progress u + 10) 90)))
      ∧ (isDismissal e = true → ∀ u', u' ∈ uploads w' → u' ∈ uploads w).
Proof.
  intros Hrun.
  assert (Forall progressOk (uploads w)) as Hok.
  { eapply progressOk_run; [exact Hrun|]. constructor. }
  split; [done|]. intros e w' Hs. split.
  - intros Hd k u Hk.
    destruct (step_rows _ _ _ _ Hs Hd) as (f & fs & Hu & Hf & He & _).
    exists (update f u). rewrite Hu. split.
    { apply lookup_app_l_Some. by rewrite list_lookup_fmap, Hk. }
    split; [apply update_id|]. split.
    + apply update_monotone. rewrite Forall_forall in Hok.
      apply Hok. by eapply list_elem_of_lookup_2.
    + intros ->. simpl in Hs. rewrite (He eq_refl) in Hu.
      destruct (nextInterval _) as [iv|]; simplify_eq/=.
      rewrite app_nil_r in Hu.
      assert (update f u = tick (target iv) u) as ->.
      { apply (f_equal (λ l, l !! k)) in Hu.
        rewrite !list_lookup_fmap, Hk in Hu. simpl in Hu. by simplify_eq. }
      apply tick_effect.
  - intros Hd. destruct e as [t [| | |i]|]; try done.
    apply upload_At_inv in Hs. simpl in Hs. simplify_eq/=.
    intros u' Hu'%list_elem_of_filter. apply Hu'.
Qed.

Lemma progress_never_decreases_witness :
  ∃ w, run defaultProps init bothSucceed = Some w
    ∧ Forall progressOk (uploads w).
Proof.
  eexists. split; [vm_compute; reflexivity|].
  eapply proj1, (progress_never_decreases defaultProps bothSucceed).
  vm_compute; reflexivity.
Defined.















(** C4, as amended: a drop creates the row of its first accepted file and
    starts that file's call, the remaining accepted files waiting in the
    loop, whatever calls are outstanding from earlier drops; when a call
    settles, with either outcome, the row of the next file of its drop is
    created and that file's call is started. *)
Theorem files_of_a_drop_upload_in_turn props :
  (∀ w t files w',
     step props w (At t (DropFiles files)) = Some w' →
     uploads w' = uploads w ++ newRows (filter (λ f, accepts props f.2) files)
     ∧ calls w' =
         calls w ++ newCalls (filter (λ f, accepts props f.2) files) w)
  ∧ (∀ w t a k c others w',
       takeCall k (calls w) = Some (c, others) →
       a = Uploaded k ∨ (∃ err, a = UploadFailed k err) →
       step props w (At t a) = Some w' →
       ∃ f, uploads w' = map (update f) (uploads w) ++ newRows (call_rest c)
         ∧ calls w' = others ++ newCalls (call_rest c) w).
Proof.
  split.
  - intros w t files w' Hs%upload_At_inv. simpl in Hs. simplify_eq.
    by rewrite onDrop_uploads, onDrop_calls.
  - intros w t a k c others w' Ht Ha Hs%upload_At_inv.
    destruct Ha as [->|[err ->]]; simpl in Hs; rewrite Ht in Hs;
      simplify_eq/=.
    + exists (Done (call_upload c)). unfold resolved.
      by rewrite onDrop_uploads, onDrop_calls.
    + eexists (Failed (call_upload c) _). unfold rejected.
      by rewrite onDrop_uploads, onDrop_calls.
Qed.

Lemma files_of_a_drop_upload_in_turn_witness :
  ∃ w', step defaultProps init (At 0 (DropFiles twoCsv)) = Some w'
    ∧ uploads w' =
        uploads init
        ++ newRows (filter (λ f, accepts defaultProps f.2) twoCsv)
    ∧ calls w' =
        calls init
        ++ newCalls (filter (λ f, accepts defaultProps f.2) twoCsv) init.
Proof.
  eexists. split; [vm_compute; reflexivity|].
  apply (proj1 (files_of_a_drop_upload_in_turn defaultProps) init 0%Z twoCsv).
  vm_compute; reflexivity.
Defined.

(** C4, as stated, fails: of two accepted files dropped together on the
    empty panel, the second has no call once the drop has been handled. *)
Lemma second_file_waits : ¬ startsEveryFile defaultProps init twoCsv.
Proof.
  intros H.
  destruct (H 0%Z _ eq_refl ("p07c2m5dd"%string, csv3MB)) as (c & Hc & Hid).
  - apply list_elem_of_filter. split; [done|]. right. left.
  - vm_compute in Hc. apply list_elem_of_singleton in Hc. subst c. done.
Qed.

(** C3: the success path clears the ticker of its task, the [catch] block
    leaves every running ticker in place; at a failing upload, where the
    call of the only file fails 50 ms after the drop, the row is in error
    with progress 0, its ticker still runs, and the ticks at 100 and 200 ms
    move the progress of the row to 10 and to 20. *)
Theorem failed_upload_keeps_ticking :
  (∀ h w iv, iv ∈ intervals (clearInterval h w) → handle iv ≠ h)
  ∧ (∀ c err w iv, iv ∈ intervals w → iv ∈ intervals (rejected c err w))
  ∧ map shown (history defaultProps init (failsAt50 ++ [Tick; Tick])) =
    [ (0, [], 0%nat); (0, [(uploading, 0)], 1%nat);
      (50, [(failed, 0)], 1%nat); (100, [(failed, 10)], 1%nat);
      (200, [(failed, 20)], 1%nat) ]%Z.
Proof.
  split; [|split].
  - intros h w iv Hin%list_elem_of_filter. apply Hin.
  - intros c err w iv Hin. unfold rejected.
    destruct (call_rest c) as [|[i f] rest]; simpl; [done|].
    rewrite elem_of_app. by left.
  - vm_compute. reflexivity.
Qed.

End UploadFacts.

(** * Facts about the page around the chat panel *)
Module ChatViewFacts.
Import Chat ChatView ChatFacts.

Lemma inv_mounted : Inv mounted.
Proof.
  eapply Inv_ext; [apply inv_init|reflexivity..| |]; simpl; [lia|].
  intros x []%elem_of_nil.
Qed.

(** A step leaves the messages and the flag alone, or appends the user
    message and sets the flag, or appends a reply and clears the flag. *)
Lemma step_messages w e w' :
  Inv w → step w e = Some w' →
  (messages w' = messages w ∧ isProcessing w' = isProcessing w)
  ∨ (isProcessing w = false ∧ isProcessing w' = true
     ∧ ∃ m, messages w' = messages w ++ [m] ∧ msg_type m = user)
  ∨ (isProcessing w = true ∧ isProcessing w' = false
     ∧ ∃ m, messages w' = messages w ++ [m] ∧ msg_type m = assistant).
Proof.
  intros HI Hs. destruct (terminalOf w e) as [|[r o] l] eqn:Et.
  - destruct e as [t a|].
    + apply step_At_inv in Hs as (_ & _ & Ha).
      destruct a as [s|p| |r resp|r]; simpl in *; simplify_eq/=; auto.
      * unfold handleSendMessage. destruct (negb _); [auto|]. simpl.
        destruct (selectedPersona w); [|auto].
        destruct (isProcessing w) eqn:Hp; [auto|]. right. left.
        repeat split. eexists. split; reflexivity.
      * destruct (takeCall _ _) as [[??]|]; simplify_eq/=. auto.
      * destruct (takeCall _ _) as [[??]|]; simplify_eq/=.
    + simpl in *. destruct (nextTimer _) as [[m rest]|]; simplify_eq/=.
      apply runCallback_spec in Hs
        as (_ & _ & _ & _ & _ & _ & _ & Hf & Hm).
      left. unfold finishOf in Et. destruct (callback m); simplify_eq/=; auto.
  - destruct (terminal_effect w e w' r o HI Hs) as (Hp & Hp' & Hrep).
    { rewrite Et. left. }
    right. right. repeat split; [done..|].
    destruct o; simpl in Hrep.
    + destruct Hrep as [(m & Hm & Ht & _) _]. eauto.
    + destruct Hrep as [(m & Hm & Ht & _) _]. eauto.
Qed.

Lemma replicate_pairs_snoc {A} (n : nat) (a b : A) :
  concat (replicate n [a; b]) ++ [a; b] = concat (replicate (S n) [a; b]).
Proof.
  induction n as [|n IH]; [done|]. simpl in *. by rewrite IH.
Qed.

Lemma conversation_run evs : ∀ w w' l,
  Inv w → run w evs = Some w' →
  (∃ n, map msg_type (messages w)
        = l ++ concat (replicate n [user; assistant])
            ++ (if isProcessing w then [user] else [])) →
  ∃ n, map msg_type (messages w')
       = l ++ concat (replicate n [user; assistant])
           ++ (if isProcessing w' then [user] else []).
Proof.
  induction evs as [|e evs IH]; intros w w' l HI Hr Hsh; simpl in Hr.
  - by simplify_eq.
  - destruct (step w e) as [w1|] eqn:E; simplify_eq/=.
    eapply IH; [by eapply inv_step|exact Hr|].
    destruct Hsh as [n Hn].
    destruct (step_messages _ _ _ HI E)
      as [[Hm Hp]|[(Hp & Hp' & m & Hm & Ht)|(Hp & Hp' & m & Hm & Ht)]].
    + exists n. by rewrite Hm, Hp.
    + exists n. rewrite Hm, map_app, Hn, Hp, Hp'. cbn [map].
      by rewrite Ht, app_nil_r, <- !(assoc_L (++)).
    + exists (S n). rewrite <- replicate_pairs_snoc, Hm, map_app, Hn, Hp, Hp'.
      cbn [map]. rewrite Ht, app_nil_r, <- !(assoc_L (++)). done.
Qed.

(** X1: from the mounted page on, the messages are the welcome message
    followed by user messages and replies in turn, one reply (the response
    or the fallback) for each user message; the last message is a user
    message without a reply exactly while a query is processing. *)
Theorem conversation_alternates evs w :
  run mounted evs = Some w →
  ∃ n, map msg_type (messages w)
       = [assistant] ++ concat (replicate n [user; assistant])
         ++ (if isProcessing w then [user] else []).
Proof.
  intros Hr. eapply conversation_run; [apply inv_mounted|exact Hr|].
  by exists 0.
Qed.

Lemma conversation_alternates_witness :
  ∃ w n, run mounted rejectsAt1000 = Some w
    ∧ map msg_type (messages w)
      = [assistant] ++ concat (replicate n [user; assistant])
        ++ (if isProcessing w then [user] else []).
Proof.
  eexists.
  destruct (conversation_alternates rejectsAt1000 _
              ltac:(vm_compute; reflexivity)) as [n Hn].
  exists n. split; [vm_compute; reflexivity|exact Hn].
Defined.


(** Pending ticks are due at most 2500 ms from now. *)
Lemma tick_due_bound w x :
  Inv w → x ∈ timers w → finishOf x = None → (due x ≤ now w + 2500)%Z.
Proof.
  intros HI Hx Hf.
  pose proof (inv_timers _ HI x Hx) as [tr Htr]%lookup_lt_is_Some.
  destruct (inv_tasks _ HI _ _ Htr) as (s & st & [_ T2 T3 T4 _]).
  assert (x ∈ expected s (owner (callback x)) st) as Hin.
  { rewrite <- T4. apply list_elem_of_filter. by split. }
  unfold finishOf in Hf.
  destruct st as [n|n d resp persona|]; simpl in *.
  - do 4 (try destruct n as [|n]); simpl in Hin;
      repeat (apply elem_of_cons in Hin as [->|Hin]); simpl;
      try (by apply elem_of_nil in Hin); lia.
  - apply elem_of_app in Hin as [Hin|Hin].
    + do 4 (try destruct n as [|n]); simpl in Hin;
        repeat (apply elem_of_cons in Hin as [->|Hin]); simpl;
        try (by apply elem_of_nil in Hin); lia.
    + apply list_elem_of_singleton in Hin.
      apply (f_equal callback) in Hin. simpl in Hin. by rewrite Hin in Hf.
  - by apply elem_of_nil in Hin.
Qed.

Lemma idle_no_finish w x :
  Inv w → isProcessing w = false → x ∈ timers w → finishOf x = None.
Proof.
  intros HI Hp Hx. pose proof (inv_flight _ HI) as Hf.
  rewrite Hp in Hf. unfold inFlight, awaiting in Hf. simpl in Hf.
  destruct (finishOf x) as [o|] eqn:E; [|done].
  assert (o ∈ omap finishOf (timers w)) as Hin
    by (apply list_elem_of_omap; eauto).
  destruct (omap finishOf (timers w)); [by apply elem_of_nil in Hin|].
  simpl in Hf. lia.
Qed.

Lemma paced_act w a w' : Inv w → Paced w → act a w = Some w' → Paced w'.
Proof.
  intros HI HP Ha. destruct a as [s|p| |r resp|r]; simpl in Ha.
  - by simplify_eq.
  - by simplify_eq.
  - simplify_eq. unfold handleSendMessage. destruct (negb _); [done|].
    destruct (selectedPersona w); [|done].
    destruct (isProcessing w) eqn:Hp; [done|].
    intros _. exists (now w). simpl. split; [lia|].
    intros x. rewrite <- !(assoc_L (++)). simpl.
    rewrite elem_of_app, !elem_of_cons, elem_of_nil.
    intros [Hx|[->|[->|[->|[]]]]]; simpl; try lia.
    pose proof (idle_no_finish _ _ HI Hp Hx) as Hf.
    pose proof (tick_due_bound _ _ HI Hx Hf). unfold finishOf in Hf.
    by destruct (callback x).
  - destruct (takeCall r (calls w)) as [[c rest]|] eqn:E; simplify_eq/=.
    destruct (sole_call _ _ _ _ HI E) as (_ & _ & _ & _ & Hp).
    destruct (HP Hp) as (s & Hs & Ht). intros _. exists s.
    unfold resolved. simpl. split; [done|].
    intros x. rewrite elem_of_app, list_elem_of_singleton.
    intros [Hx| ->]; simpl; [by apply Ht|lia].
  - destruct (takeCall r (calls w)) as [[c rest]|] eqn:E; simplify_eq/=.
    intros Hp. done.
Qed.

Lemma paced_step w e w' : Inv w → Paced w → step w e = Some w' → Paced w'.
Proof.
  intros HI HP Hs. destruct e as [t a|].
  - apply step_At_inv in Hs as (Ht & Hd & Ha).
    eapply paced_act; [|  |exact Ha].
    + by apply inv_setNow.
    + intros Hp. destruct (HP Hp) as (s & Hs & Hx). exists s. simpl.
      split; [lia|done].
  - simpl in Hs.
    destruct (nextTimer (timers w)) as [[m rest]|] eqn:En; simplify_eq/=.
    apply nextTimer_split in En as (l1 & l2 & Hl & -> & _).
    apply runCallback_spec in Hs as (_ & _ & _ & Ht & _ & Hn & _ & Hp & _).
    simpl in *. intros Hp'. rewrite Hp' in Hp.
    assert (isProcessing w = true) as Hpw by by destruct (callback m).
    destruct (HP Hpw) as (s & Hs & Hx). exists s. rewrite Hn, Ht.
    split; [lia|]. intros x Hin. apply Hx. rewrite Hl.
    apply elem_of_app in Hin as [?|?]; rewrite elem_of_app, elem_of_cons; auto.
Qed.

Lemma paced_run evs : ∀ w w',
  Inv w → Paced w → run w evs = Some w' → Paced w'.
Proof.
  induction evs as [|e evs IH]; intros w w' HI HP Hr; simpl in Hr.
  - by simplify_eq.
  - destruct (step w e) as [w1|] eqn:E; simplify_eq/=.
    eapply IH; [| |exact Hr]; [by eapply inv_step|by eapply paced_step].
Qed.

(** X2: the final tick of a task is the last timer to fire: once it has
    run, no timer is pending and no call is outstanding, so that nothing
    but the next submission changes the trace on display. *)
Theorem success_leaves_no_timer evs w w' :
  run init evs = Some w → step w Fire = Some w' → terminalOf w Fire ≠ [] →
  timers w' = [] ∧ calls w' = [] ∧ isProcessing w' = false
  ∧ ∀ e w'', step w' e = Some w'' → (∃ t, e = At t Send) ∨ view w'' = view w'.
Proof.
  intros Hrun Hs Hte.
  pose proof (inv_reachable _ _ Hrun) as HI.
  assert (Paced w) as HP.
  { eapply paced_run; [apply inv_init| |exact Hrun]. done. }
  destruct (terminalOf w Fire) as [|[r o] l] eqn:Et; [done|].
  destruct (terminal_effect w Fire w' r o HI Hs) as (Hp & Hp' & _).
  { rewrite Et. left. }
  pose proof (awaiting_short _ HI) as Hlen.
  pose proof (inv_flight _ HI) as Hfl. rewrite Hp in Hfl.
  unfold inFlight in Hfl. simpl in Hfl.
  simpl in Hs, Et.
  destruct (nextTimer (timers w)) as [[m rest]|] eqn:En; simplify_eq/=.
  apply nextTimer_split in En as (l1 & l2 & Hl & -> & Hlt & Hle).
  apply runCallback_spec in Hs as (tr0 & _ & Hh & Ht & Hc & _).
  simpl in Ht, Hc.
  destruct (finishOf m) as [o'|] eqn:Em; [|done].
  unfold awaiting in Hlen, Hfl. rewrite Hl, omap_app, omap_cons', Em in Hlen, Hfl.
  rewrite length_app in Hlen, Hfl. cbn [length] in Hlen, Hfl.
  destruct (HP Hp) as (s & Hs & Hx).
  assert (s + 3500 ≤ due m)%Z as Hdm.
  { specialize (Hx m). rewrite Hl, elem_of_app, elem_of_cons in Hx.
    specialize (Hx (or_intror (or_introl eq_refl))).
    unfold finishOf in Em. by destruct (callback m). }
  assert (∀ x, x ∈ l1 ++ l2 → (due m ≤ due x)%Z → False) as Hno.
  { intros x Hin Hd.
    assert (x ∈ timers w) as Hxw.
    { rewrite Hl. apply elem_of_app in Hin as [?|?];
        rewrite elem_of_app, elem_of_cons; auto. }
    specialize (Hx x Hxw).
    destruct (finishOf x) as [ox|] eqn:Ex.
    - apply elem_of_app in Hin as [Hin|Hin].
      + assert (ox ∈ omap finishOf l1) by (apply list_elem_of_omap; eauto).
        destruct (omap finishOf l1); [by apply elem_of_nil in H|].
        simpl in Hlen. lia.
      + assert (ox ∈ omap finishOf l2) by (apply list_elem_of_omap; eauto).
        destruct (omap finishOf l2); [by apply elem_of_nil in H|].
        simpl in Hlen. lia.
    - unfold finishOf in Ex. destruct (callback x); simplify_eq; lia. }
  assert (l1 ++ l2 = []) as Hnil.
  { apply elem_of_nil_inv. intros x Hin. apply (Hno x Hin).
    rewrite Forall_forall in Hlt, Hle.
    apply elem_of_app in Hin as [Hin|Hin];
      [specialize (Hlt x Hin); lia|by apply Hle]. }
  rewrite Hnil in Ht.
  assert (calls w = []) as Hcw by (destruct (calls w); [done|simpl in Hfl; lia]).
  rewrite Hcw in Hc.
  repeat split; [done..|].
  intros e w'' Hs'. destruct e as [t a|].
  - apply step_At_inv in Hs' as (_ & _ & Ha).
    destruct a as [q|p| |r' resp|r']; simpl in Ha; simplify_eq/=; eauto.
    + rewrite Hc in Ha. done.
    + rewrite Hc in Ha. done.
  - simpl in Hs'. rewrite Ht in Hs'. done.
Qed.

Lemma success_leaves_no_timer_witness :
  ∃ w w', run init (submit ++ [Fire; Fire; Fire; At 3000 (Resolve 0 revenue)])
          = Some w
    ∧ step w Fire = Some w' ∧ timers w' = [] ∧ calls w' = [].
Proof.
  do 2 eexists. split; [vm_compute; reflexivity|].
  split; [vm_compute; reflexivity|].
  edestruct (success_leaves_no_timer
               (submit ++ [Fire; Fire; Fire; At 3000 (Resolve 0 revenue)]))
    as (Ht & Hc & _).
  - vm_compute; reflexivity.
  - vm_compute; reflexivity.
  - vm_compute. discriminate.
  - split; [exact Ht|exact Hc].
Defined.


Lemma runCallback_suggestions cb w w' :
  runCallback cb w = Some w' →
  suggestedQueries w' =
    match cb with
    | Finish _ resp _ => default [] (suggested_queries resp)
    | _ => suggestedQueries w
    end.
Proof.
  intros H. destruct cb as [r|r|r|r resp persona];
    unfold runCallback, publishCopy in H; cbn [heap setHeap] in H;
    destruct (alter _ r (heap w) !! r) as [tr|]; simplify_eq/=; done.
Qed.

Lemma step_suggestions w e w' :
  step w e = Some w' →
  suggestedQueries w' = lastSuggestions (suggestedQueries w) (terminalOf w e).
Proof.
  intros Hs. destruct e as [t a|].
  - apply step_At_inv in Hs as (_ & _ & Ha).
    destruct a as [s|p| |r resp|r]; simpl in *; simplify_eq/=; try done.
    + unfold handleSendMessage. destruct (negb _); [done|]. simpl.
      destruct (selectedPersona w); [|done]. by destruct (isProcessing w).
    + destruct (takeCall _ _) as [[??]|]; simplify_eq/=. done.
    + destruct (takeCall _ _) as [[??]|]; simplify_eq/=. done.
  - simpl in *. destruct (nextTimer _) as [[m rest]|]; simplify_eq/=.
    apply runCallback_suggestions in Hs. rewrite Hs. unfold finishOf.
    by destruct (callback m).
Qed.

Lemma suggestions_run evs : ∀ w w',
  run w evs = Some w' →
  suggestedQueries w' = lastSuggestions (suggestedQueries w) (terminals w evs).
Proof.
  induction evs as [|e evs IH]; intros w w' Hr; simpl in Hr.
  - by simplify_eq.
  - destruct (step w e) as [w1|] eqn:E; simplify_eq/=.
    rewrite E. unfold lastSuggestions. rewrite foldl_app.
    fold (lastSuggestions (suggestedQueries w) (terminalOf w e)).
    rewrite <- (step_suggestions _ _ _ E). by apply IH.
Qed.

(** X3: the suggestions held by the panel are those of the last call that
    completed successfully, the empty list when that response carried none;
    a rejection and a new submission leave them as they are.  The chips
    under the input are their first three, and none while a query is
    processing. *)
Theorem suggestions_follow_last_response evs w :
  run init evs = Some w →
  suggestedQueries w = lastSuggestions [] (terminals init evs)
  ∧ suggestionChips w =
      (if isProcessing w then []
       else take 3 (lastSuggestions [] (terminals init evs)))
  ∧ length (suggestionChips w) ≤ 3.
Proof.
  intros Hr. pose proof (suggestions_run _ _ _ Hr) as Hs. simpl in Hs.
  split; [done|]. unfold suggestionChips. rewrite <- Hs.
  destruct (isProcessing w); cbn [negb].
  - rewrite andb_false_r. split; [done|simpl; lia].
  - rewrite andb_true_r.
    assert ((if 0 <? length (suggestedQueries w)
             then take 3 (suggestedQueries w) else [])
            = take 3 (suggestedQueries w)) as ->
      by (by destruct (suggestedQueries w)).
    split; [done|]. rewrite length_take. lia.
Qed.

Lemma suggestions_follow_last_response_witness :
  ∃ w, run init resolvesAt3000 = Some w
    ∧ suggestedQueries w = lastSuggestions [] (terminals init resolvesAt3000).
Proof.
  eexists. split; [vm_compute; reflexivity|].
  eapply proj1, (suggestions_follow_last_response resolvesAt3000).
  vm_compute; reflexivity.
Defined.

Lemma sendDisabled_noop w : sendDisabled w = true → handleSendMessage w = w.
Proof.
  unfold sendDisabled, handleSendMessage. intros H.
  destruct (negb _); [done|]. destruct (selectedPersona w); [|done].
  simpl in H. by rewrite H.
Qed.

Lemma sendEnabled_starts w :
  sendDisabled w = false → isProcessing (handleSendMessage w) = true.
Proof.
  unfold sendDisabled, handleSendMessage. intros H.
  apply orb_false_elim in H as [H Hp]. apply orb_false_elim in H as [Hi Hs].
  rewrite Hi. destruct (selectedPersona w); [|done]. by rewrite Hp.
Qed.

(** X4: the send button is enabled exactly in the states in which a
    submission changes the state; a key press changes the state exactly
    when it is Enter without Shift and the button is enabled; and the
    button is disabled whenever the input is. *)
Theorem send_button_matches_guard w e :
  (sendDisabled w = false ↔ handleSendMessage w ≠ w)
  ∧ (handleKeyPress e w ≠ w ↔
       key e = lit "Enter" ∧ shiftKey e = false ∧ sendDisabled w = false)
  ∧ (inputDisabled w = true → sendDisabled w = true).
Proof.
  assert (sendDisabled w = false ↔ handleSendMessage w ≠ w) as Hsend.
  { split.
    - intros Hd Heq. pose proof (sendEnabled_starts _ Hd) as Hp.
      rewrite Heq in Hp. unfold sendDisabled in Hd.
      by rewrite Hp, orb_true_r in Hd.
    - intros Hne. destruct (sendDisabled w) eqn:Hd; [|done].
      by apply sendDisabled_noop in Hd. }
  split; [done|]. split.
  - unfold handleKeyPress. case_bool_decide as Hk; simpl.
    + destruct (shiftKey e); simpl.
      * split; [done|]. by intros (_ & ? & _).
      * rewrite <- Hsend. split; [by intros ?|by intros (_ & _ & ?)].
    + split; [done|]. by intros (? & _).
  - unfold inputDisabled, sendDisabled. intros H.
    rewrite <- orb_assoc, H. apply orb_true_r.
Qed.

Lemma faithful_step w e w' :
  Inv w → Faithful w → step w e = Some w' → Faithful w'.
Proof.
  intros HI HF Hs. destruct e as [t a|].
  - apply step_At_inv in Hs as (Ht & Hd & Ha).
    assert (Inv (setNow t w)) as HI' by by apply inv_setNow.
    destruct a as [s|p| |r resp|r]; simpl in Ha; simplify_eq/=; try done.
    + unfold handleSendMessage. destruct (negb _); [done|]. simpl.
      destruct (selectedPersona w) as [persona|]; [|done].
      destruct (isProcessing w) eqn:Hp; [done|].
      pose proof (inv_flight _ HI) as Hf. rewrite Hp in Hf.
      unfold inFlight in Hf. simpl in Hf.
      assert (calls w = []) as Hc by (destruct (calls w); [done|simpl in Hf; lia]).
      intros c. simpl. rewrite Hc. simpl.
      intros ->%list_elem_of_singleton. simpl.
      do 2 eexists. split.
      { rewrite lookup_app_r by done. by rewrite Nat.sub_diag. }
      rewrite last_snoc. repeat split; reflexivity.
    + destruct (takeCall r (calls w)) as [[c rest]|] eqn:E; simplify_eq/=.
      destruct (sole_call _ _ _ _ HI E) as (_ & -> & _).
      intros c' Hc'. unfold resolved in Hc'. simpl in Hc'.
      by apply elem_of_nil in Hc'.
    + destruct (takeCall r (calls w)) as [[c rest]|] eqn:E; simplify_eq/=.
      destruct (sole_call _ _ _ _ HI E) as (_ & -> & _).
      intros c' Hc'. unfold rejected in Hc'. simpl in Hc'.
      by apply elem_of_nil in Hc'.
  - simpl in Hs.
    destruct (nextTimer (timers w)) as [[m rest]|] eqn:En; simplify_eq/=.
    apply nextTimer_split in En as (l1 & l2 & Hl & -> & _).
    apply runCallback_spec in Hs
      as (tr0 & Htr0 & Hh & _ & Hc & _ & _ & _ & Hm).
    simpl in *. intros c Hin. rewrite Hc in Hin.
    destruct (HF c Hin) as (tr & m0 & Htr & Hq & Hpt & Hlast & Hty & Hct).
    pose proof (takeCall_is_Some _ _ Hin) as [[c' rest'] Htk].
    destruct (sole_call _ _ _ _ HI Htk) as (_ & _ & _ & Ha & _).
    unfold awaiting in Ha. rewrite Hl, omap_app, omap_cons' in Ha.
    assert (finishOf m = None) as Hfm.
    { destruct (finishOf m); [|done]. by destruct (omap finishOf l1). }
    assert (messages w' = messages w) as Hmsg.
    { rewrite Hm. unfold finishOf in Hfm. by destruct (callback m). }
    rewrite Hmsg, Hh.
    destruct (decide (call_trace c = owner (callback m))) as [Heq|Hne].
    + exists (mutation (callback m) tr0), m0.
      rewrite Heq, list_lookup_alter_eq, Htr0. simpl.
      rewrite Heq, Htr0 in Htr. simplify_eq.
      rewrite query_mutation. done.
    + exists tr, m0. rewrite list_lookup_alter_ne by done. done.
Qed.

Lemma faithful_run evs : ∀ w w',
  Inv w → Faithful w → run w evs = Some w' → Faithful w'.
Proof.
  induction evs as [|e evs IH]; intros w w' HI HF Hr; simpl in Hr.
  - by simplify_eq.
  - destruct (step w e) as [w1|] eqn:E; simplify_eq/=.
    eapply IH; [| |exact Hr]; [by eapply inv_step|by eapply faithful_step].
Qed.

(** X5: in every state reachable from the mounted page, an outstanding
    call was sent the query recorded in its trace, which is the text of the
    last message, a user message, and the type of the persona it captured,
    whatever has been typed or selected since the submission. *)
Theorem request_is_what_was_submitted evs w c :
  run mounted evs = Some w → c ∈ calls w →
  ∃ tr m, heap w !! call_trace c = Some tr
    ∧ query tr = req_query (call_request c)
    ∧ req_persona_type (call_request c) = persona_type (call_persona c)
    ∧ last (messages w) = Some m ∧ msg_type m = user
    ∧ content m = req_query (call_request c).
Proof.
  intros Hr. revert c.
  eapply faithful_run; [apply inv_mounted| |exact Hr].
  intros c []%elem_of_nil.
Qed.

Lemma request_is_what_was_submitted_witness :
  ∃ w c tr m,
    run mounted (submit ++ [At 100 (Typing (lit "next")); At 200 (Select analyst)])
      = Some w
    ∧ c ∈ calls w ∧ heap w !! call_trace c = Some tr
    ∧ query tr = req_query (call_request c)
    ∧ req_persona_type (call_request c) = persona_type (call_persona c)
    ∧ last (messages w) = Some m ∧ msg_type m = user
    ∧ content m = req_query (call_request c).
Proof.
  eexists. eexists.
  edestruct (request_is_what_was_submitted
    (submit ++ [At 100 (Typing (lit "next")); At 200 (Select analyst)]))
    as (tr & m & H).
  - vm_compute; reflexivity.
  - vm_compute. left.
  - exists tr, m. split; [vm_compute; reflexivity|].
    split; [vm_compute; left|]. exact H.
Defined.


(** The five shapes of a trace, and what the right panel makes of them. *)
Lemma trace_cases w tr :
  Inv w → (∃ r, heap w !! r = Some tr) ∨ view w = Some tr →
  ∃ q, tr = ticked 0 (freshTrace q) ∨ tr = ticked 1 (freshTrace q)
    ∨ tr = ticked 2 (freshTrace q) ∨ tr = ticked 3 (freshTrace q)
    ∨ ∃ resp, tr = finish resp (ticked 3 (freshTrace q)).
Proof.
  intros HI Htr.
  destruct (shown_or_stored _ _ HI Htr) as (q & n & Hn & [->|[-> [resp ->]]]);
    exists q; [|eauto 10].
  do 4 (try destruct n as [|n]); try lia; auto.
Qed.

(** X6: in every reachable state, a trace object and the trace on display
    have the four steps of the pipeline in order; none of them is ever in
    error, also when the call has rejected; exactly one step is processing
    until the result is attached, and none from then on. *)
Theorem one_step_is_processing evs w tr :
  run init evs = Some w →
  (∃ r, heap w !! r = Some tr) ∨ view w = Some tr →
  map step_name (steps tr)
    = [lit "Query Analysis"; lit "Document Retrieval";
       lit "Agent Processing"; lit "Response Generation"]
  ∧ Forall (λ st, status st ≠ failed) (steps tr)
  ∧ length (filter (λ st, status st = processing) (steps tr))
    = match finalResult tr with Some _ => 0 | None => 1 end.
Proof.
  intros Hrun Htr.
  destruct (trace_cases _ _ (inv_reachable _ _ Hrun) Htr)
    as (q & [->|[->|[->|[->|[resp ->]]]]]);
    (split; [reflexivity|split; [by repeat constructor|reflexivity]]).
Qed.

Lemma one_step_is_processing_witness :
  ∃ w tr, run init rejectsAt1000 = Some w ∧ heap w !! 0 = Some tr
    ∧ length (filter (λ st, status st = processing) (steps tr))
      = match finalResult tr with Some _ => 0 | None => 1 end.
Proof.
  do 2 eexists. split; [vm_compute; reflexivity|].
  split; [vm_compute; reflexivity|].
  eapply proj2, proj2, (one_step_is_processing rejectsAt1000).
  - vm_compute; reflexivity.
  - left. exists 0. vm_compute; reflexivity.
Defined.

(** X7: whenever the right panel shows a trace card in a reachable state,
    a row carries a duration label exactly when its icon is the check
    mark, and never a bare 0; either the Total Time line is there, reads
    3500 and every row has the check mark, or it is missing and one row
    has the spinner. *)
Theorem trace_card_is_consistent evs w card :
  run init evs = Some w → rightPanel w = Some card →
  Forall (λ r, row_duration r ≠ BareZero
               ∧ ((∃ d, row_duration r = Label d) ↔ row_icon r = CheckCircle))
    (card_rows card)
  ∧ (card_total card = Some 3500%Z
       ∧ Forall (λ r, row_icon r = CheckCircle) (card_rows card)
     ∨ card_total card = None
       ∧ ∃ r, r ∈ card_rows card ∧ row_icon r = Loader2).
Proof.
  intros Hrun Hc. unfold rightPanel in Hc.
  destruct (view w) as [tr|] eqn:Hv; simplify_eq/=.
  split.
  - apply Forall_fmap.
    assert (Forall (λ st, status st = completed
                          ∧ (∃ d, duration st = Some d ∧ d ≠ 0%Z)
                          ∨ status st ≠ completed ∧ duration st = None)
              (steps tr)) as Hst.
    { destruct (trace_cases w tr (inv_reachable _ _ Hrun) (or_intror Hv))
        as (q & [->|[->|[->|[->|[resp ->]]]]]);
        repeat (constructor;
                [first [by right|left; split; [done|]; eexists; by split]|]);
        constructor. }
    eapply Forall_impl; [exact Hst|]. intros st. unfold renderStep. simpl.
    intros [[-> (d & -> & Hd)]|[Hs ->]]; simpl.
    + apply Z.eqb_neq in Hd. rewrite Hd. split; [done|]. split; eauto.
    + split; [done|]. split; [by intros [? ?]|].
      by destruct (status st).
  - destruct (trace_cases w tr (inv_reachable _ _ Hrun) (or_intror Hv))
      as (q & [->|[->|[->|[->|[resp ->]]]]]).
    1-4: right; split; [reflexivity|];
         first
           [ by (eexists; split; [apply list_elem_of_here|])
           | by (eexists; split;
                   [apply list_elem_of_further, list_elem_of_here|])
           | by (eexists; split;
                   [do 2 apply list_elem_of_further; apply list_elem_of_here|])
           | by (eexists; split;
                   [do 3 apply list_elem_of_further; apply list_elem_of_here|]) ].
    left. split; [reflexivity|]. by repeat constructor.
Qed.

Lemma trace_card_is_consistent_witness :
  ∃ w card, run init resolvesAt3000 = Some w ∧ rightPanel w = Some card
    ∧ card_total card = Some 3500%Z.
Proof.
  do 2 eexists. split; [vm_compute; reflexivity|].
  split; [vm_compute; reflexivity|].
  edestruct (trace_card_is_consistent resolvesAt3000) as [_ [[H _]|[H _]]].
  - vm_compute; reflexivity.
  - vm_compute; reflexivity.
  - exact H.
  - vm_compute in H. discriminate H.
Defined.

End ChatViewFacts.

(** * More facts about the upload panel *)
Module UploadViewFacts.
Import Upload UploadView UploadFacts.

Lemma onDrop_intervals fs w :
  intervals (onDrop fs w) = intervals w ++ newTickers fs w.
Proof. destruct fs as [|[i f] rest]; simpl; [by rewrite app_nil_r|done]. Qed.

Lemma onDrop_nextHandle fs w :
  nextHandle (onDrop fs w) = nextHandle w + length (newTickers fs w).
Proof. destruct fs as [|[i f] rest]; simpl; lia. Qed.

Lemma nextInterval_elem (l : list Interval) iv :
  nextInterval l = Some iv → iv ∈ l.
Proof.
  revert iv. induction l as [|x l IH]; intros iv H; simpl in H; [done|].
  destruct (nextInterval l) as [m|].
  - destruct (_ <=? _)%Z; simplify_eq; [left|right; by apply IH].
  - simplify_eq. left.
Qed.

Lemma update_other f i u :
  (f = Ticked i ∨ f = Done i ∨ ∃ msg, f = Failed i msg) →
  id u ≠ i → update f u = u.
Proof.
  intros Hf Hne. apply String.eqb_neq in Hne.
  destruct Hf as [->|[->|[msg ->]]]; simpl;
    unfold tick, complete, fail; by rewrite Hne.
Qed.

(** The rows after a step that is not a dismissal, with the id the
    updater looks for. *)
Lemma step_rows_touch props w e w' :
  step props w e = Some w' → isDismissal e = false →
  ∃ f fs, uploads w' = map (update f) (uploads w) ++ newRows fs
    ∧ (f = Keep
       ∨ ∃ i, touches w e = Some i
              ∧ (f = Ticked i ∨ f = Done i ∨ ∃ msg, f = Failed i msg)).
Proof.
  intros Hs Hd. destruct e as [t a|].
  - apply upload_At_inv in Hs.
    destruct a as [files|k|k err|i]; simpl in *; simplify_eq/=.
    + exists Keep. eexists. rewrite onDrop_uploads. simpl. rewrite map_id.
      split; [done|by left].
    + destruct (takeCall k (calls w)) as [[c rest]|] eqn:E; simplify_eq/=.
      exists (Done (call_upload c)), (call_rest c).
      unfold resolved. rewrite onDrop_uploads. simpl.
      split; [done|right]. eauto.
    + destruct (takeCall k (calls w)) as [[c rest]|] eqn:E; simplify_eq/=.
      eexists (Failed (call_upload c) _), (call_rest c).
      unfold rejected. rewrite onDrop_uploads. simpl.
      split; [done|right]. eauto 10.
  - simpl in Hs. destruct (nextInterval _) as [iv|] eqn:E; simplify_eq/=.
    exists (Ticked (target iv)), []. rewrite app_nil_r.
    split; [done|right]. rewrite E. eauto.
Qed.

Lemma rows_off_target_kept props w e w' j u :
  step props w e = Some w' → isDismissal e = false →
  uploads w !! j = Some u → touches w e ≠ Some (id u) →
  uploads w' !! j = Some u.
Proof.
  intros Hs Hd Hj Hne.
  destruct (step_rows_touch _ _ _ _ Hs Hd) as (f & fs & -> & Hf).
  apply lookup_app_l_Some. rewrite list_lookup_fmap, Hj. simpl. f_equal.
  destruct Hf as [->|(i & Hi & Hf)]; [done|].
  apply (update_other f i); [done|]. intros Heq. apply Hne. by rewrite Heq.
Qed.

(** X8: a step that is not a dismissal rewrites only the rows whose id is
    that of the call that settles or of the ticker that fires; every other
    row stays as it is, in its place: the failure, the success and the
    ticks of one upload change no row of another. *)
Theorem other_rows_untouched props w e w' j u :
  step props w e = Some w' → isDismissal e = false →
  uploads w !! j = Some u → touches w e ≠ Some (id u) →
  uploads w' !! j = Some u.
Proof. apply rows_off_target_kept. Qed.

Lemma other_rows_untouched_witness :
  ∃ w w' u,
    run defaultProps init
      [At 0 (DropFiles twoCsv); Tick; Tick; At 250 (UploadFailed 0 None)]
      = Some w
    ∧ step defaultProps w Tick = Some w'
    ∧ uploads w !! 1 = Some u ∧ uploads w' !! 1 = Some u.
Proof.
  do 3 eexists. split; [vm_compute; reflexivity|].
  match goal with |- step _ ?w _ = _ ∧ _ => pose (w0 := w) end.
  split; [vm_compute; reflexivity|].
  split; [vm_compute; reflexivity|].
  eapply (other_rows_untouched defaultProps w0 Tick).
  - vm_compute; reflexivity.
  - reflexivity.
  - vm_compute; reflexivity.
  - vm_compute. discriminate.
Defined.


Lemma map_update_absent f i (l : list FileUpload) :
  (f = Ticked i ∨ f = Done i ∨ ∃ msg, f = Failed i msg) →
  (∀ u, u ∈ l → id u ≠ i) → map (update f) l = l.
Proof.
  intros Hf Hl. induction l as [|u l IH]; [done|]. simpl.
  rewrite (update_other f i u), IH; auto.
  - intros u' Hu'. apply Hl. by right.
  - apply Hl. left.
Qed.

(** X9: a dismissal removes the rows of the id, keeps the others in their
    order and cancels neither the call nor the ticker; when a call settles
    whose rows are gone, with either outcome, no row changes, and the row
    of the next file of its drop is still created. *)
Theorem dismissed_upload_settles_silently props :
  (∀ w t i w',
     step props w (At t (Dismiss i)) = Some w' →
     uploads w' = filter (λ u, id u ≠ i) (uploads w)
     ∧ Forall (λ u, id u ≠ i) (uploads w')
     ∧ intervals w' = intervals w ∧ calls w' = calls w)
  ∧ (∀ w t a k c others w',
       takeCall k (calls w) = Some (c, others) →
       a = Uploaded k ∨ (∃ err, a = UploadFailed k err) →
       (∀ u, u ∈ uploads w → id u ≠ call_upload c) →
       step props w (At t a) = Some w' →
       uploads w' = uploads w ++ newRows (call_rest c)).
Proof.
  split.
  - intros w t i w' Hs%upload_At_inv. simpl in Hs. simplify_eq/=.
    repeat split. apply Forall_forall.
    by intros u [? _]%list_elem_of_filter.
  - intros w t a k c others w' Ht Ha Hno Hs%upload_At_inv.
    destruct Ha as [->|[err ->]]; simpl in Hs; rewrite Ht in Hs;
      simplify_eq/=.
    + unfold resolved. rewrite onDrop_uploads. simpl.
      pose proof (map_update_absent (Done (call_upload c)) (call_upload c)
                    (uploads w)) as Hm.
      change (update (Done (call_upload c)))
        with (complete (call_upload c)) in Hm.
      rewrite Hm; auto.
    + unfold rejected. rewrite onDrop_uploads. simpl.
      match goal with |- map (fail _ ?msg) _ ++ _ = _ =>
        pose proof (map_update_absent (Failed (call_upload c) msg)
                      (call_upload c) (uploads w)) as Hm
      end.
      match type of Hm with context [update (Failed ?i ?m)] =>
        change (update (Failed i m)) with (fail i m) in Hm
      end.
      rewrite Hm; eauto.
Qed.

Lemma dismissed_upload_settles_silently_witness :
  ∃ w c w',
    run defaultProps init
      [At 0 (DropFiles twoCsv); Tick; At 150 (Dismiss "k3x9q0a1z"%string)]
      = Some w
    ∧ takeCall 0 (calls w) = Some (c, [])
    ∧ step defaultProps w (At 180 (Uploaded 0)) = Some w'
    ∧ uploads w' = uploads w ++ newRows (call_rest c).
Proof.
  do 3 eexists. split; [vm_compute; reflexivity|].
  match goal with |- takeCall _ (calls ?w) = _ ∧ _ => pose (w0 := w) end.
  split; [vm_compute; reflexivity|].
  split; [vm_compute; reflexivity|].
  eapply (proj2 (dismissed_upload_settles_silently defaultProps)
            w0 180%Z (Uploaded 0) 0).
  - vm_compute; reflexivity.
  - by left.
  - intros u Hu. vm_compute in Hu. by apply elem_of_nil in Hu.
  - vm_compute; reflexivity.
Defined.

Lemma afterTicks_step props i file n :
  step props (afterTicks i file n) Tick = Some (afterTicks i file (S n)).
Proof.
  unfold afterTicks, step. simpl.
  unfold setIntervals, setUploads, setNow, tick, reschedule. simpl.
  rewrite String.eqb_refl, Nat2Z.inj_succ.
  repeat (f_equal; try lia).
Qed.

Lemma run_cons props w e evs :
  run props w (e :: evs) = step props w e ≫= λ w', run props w' evs.
Proof. reflexivity. Qed.

Lemma bind_Some_l {A B} (x : A) (f : A → option B) : Some x ≫= f = f x.
Proof. reflexivity. Qed.

Lemma afterTicks_run props i file n : ∀ m,
  run props (afterTicks i file m) (replicate n Tick)
  = Some (afterTicks i file (m + n)).
Proof.
  induction n as [|n IH]; intros m.
  - by rewrite Nat.add_0_r.
  - cbn [replicate]. rewrite run_cons, afterTicks_step, bind_Some_l, IH.
    do 2 f_equal. lia.
Qed.

(** X10: with one accepted file dropped at 0 and its call outstanding, the
    n-th tick comes at 100 n ms and leaves the row uploading with progress
    the least of 10 n and 90: the bar gains 10 points every 100 ms and
    stays at 90 from 900 ms on, while its ticker keeps running. *)
Theorem bar_stalls_at_90 props i file n :
  accepts props file = true →
  run props init (At 0 (DropFiles [(i, file)]) :: replicate n Tick)
  = Some (afterTicks i file n).
Proof.
  intros Hacc. rewrite run_cons.
  assert (step props init (At 0 (DropFiles [(i, file)]))
          = Some (afterTicks i file 0)) as ->.
  { assert (filter (λ f : string * File, accepts props f.2) [(i, file)]
            = [(i, file)]) as Hf
      by (rewrite filter_cons_True by (simpl; by rewrite Hacc); done).
    cbn -[filter]. by rewrite Hf. }
  by rewrite bind_Some_l, afterTicks_run.
Qed.

Lemma bar_stalls_at_90_witness :
  accepts defaultProps csv2MB = true
  ∧ run defaultProps init
      (At 0 (DropFiles [("k3x9q0a1z"%string, csv2MB)]) :: replicate 12 Tick)
    = Some (afterTicks "k3x9q0a1z" csv2MB 12).
Proof.
  split; [reflexivity|]. apply bar_stalls_at_90. reflexivity.
Defined.


Lemma driven_onDrop fs w : Driven w → Driven (onDrop fs w).
Proof.
  intros [H1 H2 H3 H4]. destruct fs as [|[i f] rest]; [done|].
  constructor; simpl.
  - intros c [Hc| ->%list_elem_of_singleton]%elem_of_app; simpl;
      [specialize (H1 c Hc)|]; lia.
  - intros iv [Hiv| ->%list_elem_of_singleton]%elem_of_app; simpl;
      [specialize (H2 iv Hiv)|]; lia.
  - rewrite map_app. simpl. apply NoDup_app. split; [done|].
    split; [|apply NoDup_singleton].
    intros h (c & -> & Hc)%list_elem_of_fmap Heq%list_elem_of_singleton.
    specialize (H1 c Hc). lia.
  - intros u [Hu| ->%list_elem_of_singleton]%elem_of_app.
    + destruct (H4 u Hu) as [Hp Hup]. split; [done|].
      intros Hs. destruct (Hup Hs) as (c & iv & Hc & Hcu & Hiv & Hh & Ht).
      exists c, iv. rewrite !elem_of_app. auto 10.
    + split; [done|]. intros _. do 2 eexists.
      rewrite !elem_of_app, !list_elem_of_singleton.
      split; [by right|]. split; [done|]. split; [by right|done].
Qed.

Lemma elem_of_middle_inv {A} (x y : A) l1 l2 :
  x ∈ l1 ++ y :: l2 → x = y ∨ x ∈ l1 ++ l2.
Proof. rewrite !elem_of_app, elem_of_cons. tauto. Qed.

Lemma elem_of_middle {A} (x y : A) l1 l2 :
  x ∈ l1 ++ l2 → x ∈ l1 ++ y :: l2.
Proof. rewrite !elem_of_app, elem_of_cons. tauto. Qed.

Lemma NoDup_fmap_middle {A B} (f : A → B) l1 c l2 x :
  NoDup (map f (l1 ++ c :: l2)) → x ∈ l1 ++ l2 → f x ≠ f c.
Proof.
  rewrite map_app. simpl. intros Hnd Hx Heq.
  apply NoDup_app in Hnd as (_ & Hd & Hnd). apply NoDup_cons in Hnd as [Hc _].
  apply elem_of_app in Hx as [Hx|Hx].
  - apply (Hd (f c)); [|left]. rewrite <- Heq. apply list_elem_of_fmap. eauto.
  - apply Hc. rewrite <- Heq. apply list_elem_of_fmap. eauto.
Qed.

Lemma NoDup_fmap_remove {A B} (f : A → B) l1 c l2 :
  NoDup (map f (l1 ++ c :: l2)) → NoDup (map f (l1 ++ l2)).
Proof.
  rewrite !map_app. simpl. intros Hnd.
  apply NoDup_app in Hnd as (H1 & Hd & Hnd). apply NoDup_cons in Hnd as [_ H2].
  apply NoDup_app. repeat split; [done| |done].
  intros x Hx Hx2. apply (Hd x Hx). by right.
Qed.

Lemma reschedule_same h iv :
  handle (reschedule h iv) = handle iv ∧ target (reschedule h iv) = target iv.
Proof. unfold reschedule. by destruct (Nat.eqb _ _). Qed.

Lemma tick_same i u : id (tick i u) = id u ∧ status (tick i u) = status u.
Proof. unfold tick. by destruct (String.eqb _ _). Qed.

Lemma driven_step props w e w' :
  Driven w → step props w e = Some w' → Driven w'.
Proof.
  intros HD Hs. destruct e as [t a|].
  - apply upload_At_inv in Hs.
    assert (Driven (setNow t w)) as HD' by (by destruct HD).
    destruct a as [files|k|k err|i]; simpl in Hs; simplify_eq/=.
    + by apply driven_onDrop.
    + destruct (takeCall k (calls w)) as [[c rest]|] eqn:E; simplify_eq/=.
      apply takeUpload_split in E as (l1 & l2 & Hc & -> & _).
      apply driven_onDrop. destruct HD as [H1 H2 H3 H4]. rewrite Hc in *.
      constructor; simpl.
      * intros c' Hc'. by apply H1, elem_of_middle.
      * intros iv [_ Hiv]%list_elem_of_filter. by apply H2.
      * by eapply NoDup_fmap_remove.
      * intros u' (u & -> & Hu)%list_elem_of_fmap.
        destruct (H4 u Hu) as [Hp Hup]. unfold complete.
        destruct (String.eqb_spec (id u) (call_upload c)) as [Heq|Hne];
          [done|].
        split; [done|]. intros Hst.
        destruct (Hup Hst) as (c' & iv & Hc' & Hcu & Hiv & Hh & Ht).
        apply elem_of_middle_inv in Hc' as [->|Hc']; [congruence|].
        exists c', iv. repeat split; try done.
        apply list_elem_of_filter. split; [|done]. rewrite Hh.
        by eapply (NoDup_fmap_middle call_interval).
    + destruct (takeCall k (calls w)) as [[c rest]|] eqn:E; simplify_eq/=.
      apply takeUpload_split in E as (l1 & l2 & Hc & -> & _).
      apply driven_onDrop. destruct HD as [H1 H2 H3 H4]. rewrite Hc in *.
      constructor; simpl.
      * intros c' Hc'. by apply H1, elem_of_middle.
      * done.
      * by eapply NoDup_fmap_remove.
      * intros u' (u & -> & Hu)%list_elem_of_fmap.
        destruct (H4 u Hu) as [Hp Hup]. unfold fail.
        destruct (String.eqb_spec (id u) (call_upload c)) as [Heq|Hne];
          [done|].
        split; [done|]. intros Hst.
        destruct (Hup Hst) as (c' & iv & Hc' & Hcu & Hiv & Hh & Ht).
        apply elem_of_middle_inv in Hc' as [->|Hc']; [congruence|].
        by exists c', iv.
    + destruct HD as [H1 H2 H3 H4]. constructor; simpl; try done.
      intros u [_ Hu]%list_elem_of_filter. by apply H4.
  - simpl in Hs. destruct (nextInterval _) as [iv0|] eqn:E; simplify_eq/=.
    destruct HD as [H1 H2 H3 H4]. constructor; simpl; try done.
    + intros iv' (iv & -> & Hiv)%list_elem_of_fmap.
      destruct (reschedule_same (handle iv0) iv) as [-> _]. by apply H2.
    + intros u' (u & -> & Hu)%list_elem_of_fmap.
      destruct (tick_same (target iv0) u) as [-> ->].
      destruct (H4 u Hu) as [Hp Hup]. split; [done|]. intros Hst.
      destruct (Hup Hst) as (c & iv & Hc & Hcu & Hiv & Hh & Ht).
      exists c, (reschedule (handle iv0) iv).
      destruct (reschedule_same (handle iv0) iv) as [-> ->].
      repeat split; try done. apply list_elem_of_fmap. eauto.
Qed.

Lemma driven_run props evs : ∀ w w',
  Driven w → run props w evs = Some w' → Driven w'.
Proof.
  induction evs as [|e evs IH]; intros w w' HD Hr; simpl in Hr.
  - by simplify_eq.
  - destruct (step props w e) as [w1|] eqn:E; simplify_eq/=.
    eapply IH; [|exact Hr]. by eapply driven_step.
Qed.

(** X11: in every reachable state no row has the status 'processing', and
    a row that is uploading has a call outstanding for its id and the
    ticker of that call running: a row does not stay uploading with
    nothing left to move it. *)
Theorem uploading_rows_are_driven props evs w u :
  run props init evs = Some w → u ∈ uploads w →
  status u ≠ processing
  ∧ (status u = uploading →
     ∃ c iv, c ∈ calls w ∧ call_upload c = id u ∧ iv ∈ intervals w
       ∧ handle iv = call_interval c ∧ target iv = id u).
Proof.
  intros Hr. apply driven_rows. eapply driven_run; [|exact Hr].
  constructor; simpl; try (by intros ? []%elem_of_nil). constructor.
Qed.

Lemma uploading_rows_are_driven_witness :
  ∃ w u, run defaultProps init bothSucceed = Some w ∧ u ∈ uploads w
    ∧ status u ≠ processing.
Proof.
  do 2 eexists. split; [vm_compute; reflexivity|].
  split; [vm_compute; left|].
  eapply proj1, (uploading_rows_are_driven defaultProps bothSucceed).
  - vm_compute; reflexivity.
  - vm_compute. left.
Defined.


Lemma liveIds_onDrop fs w : liveIds (onDrop fs w) ≡ₚ liveIds w ++ map fst fs.
Proof.
  unfold liveIds, queued. rewrite onDrop_calls.
  destruct fs as [|[i f] rest]; simpl; [by rewrite !app_nil_r|].
  rewrite !map_app, concat_app, map_app. simpl.
  rewrite app_nil_r, <- !(assoc_L (++)). f_equiv. simpl.
  apply Permutation_middle.
Qed.

Lemma liveIds_take w l1 c l2 :
  calls w = l1 ++ c :: l2 →
  liveIds w ≡ₚ
    call_upload c
    :: (map call_upload (l1 ++ l2)
        ++ map fst (concat (map call_rest (l1 ++ l2))))
       ++ map fst (call_rest c).
Proof.
  intros Hc. unfold liveIds, queued. rewrite Hc.
  rewrite !map_app, !concat_app, !map_app. simpl.
  rewrite concat_app, !map_app || idtac.
  rewrite <- !(assoc_L (++)). simpl.
  rewrite <- Permutation_middle. f_equiv. do 2 f_equiv.
  rewrite map_app, (assoc_L (++)), (Permutation_app_comm _ (map fst (call_rest c))).
  by rewrite <- (assoc_L (++)), Permutation_app_comm, <- (assoc_L (++)).
Qed.


Lemma tidy_onDrop fs w :
  Tidy w → NoDup (liveIds w ++ map fst fs) →
  (∀ iv, iv ∈ intervals w → target iv ∉ liveIds w →
     target iv ∉ map fst fs) →
  (∀ u, u ∈ uploads w → status u = completed → id u ∉ map fst fs) →
  Tidy (onDrop fs w).
Proof.
  intros [T1 T2 T3] Hnd H1 H2.
  assert (∀ x, x ∈ liveIds (onDrop fs w) ↔ x ∈ liveIds w ∨ x ∈ map fst fs)
    as Hlive.
  { intros x. by rewrite liveIds_onDrop, elem_of_app. }
  constructor.
  - by rewrite liveIds_onDrop.
  - rewrite onDrop_intervals, onDrop_calls, onDrop_uploads.
    intros iv [Hiv|Hiv]%elem_of_app.
    + destruct (T2 iv Hiv) as [(c & Hc & Hh & Ht)|[Hl Hrows]].
      * left. exists c. rewrite elem_of_app. auto.
      * right. split.
        { rewrite Hlive. intros [?|?]; [done|]. by apply (H1 iv). }
        intros u [Hu|Hu]%elem_of_app; [by apply Hrows|].
        destruct fs as [|[i f] rest]; [by apply elem_of_nil in Hu|].
        apply list_elem_of_singleton in Hu. subst u. simpl. intros Heq.
        exfalso. apply (H1 iv Hiv Hl). rewrite <- Heq. simpl. left.
    + destruct fs as [|[i f] rest]; [by apply elem_of_nil in Hiv|].
      apply list_elem_of_singleton in Hiv. subst iv. left. simpl.
      eexists. rewrite elem_of_app, list_elem_of_singleton.
      split; [by right|done].
  - rewrite onDrop_intervals, onDrop_uploads.
    intros u [Hu|Hu]%elem_of_app Hst.
    + destruct (T3 u Hu Hst) as (Hp & Hl & Ht). split; [done|]. split.
      * rewrite Hlive. intros [?|?]; [done|]. by apply (H2 u).
      * rewrite map_app, elem_of_app. intros [?|Hin]; [done|].
        destruct fs as [|[i f] rest]; [by apply elem_of_nil in Hin|].
        simpl in Hin. apply list_elem_of_singleton in Hin.
        apply (H2 u Hu Hst). simpl. rewrite Hin. left.
    + destruct fs as [|[i f] rest]; [by apply elem_of_nil in Hu|].
      apply list_elem_of_singleton in Hu. by subst u.
Qed.

(** The panel between the settlement of a call and the next iteration of
    the loop. *)
Lemma tidy_settled props w t a k c others w' :
  Tidy w → takeCall k (calls w) = Some (c, others) →
  a = Uploaded k ∨ (∃ err, a = UploadFailed k err) →
  step props w (At t a) = Some w' →
  Tidy w' ∧ ∀ x, x ∈ idsOf w' → x ∈ idsOf w.
Proof.
  intros HT Htk Ha Hs%upload_At_inv.
  apply takeUpload_split in Htk as Hsp.
  destruct Hsp as (l1 & l2 & Hc & -> & _).
  pose proof (liveIds_take w l1 c l2 Hc) as Hperm.
  pose proof (tidy_live _ HT) as Hnd. rewrite Hperm in Hnd.
  apply NoDup_cons in Hnd as [Hi Hnd].
  rewrite elem_of_app in Hi.
  assert (∀ x, x ∈ liveIds w ↔
            x = call_upload c
            ∨ x ∈ map call_upload (l1 ++ l2)
                  ++ map fst (concat (map call_rest (l1 ++ l2)))
            ∨ x ∈ map fst (call_rest c)) as Hlive.
  { intros x. by rewrite Hperm, elem_of_cons, elem_of_app. }
  assert (call_upload c ∈ liveIds w) as Hci by (apply Hlive; auto).
  destruct HT as [T1 T2 T3].
  destruct Ha as [->|[err ->]]; simpl in Hs; rewrite Htk in Hs;
    simplify_eq/=.
  - (* success *)
    unfold resolved.
    set (w2 := setUploads (map (complete (call_upload c)))
                 (clearInterval (call_interval c)
                    (setCalls (l1 ++ l2) (setNow t w)))).
    assert (liveIds w2 = map call_upload (l1 ++ l2)
              ++ map fst (concat (map call_rest (l1 ++ l2)))) as Hl2
      by reflexivity.
    assert (Tidy w2) as HT2.
    { constructor.
      - rewrite Hl2. by apply NoDup_app in Hnd as [? _].
      - intros iv [Hh Hiv]%list_elem_of_filter.
        destruct (T2 iv Hiv) as [(c' & Hc' & Hh' & Ht')|[Hl Hrows]].
        + left. exists c'. split; [|done]. simpl. rewrite Hc in Hc'.
          apply elem_of_middle_inv in Hc' as [->|?]; [done|done].
        + right. split.
          { rewrite Hl2. intros ?. apply Hl, Hlive. auto. }
          intros u' (u & -> & Hu)%list_elem_of_fmap. unfold complete.
          destruct (String.eqb_spec (id u) (call_upload c)) as [Heq|Hne];
            simpl.
          * intros Hid. exfalso. apply Hl. by rewrite <- Hid, Heq.
          * by apply Hrows.
      - intros u' (u & -> & Hu)%list_elem_of_fmap. unfold complete.
        destruct (String.eqb_spec (id u) (call_upload c)) as [Heq|Hne];
          simpl.
        + intros _. split; [done|]. rewrite Heq, Hl2. split; [tauto|].
          intros (iv & Ht & [Hh Hiv]%list_elem_of_filter)%list_elem_of_fmap.
          destruct (T2 iv Hiv) as [(c' & Hc' & Hh' & Ht')|[Hl _]].
          * rewrite Hc in Hc'.
            apply elem_of_middle_inv in Hc' as [->|Hc']; [done|].
            apply Hi. left. apply elem_of_app. left.
            rewrite Ht, <- Ht'. apply list_elem_of_fmap. eauto.
          * apply Hl. by rewrite <- Ht.
        + intros Hst. destruct (T3 u Hu Hst) as (Hp & Hl & Ht).
          split; [done|]. split.
          * rewrite Hl2. intros ?. apply Hl, Hlive. auto.
          * intros (iv & Hti & [_ Hiv]%list_elem_of_filter)%list_elem_of_fmap.
            apply Ht. apply list_elem_of_fmap. eauto. }
    split.
    + apply tidy_onDrop; [done| | |].
      * by rewrite Hl2.
      * intros iv [Hh Hiv]%list_elem_of_filter Hl.
        destruct (T2 iv Hiv) as [(c' & Hc' & Hh' & Ht')|[Hlw _]].
        -- exfalso. apply Hl. rewrite Hl2. rewrite Hc in Hc'.
           apply elem_of_middle_inv in Hc' as [->|Hc']; [done|].
           apply elem_of_app. left. rewrite <- Ht'.
           apply list_elem_of_fmap. eauto.
        -- intros ?. apply Hlw, Hlive. auto.
      * intros u' (u & -> & Hu)%list_elem_of_fmap. unfold complete.
        destruct (String.eqb_spec (id u) (call_upload c)) as [Heq|Hne];
          simpl.
        -- intros _. rewrite Heq. tauto.
        -- intros Hst ?. destruct (T3 u Hu Hst) as (_ & Hl & _).
           apply Hl, Hlive. auto.
    + intros x. unfold idsOf.
      rewrite onDrop_uploads, onDrop_intervals, liveIds_onDrop.
      rewrite !map_app, !elem_of_app, Hl2, Hlive.
      assert (map id (uploads w2) = map id (uploads w)) as ->.
      { simpl. rewrite map_map. apply map_ext. intros u.
        apply (update_id (Done _)). }
      assert (∀ y, y ∈ map target (intervals w2) →
                y ∈ map target (intervals w)) as Hsub.
      { intros y (iv & -> & [_ Hiv]%list_elem_of_filter)%list_elem_of_fmap.
        apply list_elem_of_fmap. eauto. }
      assert (∀ y, y ∈ map id (newRows (call_rest c)) →
                y ∈ map fst (call_rest c)) as Hr.
      { destruct (call_rest c) as [|[i f] r]; simpl; [done|].
        intros y ->%list_elem_of_singleton. left. }
      assert (∀ y, y ∈ map target (newTickers (call_rest c) w2) →
                y ∈ map fst (call_rest c)) as Hk.
      { destruct (call_rest c) as [|[i f] r]; simpl; [done|].
        intros y ->%list_elem_of_singleton. left. }
      rewrite elem_of_app. clear -Hsub Hr Hk. intuition auto.
  - (* failure *)
    unfold rejected.
    set (msg := match err with Some m => m | None => _ end).
    set (w2 := setUploads (map (fail (call_upload c) msg))
                 (setCalls (l1 ++ l2) (setNow t w))).
    assert (liveIds w2 = map call_upload (l1 ++ l2)
              ++ map fst (concat (map call_rest (l1 ++ l2)))) as Hl2
      by reflexivity.
    assert (Tidy w2) as HT2.
    { constructor.
      - rewrite Hl2. by apply NoDup_app in Hnd as [? _].
      - intros iv Hiv. simpl in Hiv.
        destruct (T2 iv Hiv) as [(c' & Hc' & Hh' & Ht')|[Hl Hrows]].
        + rewrite Hc in Hc'.
          apply elem_of_middle_inv in Hc' as [->|Hc'].
          * right. split.
            { rewrite Hl2, <- Ht'. tauto. }
            intros u' (u & -> & Hu)%list_elem_of_fmap. unfold fail.
            destruct (String.eqb_spec (id u) (call_upload c)) as [Heq|Hne];
              simpl; [done|]. intros Hid. by rewrite Hid, Ht' in Hne.
          * left. by exists c'.
        + right. split.
          { rewrite Hl2. intros ?. apply Hl, Hlive. auto. }
          intros u' (u & -> & Hu)%list_elem_of_fmap. unfold fail.
          destruct (String.eqb_spec (id u) (call_upload c)) as [Heq|Hne];
            simpl; [done|]. by apply Hrows.
      - intros u' (u & -> & Hu)%list_elem_of_fmap. unfold fail.
        destruct (String.eqb_spec (id u) (call_upload c)) as [Heq|Hne];
          simpl; [done|].
        intros Hst. destruct (T3 u Hu Hst) as (Hp & Hl & Ht).
        split; [done|]. split; [|done].
        rewrite Hl2. intros ?. apply Hl, Hlive. auto. }
    split.
    + apply tidy_onDrop; [done| | |].
      * by rewrite Hl2.
      * intros iv Hiv Hl. simpl in Hiv.
        destruct (T2 iv Hiv) as [(c' & Hc' & Hh' & Ht')|[Hlw _]].
        -- rewrite Hc in Hc'.
           apply elem_of_middle_inv in Hc' as [->|Hc'].
           ++ rewrite <- Ht'. tauto.
           ++ exfalso. apply Hl. rewrite Hl2.
              apply elem_of_app. left. rewrite <- Ht'.
              apply list_elem_of_fmap. eauto.
        -- intros ?. apply Hlw, Hlive. auto.
      * intros u' (u & -> & Hu)%list_elem_of_fmap. unfold fail.
        destruct (String.eqb_spec (id u) (call_upload c)) as [Heq|Hne];
          simpl; [done|].
        intros Hst ?. destruct (T3 u Hu Hst) as (_ & Hl & _).
        apply Hl, Hlive. auto.
    + intros x. unfold idsOf.
      rewrite onDrop_uploads, onDrop_intervals, liveIds_onDrop.
      rewrite !map_app, !elem_of_app, Hl2, Hlive.
      assert (map id (uploads w2) = map id (uploads w)) as ->.
      { simpl. rewrite map_map. apply map_ext. intros u.
        apply (update_id (Failed _ _)). }
      assert (∀ y, y ∈ map id (newRows (call_rest c)) →
                y ∈ map fst (call_rest c)) as Hr.
      { destruct (call_rest c) as [|[i f] r]; simpl; [done|].
        intros y ->%list_elem_of_singleton. left. }
      assert (∀ y, y ∈ map target (newTickers (call_rest c) w2) →
                y ∈ map fst (call_rest c)) as Hk.
      { destruct (call_rest c) as [|[i f] r]; simpl; [done|].
        intros y ->%list_elem_of_singleton. left. }
      rewrite elem_of_app. simpl. clear -Hr Hk. intuition auto.
Qed.


Lemma idsOf_onDrop fs w x :
  x ∈ idsOf (onDrop fs w) → x ∈ idsOf w ∨ x ∈ map fst fs.
Proof.
  unfold idsOf.
  rewrite onDrop_uploads, onDrop_intervals, liveIds_onDrop.
  rewrite !map_app, !elem_of_app.
  assert (∀ y, y ∈ map id (newRows fs) → y ∈ map fst fs) as Hr.
  { destruct fs as [|[i f] r]; simpl; [done|].
    intros y ->%list_elem_of_singleton. left. }
  assert (∀ y, y ∈ map target (newTickers fs w) → y ∈ map fst fs) as Hk.
  { destruct fs as [|[i f] r]; simpl; [done|].
    intros y ->%list_elem_of_singleton. left. }
  clear -Hr Hk. intuition auto.
Qed.

Lemma tidy_step props w e w' :
  Tidy w → NoDup (map fst (droppedBy props e)) →
  (∀ x, x ∈ map fst (droppedBy props e) → x ∉ idsOf w) →
  step props w e = Some w' →
  Tidy w' ∧ ∀ x, x ∈ idsOf w' →
             x ∈ idsOf w ∨ x ∈ map fst (droppedBy props e).
Proof.
  intros HT Hnd Hfresh Hs. destruct e as [t a|].
  - destruct a as [files|k|k err|i].
    + apply upload_At_inv in Hs. simpl in Hs, Hnd, Hfresh. simplify_eq.
      assert (Tidy (setNow t w)) as HT' by (by destruct HT).
      split; [|intros x Hx; apply idsOf_onDrop in Hx; exact Hx].
      apply tidy_onDrop; [done| | |].
      * apply NoDup_app. split; [apply HT|]. split; [|done].
        intros x Hx Hin. apply (Hfresh x Hin). unfold idsOf.
        rewrite !elem_of_app. auto.
      * intros iv Hiv _ Hin. apply (Hfresh _ Hin). unfold idsOf.
        rewrite !elem_of_app. right. left. apply list_elem_of_fmap. eauto.
      * intros u Hu _ Hin. apply (Hfresh _ Hin). unfold idsOf.
        rewrite !elem_of_app. left. apply list_elem_of_fmap. eauto.
    + pose proof Hs as Hs'. apply upload_At_inv in Hs'. simpl in Hs'.
      destruct (takeCall k (calls w)) as [[c rest]|] eqn:E; [|done].
      clear Hs'.
      destruct (tidy_settled props w t (Uploaded k) k c rest w' HT E)
        as [? ?]; auto.
    + pose proof Hs as Hs'. apply upload_At_inv in Hs'. simpl in Hs'.
      destruct (takeCall k (calls w)) as [[c rest]|] eqn:E; [|done].
      clear Hs'.
      destruct (tidy_settled props w t (UploadFailed k err) k c rest w' HT E)
        as [? ?]; eauto.
    + apply upload_At_inv in Hs. simpl in Hs. simplify_eq.
      destruct HT as [T1 T2 T3]. split.
      * constructor; simpl; [done| |].
        -- intros iv Hiv. destruct (T2 iv Hiv) as [?|[Hl Hrows]]; [by left|].
           right. split; [done|].
           intros u [_ Hu]%list_elem_of_filter. by apply Hrows.
        -- intros u [_ Hu]%list_elem_of_filter. by apply T3.
      * intros x. unfold idsOf. simpl. rewrite !elem_of_app.
        intros [(u & -> & [_ Hu]%list_elem_of_filter)%list_elem_of_fmap|?];
          [|auto].
        left. left. apply list_elem_of_fmap. eauto.
  - simpl in Hs. destruct (nextInterval _) as [iv0|] eqn:E; simplify_eq/=.
    apply nextInterval_elem in E. destruct HT as [T1 T2 T3].
    assert (map target (map (reschedule (handle iv0)) (intervals w))
            = map target (intervals w)) as Htg.
    { rewrite map_map. apply map_ext. intros iv.
      apply reschedule_same. }
    split.
    + constructor; simpl; [done| |].
      * intros iv' (iv & -> & Hiv)%list_elem_of_fmap.
        destruct (reschedule_same (handle iv0) iv) as [-> ->].
        destruct (T2 iv Hiv) as [?|[Hl Hrows]]; [by left|].
        right. split; [done|].
        intros u' (u & -> & Hu)%list_elem_of_fmap.
        destruct (tick_same (target iv0) u) as [-> ->]. by apply Hrows.
      * intros u' (u & -> & Hu)%list_elem_of_fmap.
        destruct (tick_same (target iv0) u) as [Hid Hst]. rewrite Hst.
        intros Hc. destruct (T3 u Hu Hc) as (Hp & Hl & Ht).
        assert (tick (target iv0) u = u) as ->.
        { apply (update_other (Ticked (target iv0)) (target iv0)); [auto|].
          intros Heq. apply Ht. rewrite Heq. apply list_elem_of_fmap. eauto. }
        rewrite Htg. done.
    + intros x. unfold idsOf. simpl. rewrite Htg.
      assert (map id (map (tick (target iv0)) (uploads w))
              = map id (uploads w)) as ->; [|auto].
      rewrite map_map. apply map_ext. intros u. apply tick_same.
Qed.

Lemma tidy_run props evs : ∀ w w',
  Tidy w → NoDup (map fst (dropped props evs)) →
  (∀ x, x ∈ map fst (dropped props evs) → x ∉ idsOf w) →
  run props w evs = Some w' → Tidy w'.
Proof.
  induction evs as [|e evs IH]; intros w w' HT Hnd Hfresh Hr; simpl in Hr.
  - by simplify_eq.
  - destruct (step props w e) as [w1|] eqn:E; simplify_eq/=.
    unfold dropped in Hnd, Hfresh. simpl in Hnd, Hfresh.
    rewrite map_app in Hnd, Hfresh.
    apply NoDup_app in Hnd as (Hnd1 & Hdisj & Hnd2).
    destruct (tidy_step props w e w1 HT Hnd1) as [HT1 Hids]; [|done|].
    { intros x Hx. apply Hfresh, elem_of_app. by left. }
    eapply IH; [exact HT1|exact Hnd2| |exact Hr].
    intros x Hx Hin. destruct (Hids x Hin) as [Hw|Hd].
    + apply (Hfresh x); [|done]. apply elem_of_app. by right.
    + by apply (Hdisj x).
Qed.

(** X12: when the ids drawn for the accepted files of a run are pairwise
    distinct, a completed row has progress 100, no ticker targets it and
    no call is outstanding or queued for it; and no step but a dismissal
    changes it: a completed upload is final. *)
Theorem completed_rows_are_final props evs w j u :
  run props init evs = Some w →
  NoDup (map fst (dropped props evs)) →
  uploads w !! j = Some u → status u = completed →
  progress u = 100%Z
  ∧ (∀ iv, iv ∈ intervals w → target iv ≠ id u)
  ∧ (∀ c, c ∈ calls w → call_upload c ≠ id u)
  ∧ ∀ e w', step props w e = Some w' → isDismissal e = false →
            uploads w' !! j = Some u.
Proof.
  intros Hr Hnd Hj Hst.
  assert (Tidy w) as HT.
  { eapply tidy_run; [|exact Hnd| |exact Hr].
    - constructor; simpl; try (by intros ? []%elem_of_nil). constructor.
    - intros x _ []%elem_of_nil. }
  assert (u ∈ uploads w) as Hu by (by eapply list_elem_of_lookup_2).
  destruct (tidy_done _ HT u Hu Hst) as (Hp & Hl & Ht).
  assert (∀ iv, iv ∈ intervals w → target iv ≠ id u) as Hiv.
  { intros iv Hin Heq. apply Ht. rewrite <- Heq.
    apply list_elem_of_fmap. eauto. }
  assert (∀ c, c ∈ calls w → call_upload c ≠ id u) as Hc.
  { intros c Hin Heq. apply Hl. unfold liveIds. apply elem_of_app. left.
    rewrite <- Heq. apply list_elem_of_fmap. eauto. }
  repeat split; [done..|].
  intros e w' Hs Hd. eapply rows_off_target_kept; eauto.
  destruct e as [t [files|k|k err|i]|]; simpl; try done.
  - destruct (takeCall k (calls w)) as [[c rest]|] eqn:E; [|done]. simpl.
    apply takeUpload_split in E as (l1 & l2 & Hcs & _).
    intros [= Heq]. apply (Hc c); [|done].
    rewrite Hcs, elem_of_app. right. left.
  - destruct (takeCall k (calls w)) as [[c rest]|] eqn:E; [|done]. simpl.
    apply takeUpload_split in E as (l1 & l2 & Hcs & _).
    intros [= Heq]. apply (Hc c); [|done].
    rewrite Hcs, elem_of_app. right. left.
  - destruct (nextInterval _) as [iv|] eqn:E; [|done]. simpl.
    intros [= Heq]. apply (Hiv iv); [|done]. by apply nextInterval_elem.
Qed.

Lemma completed_rows_are_final_witness :
  ∃ w u, run defaultProps init bothSucceed = Some w
    ∧ uploads w !! 0 = Some u ∧ status u = completed
    ∧ progress u = 100%Z.
Proof.
  do 2 eexists. split; [vm_compute; reflexivity|].
  split; [vm_compute; reflexivity|]. split; [reflexivity|].
  eapply proj1, (completed_rows_are_final defaultProps bothSucceed _ 0).
  - vm_compute; reflexivity.
  - apply (bool_decide_unpack _). vm_compute. exact I.
  - vm_compute; reflexivity.
  - reflexivity.
Defined.

End UploadViewFacts.

(** * Facts about the left panel *)
Module LeftPanelFacts.
Import LeftPanel.

Lemma takeJob_split (l : list Job) k j rest :
  takeJob k l = Some (j, rest) →
  ∃ l1 l2, l = l1 ++ j :: l2 ∧ rest = l1 ++ l2 ∧ job_id j = k.
Proof.
  revert j rest. induction l as [|x l IH]; intros j rest H; simpl in H;
    [done|].
  destruct (Nat.eqb (job_id x) k) eqn:E.
  - simplify_eq. apply Nat.eqb_eq in E. by eexists [], _.
  - destruct (takeJob k l) as [[j' r']|]; simplify_eq/=.
    destruct (IH _ _ eq_refl) as (l1 & l2 & -> & -> & ?).
    by exists (x :: l1), l2.
Qed.

Lemma takeJob_is_Some (l : list Job) k :
  k ∈ map job_id l → is_Some (takeJob k l).
Proof.
  induction l as [|x l IH]; simpl; [by intros ?%elem_of_nil|].
  intros Hin. destruct (Nat.eqb (job_id x) k) eqn:E; [done|].
  apply Nat.eqb_neq in E. apply elem_of_cons in Hin as [?|Hin]; [done|].
  destruct (IH Hin) as [[j r] ->]. done.
Qed.

Lemma run_snoc evs e w :
  run w (evs ++ [e]) = run w evs ≫= λ w', step w' e.
Proof.
  revert w. induction evs as [|a evs IH]; intros w; simpl.
  - by destruct (step w e).
  - destruct (step w a); simpl; [apply IH|done].
Qed.

Lemma refreshingJobs_middle l1 j l2 :
  refreshingJobs (l1 ++ j :: l2) ≡ₚ
  (if decide (phase j = Refreshing) then [job_id j] else [])
  ++ refreshingJobs (l1 ++ l2).
Proof.
  unfold refreshingJobs. rewrite !filter_app, filter_cons, !fmap_app.
  destruct (decide (phase j = Refreshing)); simpl; [|done].
  by rewrite Permutation_middle.
Qed.

Lemma refreshingJobs_snoc l j :
  refreshingJobs (l ++ [j]) =
  refreshingJobs l ++ (if decide (phase j = Refreshing) then [job_id j] else []).
Proof.
  unfold refreshingJobs. rewrite filter_app, fmap_app. f_equal.
  rewrite filter_cons, filter_nil. by destruct (decide _).
Qed.

(** The cases of a step: the action, its guard and the fields it writes. *)
Ltac act_inv H :=
  match type of H with
  | act ?a ?w = Some _ =>
      destruct a as [tab| |d| | |k r|[k|] r]; simpl in H;
      try (destruct (takeJob _ _) as [[? ?]|] eqn:Htake; simpl in H);
      simplify_eq/=; repeat (case_match; simplify_eq/=)
  end.

Lemma step_act w a w' :
  step w a = Some w' → ∃ o, act a w = Some (w', o).
Proof.
  unfold step. destruct (act a w) as [[w1 o]|]; simpl; [|done].
  intros [= <-]. by exists o.
Qed.

(** ** The loading flag *)
Lemma spinning_act w a w' o :
  act a w = Some (w', o) →
  (isLoadingDatasets w = true → 0 < outstanding w) →
  isLoadingDatasets w' = true → 0 < outstanding w'.
Proof.
  unfold outstanding, refreshing. intros H Hinv.
  act_inv H; unfold uploaded, loaded in *;
    repeat (case_match; simplify_eq/=); try done; try lia;
    try (intros Hl; specialize (Hinv Hl)).
  all: try match goal with
    | Ht : takeJob _ _ = Some _ |- _ =>
        apply takeJob_split in Ht as (l1 & l2 & Hj & -> & ?);
        rewrite Hj in Hinv;
        rewrite (Permutation_length (refreshingJobs_middle _ _ _)) in Hinv
    end.
  all: rewrite ?refreshingJobs_snoc, ?length_app in *; simpl in *.
  all: repeat (case_match; simplify_eq/=); try lia; try congruence.
Qed.

Lemma spinning_run evs : ∀ w w',
  run w evs = Some w' →
  (isLoadingDatasets w = true → 0 < outstanding w) →
  isLoadingDatasets w' = true → 0 < outstanding w'.
Proof.
  induction evs as [|e evs IH]; intros w w' Hr Hinv; simpl in Hr.
  - by simplify_eq.
  - destruct (step w e) as [w1|] eqn:E; simplify_eq/=.
    apply step_act in E as [o E].
    eapply IH; [exact Hr|]. by eapply spinning_act.
Qed.

(** X13: the loading flag of the datasets tab is set only while a
    [getDatasets] call is outstanding: once every load has settled, by a
    response or by an error, [isLoadingDatasets] is false, so the spinner
    never sticks and the refresh button is enabled again. *)
Theorem spinner_stops_with_last_load evs w :
  run init evs = Some w → outstanding w = 0 → isLoadingDatasets w = false.
Proof.
  intros Hr Ho. destruct (isLoadingDatasets w) eqn:E; [|done].
  assert (0 < outstanding w); [|lia].
  eapply spinning_run; [exact Hr| |exact E].
  intros _. unfold outstanding. simpl. lia.
Qed.

Lemma spinner_stops_with_last_load_witness :
  ∃ w, run init [DatasetsSettle None (Threw (Some "Network Error"%string))]
       = Some w
    ∧ isLoadingDatasets w = false.
Proof.
  eexists. split; [vm_compute; reflexivity|].
  apply (spinner_stops_with_last_load
           [DatasetsSettle None (Threw (Some "Network Error"%string))]);
    vm_compute; reflexivity.
Defined.

(** ** The dataset list *)
Lemma datasets_act w a w' o :
  act a w = Some (w', o) →
  datasets w' = default (datasets w) (last (goodReply a)).
Proof.
  intros H.
  act_inv H; unfold uploaded, loaded in *;
    repeat (case_match; simplify_eq/=); done.
Qed.

Lemma goodReplies_snoc evs e :
  goodReplies (evs ++ [e]) = goodReplies evs ++ goodReply e.
Proof.
  unfold goodReplies. rewrite map_app, concat_app. simpl.
  by rewrite app_nil_r.
Qed.

Lemma datasets_run evs : ∀ w w',
  run w evs = Some w' →
  datasets w' = default (datasets w) (last (goodReplies evs)).
Proof.
  induction evs as [|e evs IH] using rev_ind; intros w w' Hr.
  - simpl in Hr. by simplify_eq.
  - rewrite run_snoc in Hr.
    destruct (run w evs) as [w1|] eqn:E; simplify_eq/=.
    apply step_act in Hr as [o Hr]. apply datasets_act in Hr.
    rewrite Hr, (IH _ _ E), goodReplies_snoc, last_app.
    by destruct (last (goodReply e)).
Qed.

(** X14: the dataset list of the page is the list of the latest
    [getDatasets] response that reported success, whoever started that
    load; a load that throws or reports no success, an upload, and every
    click leave the list as it was.  Before the first such response the
    list is empty. *)
Theorem datasets_are_last_good_reply evs w :
  run init evs = Some w →
  datasets w = default [] (last (goodReplies evs)).
Proof. intros Hr. by rewrite (datasets_run _ _ _ Hr). Qed.

Lemma datasets_are_last_good_reply_witness :
  ∃ w, run init uploadThenView = Some w ∧ datasets w = [sales].
Proof.
  eexists. split; [vm_compute; reflexivity|].
  apply (datasets_are_last_good_reply uploadThenView).
  vm_compute; reflexivity.
Defined.

(** ** The modal *)
Lemma viewed_act w a w' o :
  act a w = Some (w', o) →
  ((showModal w = true → is_Some (viewDataset w)) →
   showModal w' = true → is_Some (viewDataset w'))
  ∧ ∀ d, viewDataset w' = Some d →
         viewDataset w = Some d ∨ d ∈ datasets w.
Proof.
  intros H.
  act_inv H; unfold uploaded, loaded in *;
    repeat (case_match; simplify_eq/=); split; auto; try done.
  intros d' [= <-]. right.
  repeat match goal with
  | H : _ && _ = true |- _ => apply andb_prop in H as [? ?]
  end.
  by eapply bool_decide_eq_true_1.
Qed.

Lemma viewed_run evs : ∀ w,
  run init evs = Some w →
  (showModal w = true → is_Some (viewDataset w))
  ∧ ∀ d, viewDataset w = Some d → ∃ ds, ds ∈ goodReplies evs ∧ d ∈ ds.
Proof.
  induction evs as [|e evs IH] using rev_ind; intros w Hr.
  - simpl in Hr. simplify_eq. split; [done|]. simpl. done.
  - rewrite run_snoc in Hr.
    destruct (run init evs) as [w1|] eqn:E; simplify_eq/=.
    destruct (IH _ eq_refl) as [IH1 IH2].
    apply step_act in Hr as [o Hr].
    destruct (viewed_act _ _ _ _ Hr) as [H1 H2]. split; [auto|].
    intros d Hd. rewrite goodReplies_snoc.
    destruct (H2 d Hd) as [Hv|Hin].
    + destruct (IH2 d Hv) as (ds & ? & ?). exists ds.
      rewrite elem_of_app. auto.
    + exists (datasets w1). split; [|done].
      rewrite (datasets_run _ _ _ E) in Hin |- *.
      destruct (last (goodReplies evs)) as [ds|] eqn:El; simpl in *.
      * apply elem_of_app. left. apply last_Some in El as [l' ->].
        apply elem_of_app. right. left.
      * by apply elem_of_nil in Hin.
Qed.

(** X15: the dataset modal is open only with a dataset to show, and the
    dataset it shows was listed by a [getDatasets] response that reported
    success; it may have left the list since. *)
Theorem modal_shows_a_listed_dataset evs w :
  run init evs = Some w → showModal w = true →
  ∃ d ds, viewDataset w = Some d ∧ ds ∈ goodReplies evs ∧ d ∈ ds.
Proof.
  intros Hr Hs. destruct (viewed_run _ _ Hr) as [H1 H2].
  destruct (H1 Hs) as [d Hd]. destruct (H2 d Hd) as (ds & ? & ?).
  by exists d, ds.
Qed.

Lemma modal_shows_a_listed_dataset_witness :
  ∃ w, run init uploadThenView = Some w
    ∧ ∃ d ds, viewDataset w = Some d ∧ ds ∈ goodReplies uploadThenView
        ∧ d ∈ ds.
Proof.
  eexists. split; [vm_compute; reflexivity|].
  apply modal_shows_a_listed_dataset; vm_compute; reflexivity.
Defined.

(** ** The promises of [handleFileUpload] *)
Lemma takeJob_refreshing (l : list Job) k j rest :
  takeJob k l = Some (j, rest) →
  refreshingJobs l ≡ₚ
  (match phase j with Refreshing => [k] | Sending => [] end)
  ++ refreshingJobs rest.
Proof.
  intros (l1 & l2 & -> & -> & <-)%takeJob_split.
  rewrite refreshingJobs_middle. by destruct (phase j).
Qed.

Lemma act_upload w k r w' o :
  act (UploadSettles k r) w = Some (w', o) →
  ∃ j rest, takeJob k (jobs w) = Some (j, rest) ∧ phase j = Sending
    ∧ uploaded k r (setJobs rest w) = (w', o).
Proof.
  simpl. destruct (takeJob k (jobs w)) as [[j rest]|]; [|done]. simpl.
  destruct (phase j) eqn:E; [|done]. intros [= <-]. by exists j, rest.
Qed.

Lemma act_refresh w k r w' o :
  act (DatasetsSettle (Some k) r) w = Some (w', o) →
  ∃ j rest, takeJob k (jobs w) = Some (j, rest) ∧ phase j = Refreshing
    ∧ w' = loaded r (setJobs rest w) ∧ o = Some (k, Resolved).
Proof.
  simpl. destruct (takeJob k (jobs w)) as [[j rest]|]; [|done]. simpl.
  destruct (phase j) eqn:E; [done|]. intros [= <- <-]. by exists j, rest.
Qed.

Lemma loaded_jobs r w :
  jobs (loaded r w) = jobs w ∧ nextJob (loaded r w) = nextJob w.
Proof. unfold loaded. by repeat case_match. Qed.

Lemma outcome_act w a w' o :
  act a w = Some (w', o) →
  filter (λ x, isResolved x = false) (option_list o) = refusal a
  ∧ map fst (filter (λ x, isResolved x = true) (option_list o))
      ++ refreshing w'
    ≡ₚ refreshing w ++ accepted a.
Proof.
  unfold refreshing. intros H. destruct a as [tab| |d| | |k r|[k|] r].
  - simpl in H. simplify_eq/=. by rewrite app_nil_r.
  - simpl in H. case_match; simplify_eq/=. by rewrite app_nil_r.
  - simpl in H. case_match; simplify_eq/=. by rewrite app_nil_r.
  - simpl in H. case_match; simplify_eq/=. by rewrite app_nil_r.
  - simpl in H. simplify_eq/=. split; [done|].
    rewrite refreshingJobs_snoc. simpl. by rewrite !app_nil_r.
  - apply act_upload in H as (j & rest & Ht & Hp & Hu).
    apply takeJob_refreshing in Ht. rewrite Hp in Ht. simpl in Ht.
    rewrite Ht. unfold uploaded in Hu. simpl.
    destruct r as [resp|err]; [destruct (ur_success resp)|];
      simplify_eq/=; split; try done; try by rewrite app_nil_r.
    by rewrite refreshingJobs_snoc.
  - apply act_refresh in H as (j & rest & Ht & Hp & -> & ->).
    apply takeJob_refreshing in Ht. rewrite Hp in Ht. simpl in Ht.
    rewrite Ht. unfold refreshingJobs at 1.
    rewrite (proj1 (loaded_jobs _ _)). simpl. split; [done|].
    by rewrite app_nil_r.
  - cbn [act] in H. destruct (loads w) as [|n] eqn:E; [done|].
    injection H as <- <-.
    rewrite (proj1 (loaded_jobs _ _)). simpl. by rewrite app_nil_r.
Qed.

Lemma takeJob_ids (l : list Job) k j rest :
  takeJob k l = Some (j, rest) →
  map job_id l ≡ₚ k :: map job_id rest.
Proof.
  intros (l1 & l2 & -> & -> & <-)%takeJob_split.
  rewrite !map_app. simpl. by rewrite Permutation_middle.
Qed.

Lemma numbered_act w a w' o :
  act a w = Some (w', o) →
  NoDup (map job_id (jobs w)) →
  (∀ k, k ∈ map job_id (jobs w) → k < nextJob w) →
  (NoDup (map job_id (jobs w'))
   ∧ ∀ k, k ∈ map job_id (jobs w') → k < nextJob w')
  ∧ nextJob w ≤ nextJob w'
  ∧ (∀ k, k ∈ map job_id (jobs w') →
          k ∈ map job_id (jobs w) ∨ nextJob w ≤ k)
  ∧ ∀ x, o = Some x →
         (x.1 ∈ map job_id (jobs w)) ∧ (x.1 ∉ map job_id (jobs w')).
Proof.
  intros H Hnd Hlt. destruct a as [tab| |d| | |k r|[k|] r].
  - simpl in H. simplify_eq/=. repeat split; auto; try lia; done.
  - simpl in H. case_match; simplify_eq/=. repeat split; auto; try lia; done.
  - simpl in H. case_match; simplify_eq/=. repeat split; auto; try lia; done.
  - simpl in H. case_match; simplify_eq/=. repeat split; auto; try lia; done.
  - simpl in H. simplify_eq/=. rewrite map_app. simpl. repeat split.
    + apply NoDup_app. repeat split; [done| |apply NoDup_singleton].
      intros k Hk ->%list_elem_of_singleton. apply Hlt in Hk. lia.
    + intros k [Hk| ->%list_elem_of_singleton]%elem_of_app; [|lia].
      apply Hlt in Hk. lia.
    + lia.
    + intros k [Hk| ->%list_elem_of_singleton]%elem_of_app; auto.
    + done.
    + done.
  - apply act_upload in H as (j & rest & Ht & Hp & Hu).
    apply takeJob_ids in Ht. rewrite Ht in Hnd.
    apply NoDup_cons in Hnd as [Hk Hnd].
    assert (∀ k', k' ∈ map job_id rest → k' ∈ map job_id (jobs w)) as Hsub.
    { intros k' Hk'. rewrite Ht. by right. }
    assert (k ∈ map job_id (jobs w)) as Hin by (rewrite Ht; left).
    unfold uploaded in Hu.
    destruct r as [resp|err]; [destruct (ur_success resp)|];
      simplify_eq/=.
    + rewrite map_app. simpl. repeat split.
      * apply NoDup_app. repeat split; [done| |apply NoDup_singleton].
        by intros k' Hk' ->%list_elem_of_singleton.
      * intros k' [Hk'| ->%list_elem_of_singleton]%elem_of_app; auto.
      * lia.
      * intros k' [Hk'| ->%list_elem_of_singleton]%elem_of_app; auto.
      * done.
      * done.
    + repeat split; auto; try lia; by simplify_eq/=.
    + repeat split; auto; try lia; by simplify_eq/=.
  - apply act_refresh in H as (j & rest & Ht & Hp & -> & ->).
    apply takeJob_ids in Ht. rewrite Ht in Hnd.
    apply NoDup_cons in Hnd as [Hk Hnd].
    assert (∀ k', k' ∈ map job_id rest → k' ∈ map job_id (jobs w)) as Hsub.
    { intros k' Hk'. rewrite Ht. by right. }
    assert (k ∈ map job_id (jobs w)) as Hin by (rewrite Ht; left).
    destruct (loaded_jobs r (setJobs rest w)) as [-> ->]. simpl.
    repeat split; auto; try lia; by simplify_eq/=.
  - cbn [act] in H. destruct (loads w) as [|n] eqn:E; [done|].
    injection H as <- <-.
    destruct (loaded_jobs r (setLoads n w)) as [-> ->]. simpl. repeat split; auto; try lia; done.
Qed.

Lemma outcomes_run evs : ∀ w w',
  run w evs = Some w' →
  NoDup (map job_id (jobs w)) →
  (∀ k, k ∈ map job_id (jobs w) → k < nextJob w) →
  filter (λ x, isResolved x = false) (outcomes w evs)
    = concat (map refusal evs)
  ∧ map fst (filter (λ x, isResolved x = true) (outcomes w evs))
      ++ refreshing w'
    ≡ₚ refreshing w ++ concat (map accepted evs)
  ∧ NoDup (map fst (outcomes w evs))
  ∧ ∀ k, k ∈ map fst (outcomes w evs) →
         k ∈ map job_id (jobs w) ∨ nextJob w ≤ k.
Proof.
  induction evs as [|e evs IH]; intros w w' Hr Hnd Hlt; simpl in Hr.
  - simplify_eq. simpl. rewrite app_nil_r.
    split; [done|]. split; [done|].
    split; [constructor|by intros ? ?%elem_of_nil].
  - destruct (step w e) as [w1|] eqn:E; simplify_eq/=.
    apply step_act in E as [o E]. rewrite E. cbn beta iota.
    destruct (outcome_act _ _ _ _ E) as [O1 O2].
    destruct (numbered_act _ _ _ _ E Hnd Hlt)
      as ([N1 N2] & N3 & N4 & N5).
    destruct (IH _ _ Hr N1 N2) as (I1 & I2 & I3 & I4).
    rewrite !filter_app, !map_app, I1, O1. split; [done|]. split.
    { rewrite <- (assoc_L app), I2, (assoc_L app), O2.
      by rewrite <- !(assoc_L app). }
    assert (∀ k, k ∈ map fst (option_list o) →
              (k ∈ map job_id (jobs w)) ∧ (k ∉ map job_id (jobs w1)))
      as Ho.
    { destruct o as [x|]; simpl; [|by intros ? ?%elem_of_nil].
      intros k ->%list_elem_of_singleton. by apply N5. }
    split.
    + apply NoDup_app. repeat split; [|  |done].
      * destruct o; simpl; [apply NoDup_singleton|constructor].
      * intros k Hk Hk'. destruct (Ho k Hk) as [Hin Hout].
        destruct (I4 k Hk') as [?|Hge]; [done|].
        apply Hlt in Hin. lia.
    + intros k [Hk|Hk]%elem_of_app.
      * left. by apply Ho.
      * destruct (I4 k Hk) as [Hj|Hge]; [|right; lia].
        destruct (N4 k Hj); auto.
Qed.

(** X16: the promise [handleFileUpload] returns to the upload panel
    rejects exactly when [uploadFile] throws or returns a response without
    success, at that moment, with the thrown value or with an [Error]
    carrying [response.error || 'Upload failed']; it resolves only for a
    call whose upload the server reported as successful, and only when the
    dataset refresh after it has settled, whatever the refresh gave: the
    calls resolved so far and those still refreshing are the accepted
    uploads, one for one.  No promise settles twice. *)
Theorem upload_promise_follows_server evs w :
  run init evs = Some w →
  filter (λ x, isResolved x = false) (outcomes init evs)
    = concat (map refusal evs)
  ∧ map fst (filter (λ x, isResolved x = true) (outcomes init evs))
      ++ refreshing w
    ≡ₚ concat (map accepted evs)
  ∧ NoDup (map fst (outcomes init evs)).
Proof.
  intros Hr.
  destruct (outcomes_run evs init w Hr) as (H1 & H2 & H3 & _).
  - constructor.
  - by intros ? ?%elem_of_nil.
  - done.
Qed.

Lemma upload_promise_follows_server_witness :
  ∃ w, run init uploadThenView = Some w
    ∧ map fst (filter (λ x, isResolved x = true)
                 (outcomes init uploadThenView))
        ++ refreshing w
      ≡ₚ concat (map accepted uploadThenView).
Proof.
  eexists. split; [vm_compute; reflexivity|].
  eapply proj1, proj2, (upload_promise_follows_server uploadThenView).
  vm_compute; reflexivity.
Defined.

End LeftPanelFacts.

(** * Facts about the upload tab *)
Module UploadTabFacts.
Import Upload UploadFacts UploadView UploadViewFacts.
Import UploadTab.

(** ** The rows and the calls of the upload panel after a step *)
Lemma step_rows_kind props p e p' :
  Upload.step props p e = Some p' → isDismissal e = false →
  ∃ f fs, uploads p' = map (update f) (uploads p) ++ newRows fs
    ∧ match e with
      | Tick => ∃ i, f = Ticked i
      | At _ (DropFiles _) => f = Keep
      | At _ (Uploaded k) =>
          ∃ c others, takeCall k (calls p) = Some (c, others)
            ∧ f = Done (call_upload c)
      | At _ (UploadFailed k err) =>
          ∃ c others, takeCall k (calls p) = Some (c, others)
            ∧ f = Failed (call_upload c)
                    (match err with
                     | Some m => m
                     | None => "Upload failed"%string
                     end)
      | At _ (Dismiss _) => True
      end.
Proof.
  intros Hs Hd. destruct e as [t a|].
  - apply upload_At_inv in Hs.
    destruct a as [files|k|k err|i]; simpl in *; simplify_eq/=.
    + exists Keep. eexists. rewrite onDrop_uploads. simpl. by rewrite map_id.
    + destruct (takeCall k (calls p)) as [[c rest]|] eqn:E; simplify_eq/=.
      exists (Done (call_upload c)), (call_rest c).
      unfold resolved. rewrite onDrop_uploads. simpl. eauto.
    + destruct (takeCall k (calls p)) as [[c rest]|] eqn:E; simplify_eq/=.
      eexists (Failed (call_upload c) _), (call_rest c).
      unfold rejected. rewrite onDrop_uploads. simpl. eauto.
  - simpl in Hs. destruct (nextInterval _) as [iv|] eqn:E; simplify_eq/=.
    exists (Ticked (target iv)), []. rewrite app_nil_r. eauto.
Qed.

Lemma update_cases f u :
  match f with
  | Keep => update f u = u
  | Ticked i =>
      status (update f u) = status u ∧ error (update f u) = error u
  | Done i =>
      (id u = i ∧ status (update f u) = completed
       ∧ progress (update f u) = 100%Z ∧ error (update f u) = error u)
      ∨ (id u ≠ i ∧ update f u = u)
  | Failed i msg =>
      (id u = i ∧ status (update f u) = failed
       ∧ error (update f u) = Some msg)
      ∨ (id u ≠ i ∧ update f u = u)
  end.
Proof.
  destruct f as [|i|i|i msg]; simpl; [done|..];
    unfold tick, complete, fail;
    destruct (String.eqb (id u) i) eqn:E; simpl; auto;
    try (apply String.eqb_eq in E; left; auto);
    apply String.eqb_neq in E; right; auto.
Qed.







Lemma net_act_ids a l l' o :
  LeftPanel.act a l = Some (l', o) → netAction a = true →
  LeftPanel.nextJob l' = LeftPanel.nextJob l
  ∧ map LeftPanel.job_id (LeftPanel.jobs l)
    ≡ₚ map fst (option_list o) ++ map LeftPanel.job_id (LeftPanel.jobs l')
  ∧ match o with
    | Some (k, LeftPanel.Resolved) =>
        ∃ r, a = LeftPanel.DatasetsSettle (Some k) r
    | Some (k, LeftPanel.Rejected err) =>
        LeftPanel.refusal a = [(k, LeftPanel.Rejected err)]
    | None => True
    end.
Proof.
  intros H Hn. destruct a as [tab| |d| | |k r|[k|] r]; try done.
  - apply LeftPanelFacts.act_upload in H as (j & rest & Ht & Hp & Hu).
    apply LeftPanelFacts.takeJob_ids in Ht.
    unfold LeftPanel.uploaded in Hu.
    destruct r as [resp|err]; [destruct (LeftPanel.ur_success resp) eqn:E|];
      simplify_eq/=; rewrite ?E; split; try done; split; try done.
    by rewrite map_app, Ht, Permutation_cons_append.
  - apply LeftPanelFacts.act_refresh in H as (j & rest & Ht & Hp & -> & ->).
    apply LeftPanelFacts.takeJob_ids in Ht.
    destruct (LeftPanelFacts.loaded_jobs r (LeftPanel.setJobs rest l))
      as [-> ->].
    simpl. eauto.
  - cbn [LeftPanel.act] in H.
    destruct (LeftPanel.loads l) as [|n] eqn:E; [done|].
    injection H as <- <-.
    destruct (LeftPanelFacts.loaded_jobs r (LeftPanel.setLoads n l))
      as [-> ->].
    done.
Qed.

(** ** Steps and runs of the tab *)
Lemma step_Panel props w e w' :
  step props w (Panel e) = Some w' →
  userEvent e = true
  ∧ ∃ p', Upload.step props (fileUpload w) e = Some p'
      ∧ w' = {| leftPanel := called (fileUpload w) p' (leftPanel w);
                fileUpload := p' |}.
Proof.
  unfold step. destruct (userEvent e); [|done].
  destruct (Upload.step props (fileUpload w) e) as [p'|] eqn:E; [|done].
  cbn -[Upload.step]. intros [= <-]. split; [done|]. by exists p'.
Qed.

Lemma step_Net props w t a w' :
  step props w (Net t a) = Some w' →
  netAction a = true
  ∧ ∃ l' o p', LeftPanel.act a (leftPanel w) = Some (l', o)
      ∧ Upload.step props (fileUpload w) (At t (deliver o)) = Some p'
      ∧ w' = {| leftPanel := called (fileUpload w) p' l';
                fileUpload := p' |}.
Proof.
  unfold step. destruct (netAction a); [|done].
  destruct (LeftPanel.act a (leftPanel w)) as [[l' o]|]; [|done].
  cbn -[Upload.step].
  destruct (Upload.step props (fileUpload w) (At t (deliver o)))
    as [p'|] eqn:E; [|done].
  cbn -[Upload.step]. intros [= <-]. split; [done|]. by exists l', o, p'.
Qed.

Lemma tab_run_snoc props evs e w :
  run props w (evs ++ [e]) = run props w evs ≫= λ w', step props w' e.
Proof.
  revert w. induction evs as [|a evs IH]; intros w; simpl.
  - by destruct (step props w e).
  - destruct (step props w a); simpl; [apply IH|done].
Qed.





(** ** The rows *)
Lemma row_origin props p e p' u' :
  Upload.step props p e = Some p' → u' ∈ uploads p' →
  (status u' = uploading ∧ error u' = None)
  ∨ ∃ u, u ∈ uploads p
      ∧ ((status u' = status u ∧ error u' = error u)
         ∨ (status u' = completed ∧ error u' = error u
            ∧ ∃ t k, e = At t (Uploaded k))
         ∨ (status u' = failed
            ∧ ∃ t k err, e = At t (UploadFailed k err)
                ∧ error u' = Some (match err with
                                   | Some m => m
                                   | None => "Upload failed"%string
                                   end))).
Proof.
  intros Hs Hin. destruct (isDismissal e) eqn:Hd.
  - destruct e as [t [| | |i]|]; try done.
    apply upload_At_inv in Hs. simpl in Hs. simplify_eq/=.
    apply list_elem_of_filter in Hin as [_ Hin]. right. exists u'. auto.
  - destruct (step_rows_kind _ _ _ _ Hs Hd) as (f & fs & Hrows & Hf).
    rewrite Hrows in Hin. apply elem_of_app in Hin as [Hin|Hin].
    + apply list_elem_of_fmap in Hin as (u & -> & Hu). right. exists u.
      split; [done|]. pose proof (update_cases f u) as Hc.
      destruct e as [t [files|k|k err|i]|]; try done.
      * rewrite Hf in Hc |- *. rewrite Hc. auto.
      * destruct Hf as (c & others & _ & ->).
        destruct Hc as [(_ & ? & _ & ?)|[_ ->]]; [|auto].
        right. left. eauto.
      * destruct Hf as (c & others & _ & ->).
        destruct Hc as [(_ & ? & ?)|[_ ->]]; [|auto].
        right. right. eauto 6.
      * destruct Hf as [i ->]. auto.
    + left. pose proof (newRows_fresh fs) as Hfresh.
      rewrite Forall_forall in Hfresh.
      destruct (Hfresh u' Hin) as (? & _ & ?). done.
Qed.

Lemma tab_step_upload props w e w' :
  step props w e = Some w' →
  ∃ e', Upload.step props (fileUpload w) e' = Some (fileUpload w')
    ∧ ((∃ t k, e' = At t (Uploaded k)) → isRefresh e = true)
    ∧ ∀ t k err, e' = At t (UploadFailed k err) →
        failureText e = [match err with
                         | Some m => m
                         | None => "Upload failed"%string
                         end].
Proof.
  intros Hs. destruct e as [e|t a].
  - apply step_Panel in Hs as (Hu & p' & Hs & ->). exists e.
    split; [done|]. split.
    + intros (t & k & ->). done.
    + intros t k err ->. done.
  - apply step_Net in Hs as (Ha & l' & o & p' & Hl & Hs & ->).
    exists (At t (deliver o)). split; [done|].
    destruct (net_act_ids _ _ _ _ Hl Ha) as (_ & _ & Ho).
    destruct o as [[k [|err]]|]; simpl.
    + destruct Ho as [r ->]. done.
    + split; [by intros (? & ? & [=])|].
      intros t' k' err' [= -> -> ->]. rewrite Ho. simpl.
      by destruct err'.
    + split; [by intros (? & ? & [=])|]. by intros ? ? ? [=].
Qed.




Lemma failureTexts_snoc evs e :
  failureTexts (evs ++ [e]) = failureTexts evs ++ failureText e.
Proof.
  unfold failureTexts. rewrite map_app, concat_app. simpl.
  by rewrite app_nil_r.
Qed.

Lemma failed_run props l evs : ∀ w,
  run props (opened l) evs = Some w →
  ∀ u, u ∈ uploads (fileUpload w) → status u = failed →
  ∃ m, error u = Some m ∧ m ∈ failureTexts evs.
Proof.
  induction evs as [|e evs IH] using rev_ind; intros w Hr u Hu Hst.
  - simpl in Hr. simplify_eq. by apply elem_of_nil in Hu.
  - rewrite tab_run_snoc in Hr.
    destruct (run props (opened l) evs) as [w1|] eqn:E; simplify_eq/=.
    destruct (tab_step_upload _ _ _ _ Hr) as (e' & Hs & _ & Hrej).
    rewrite failureTexts_snoc.
    destruct (row_origin _ _ _ _ _ Hs Hu)
      as [[? _]|(u0 & Hu0 & [[Hsame Herr]|[(? & _)|(_ & Hf)]])];
      [congruence| |congruence|].
    + destruct (IH _ eq_refl u0 Hu0) as (m & ? & ?); [congruence|].
      exists m. split; [congruence|]. apply elem_of_app. by left.
    + destruct Hf as (t & k & err & -> & Herr).
      eexists. split; [exact Herr|]. apply elem_of_app. right.
      rewrite (Hrej _ _ _ eq_refl). left.
Qed.

Lemma failureText_cases e m :
  m ∈ failureText e → m ∈ thrownText e ∨ m ≠ ""%string.
Proof.
  destruct e as [e|t a]; simpl; [by intros ?%elem_of_nil|].
  destruct a as [| | | | |k [resp|[m'|]]|]; simpl;
    try (by intros ?%elem_of_nil).
  - destruct (LeftPanel.ur_success resp); simpl;
      [by intros ?%elem_of_nil|].
    intros ->%list_elem_of_singleton. right. unfold LeftPanel.orElse.
    destruct (LeftPanel.ur_error resp) as [s|]; [|done].
    destruct (String.eqb s "") eqn:E; [done|]. by apply String.eqb_neq.
  - intros ->%list_elem_of_singleton. left. left.
  - intros ->%list_elem_of_singleton. by right.
Qed.

(** X19: from the first opening of the upload tab on, a row in status
    error carries a message, and the message is what the backend call
    gave: the message of the [Error] thrown by [uploadFile], 'Upload
    failed' for any other thrown value, and [response.error || 'Upload
    failed'] for a response without success.  So the message of a failure
    reported by the server is never empty; only an [Error] thrown with an
    empty message shows as an empty text. *)
Theorem failed_rows_show_the_server_text props l evs w u :
  run props (opened l) evs = Some w →
  u ∈ uploads (fileUpload w) → status u = failed →
  ∃ m, error u = Some m ∧ m ∈ failureTexts evs
    ∧ (m = ""%string → ∃ e, e ∈ evs ∧ m ∈ thrownText e).
Proof.
  intros Hr Hu Hst.
  destruct (failed_run _ _ _ _ Hr u Hu Hst) as (m & Hm & Hin).
  exists m. split; [done|]. split; [done|]. intros Hempty.
  unfold failureTexts in Hin.
  apply list_elem_of_In, in_concat in Hin as (ms & Hms & Hml).
  apply list_elem_of_In in Hms, Hml.
  apply list_elem_of_fmap in Hms as (e & -> & He).
  exists e. split; [done|].
  by destruct (failureText_cases _ _ Hml).
Qed.

Lemma failed_rows_show_the_server_text_witness :
  ∃ w u, run defaultProps init refusedThenAccepted = Some w
    ∧ uploads (fileUpload w) !! 0 = Some u
    ∧ ∃ m, error u = Some m ∧ m ∈ failureTexts refusedThenAccepted
        ∧ (m = ""%string →
           ∃ e, e ∈ refusedThenAccepted ∧ m ∈ thrownText e).
Proof.
  eexists _, _. split; [vm_compute; reflexivity|].
  split; [vm_compute; reflexivity|].
  eapply (failed_rows_show_the_server_text defaultProps LeftPanel.init);
    [vm_compute; reflexivity|vm_compute; left|reflexivity].
Defined.

End UploadTabFacts.

(** * Facts about the earlier left panel *)
Module LegacyPanelFacts.
Import Upload UploadFacts UploadView UploadViewFacts.
Import LegacyPanel.

Lemma legacy_resolves r : handleFileUpload r = LeftPanel.Resolved.
Proof. by destruct r as [resp|err]; [destruct resp as [[] ?]|]. Qed.

Lemma legacy_reply props p t k r :
  step props p (Reply t k r) = Upload.step props p (At t (Uploaded k)).
Proof. unfold step. by rewrite legacy_resolves. Qed.

Lemma legacy_step_upload props p e p' :
  step props p e = Some p' →
  ∃ e', Upload.step props p e' = Some p'
    ∧ ∀ t k err, e' ≠ At t (UploadFailed k err).
Proof.
  destruct e as [e|t k r].
  - unfold step. destruct (UploadTab.userEvent e) eqn:E; [|done].
    intros Hs. exists e. split; [done|]. by intros t k err ->.
  - rewrite legacy_reply. intros Hs. by exists (At t (Uploaded k)).
Qed.

Lemma legacy_run props evs : ∀ p p',
  run props p evs = Some p' →
  Forall (λ u, status u ≠ failed ∧ error u = None) (uploads p) →
  Forall (λ u, status u ≠ failed ∧ error u = None) (uploads p').
Proof.
  induction evs as [|e evs IH]; intros p p' Hr Hinv; simpl in Hr.
  - by simplify_eq.
  - destruct (step props p e) as [p1|] eqn:E; simplify_eq/=.
    eapply IH; [exact Hr|]. clear Hr IH.
    destruct (legacy_step_upload _ _ _ _ E) as (e' & Hs & Hne).
    rewrite Forall_forall in Hinv |- *. intros u' Hu'.
    destruct (UploadTabFacts.row_origin _ _ _ _ _ Hs Hu')
      as [[-> ->]|(u & Hu & [[-> ->]|[(-> & -> & _)|(_ & Hf)]])].
    + done.
    + by apply Hinv.
    + split; [done|]. by apply Hinv.
    + destruct Hf as (t & k & err & -> & _). by destruct (Hne t k err).
Qed.

(** X20: with the earlier left panel, whose [handleFileUpload] catches
    every error and returns, the upload panel never shows a failure: no
    row ever has status error or an error message, and when [uploadFile]
    throws or the server reports no success, the rows of that upload are
    marked completed with progress 100. *)
Theorem legacy_panel_never_reports_failure props evs p :
  run props Upload.init evs = Some p →
  Forall (λ u, status u ≠ failed ∧ error u = None) (uploads p)
  ∧ ∀ t k r p' c others,
      step props p (Reply t k r) = Some p' →
      takeCall k (calls p) = Some (c, others) →
      ∀ j u, uploads p !! j = Some u → id u = call_upload c →
      ∃ u', uploads p' !! j = Some u'
        ∧ status u' = completed ∧ progress u' = 100%Z.
Proof.
  intros Hr. split.
  { eapply legacy_run; [exact Hr|]. constructor. }
  intros t k r p' c others Hs Hc j u Hj Hid.
  assert (Upload.step props p (At t (Uploaded k)) = Some p') as Hs'.
  { by rewrite <- (legacy_reply props p t k r). }
  destruct (UploadTabFacts.step_rows_kind _ _ _ _ Hs' eq_refl)
    as (f & fs & Hrows & Hf).
  simpl in Hf. destruct Hf as (c' & others' & Hc' & ->).
  rewrite Hc in Hc'. simplify_eq.
  exists (update (Done (call_upload c')) u). rewrite Hrows. split.
  - apply lookup_app_l_Some. by rewrite list_lookup_fmap, Hj.
  - destruct (UploadTabFacts.update_cases (Done (call_upload c')) u)
      as [(_ & ? & ? & _)|[? _]]; done.
Qed.

Lemma legacy_panel_never_reports_failure_witness :
  ∃ p, run defaultProps Upload.init uploadThrows = Some p
    ∧ Forall (λ u, status u ≠ failed ∧ error u = None) (uploads p).
Proof.
  eexists. split; [vm_compute; reflexivity|].
  eapply proj1, (legacy_panel_never_reports_failure defaultProps
                   uploadThrows).
  vm_compute; reflexivity.
Defined.

End LegacyPanelFacts.
